(** * user-notes-search: the page script of [src/routes/+page.svelte]

    A shallow embedding of the script block of the single page of the
    application: identity normalisation, relay selection, the two
    [for await] loops of [fetchEvents], the abort handler and the
    search / highlight functions, followed by the properties proved
    about them.

    JavaScript strings are sequences of UTF-16 code units; they are
    modelled as [list N], and [length], [slice] and [indexOf] count code
    units exactly as the source does. *)

From Stdlib Require Import ZArith NArith List Bool Lia Ascii String Sorted
  Permutation.
From stdpp Require Import base option list gmap.

Set Default Proof Using "Type".
Local Open Scope nat_scope.

(** ** JavaScript strings *)

Abbreviation jsstring := (list N).

(** A literal written with Basic Latin characters only: one code unit
    per character. *)
Definition js (s : string) : jsstring :=
  map N_of_ascii (list_ascii_of_string s).

Definition unitEqb (a b : N) : bool := N.eqb a b.

(** [a === b] on strings. *)
Definition jsEqb (a b : jsstring) : bool := bool_decide (a = b).

(** [WhiteSpace] and [LineTerminator] code points of ECMAScript, the
    ones [String.prototype.trim] removes. *)
Definition isWhiteSpace (c : N) : bool :=
  ((9 <=? c) && (c <=? 13) || (c =? 32) || (c =? 160) || (c =? 5760)
   || (8192 <=? c) && (c <=? 8202) || (c =? 8232) || (c =? 8233)
   || (c =? 8239) || (c =? 8287) || (c =? 12288) || (c =? 65279))%N.

Fixpoint trimStart (s : jsstring) : jsstring :=
  match s with
  | c :: r => if isWhiteSpace c then trimStart r else s
  | [] => []
  end.

Definition trimEnd (s : jsstring) : jsstring := rev (trimStart (rev s)).

Definition trim (s : jsstring) : jsstring := trimEnd (trimStart s).

(** Truthiness of a string: the empty string is the only falsy one. *)
Definition truthy (s : jsstring) : bool :=
  match s with [] => false | _ => true end.

(** [p] is a prefix of [s]. *)
Fixpoint isPrefix (p s : jsstring) : bool :=
  match p, s with
  | [], _ => true
  | x :: p', y :: s' => unitEqb x y && isPrefix p' s'
  | _ :: _, [] => false
  end.

(** [s.startsWith(p)] *)
Definition startsWith (s p : jsstring) : bool := isPrefix p s.

(** [s.slice(a, b)] for non-negative integer arguments: both ends are
    clamped to the length, and the result is empty when [b <= a]. *)
Definition slice (s : jsstring) (a b : nat) : jsstring :=
  firstn (b - a) (skipn a s).

(** [s.slice(a)] *)
Definition sliceFrom (s : jsstring) (a : nat) : jsstring := skipn a s.

(** Position of the first occurrence of [q] in [s], counted from the
    start of [s]. *)
Fixpoint search (q s : jsstring) : option nat :=
  if isPrefix q s then Some 0
  else match s with
       | [] => None
       | _ :: r => option_map S (search q r)
       end.

(** [s.indexOf(q, pos)] for a non-negative [pos]: the start position is
    clamped to the length; [None] stands for [-1]. *)
Definition indexOf (s q : jsstring) (pos : nat) : option nat :=
  let p := Nat.min pos (length s) in
  option_map (Nat.add p) (search q (skipn p s)).

(** [s.includes(q)] *)
Definition includes (s q : jsstring) : bool :=
  match indexOf s q 0 with Some _ => true | None => false end.

(** The character class [[0-9a-fA-F]]. *)
Definition isHexDigit (c : N) : bool :=
  ((48 <=? c) && (c <=? 57) || (97 <=? c) && (c <=? 102)
   || (65 <=? c) && (c <=? 70))%N.

(** [/^[0-9a-fA-F]{64}$/.test(s)] *)
Definition isHex64 (s : jsstring) : bool :=
  (length s =? 64) && forallb isHexDigit s.

(** A lower-casing that agrees with [String.prototype.toLowerCase] on
    strings of Basic Latin code units: [A-Z] goes to [a-z], every other
    unit is kept.  It instantiates the [toLowerCase] parameter below when
    a property is evaluated on a concrete Basic Latin input. *)
Definition lowerUnit (c : N) : N :=
  if ((65 <=? c) && (c <=? 90))%N then (c + 32)%N else c.

Definition toLowerCaseLatin (s : jsstring) : jsstring := map lowerUnit s.

Definition upperUnit (c : N) : N :=
  if ((97 <=? c) && (c <=? 122))%N then (c - 32)%N else c.

Definition toUpperCaseLatin (s : jsstring) : jsstring := map upperUnit s.

(** A lower-casing that agrees with [String.prototype.toLowerCase] on
    strings of Basic Latin code units and U+0130 (LATIN CAPITAL LETTER I
    WITH DOT ABOVE), whose lower case is the two units U+0069 U+0307. *)
Definition lowerUnits (c : N) : jsstring :=
  if (c =? 304)%N then [105; 775]%N else [lowerUnit c].

Definition toLowerCaseDotted (s : jsstring) : jsstring :=
  concat (map lowerUnits s).

(** ** Documents *)

(** [NostrEvent] of nostr-fetch. *)
Record NostrEvent := {
  id : jsstring;
  pubkey : jsstring;
  created_at : Z;
  kind : Z;
  tags : list (list jsstring);
  content : jsstring;
  sig : jsstring
}.

(** ** Thrown values and results *)

Inductive Exn :=
| InvalidNpub      (** [new Error('無効なnpub形式です')] *)
| InvalidFormat    (** [new Error('公開鍵はnpub形式またはhex形式（64文字）で入力してください')] *)
| TypeError        (** reading a property of [undefined] *)
| Foreign (isError : bool) (message : jsstring).
                   (** anything thrown by the transport *)

Inductive Result (A : Type) :=
| Ok (a : A)
| Throw (e : Exn).
Arguments Ok {A} a.
Arguments Throw {A} e.

(** What the page shows in its error box. *)
Inductive Message :=
| MsgEnterPubkey   (** ['公開鍵を入力してください'] *)
| MsgInvalidNpub
| MsgInvalidFormat
| MsgTypeError
| MsgFetchFailed   (** ['投稿の取得中にエラーが発生しました'] *)
| MsgText (m : jsstring).

(** [err instanceof Error ? err.message : '投稿の取得中に...'] *)
Definition messageOf (e : Exn) : Message :=
  match e with
  | InvalidNpub => MsgInvalidNpub
  | InvalidFormat => MsgInvalidFormat
  | TypeError => MsgTypeError
  | Foreign true m => MsgText m
  | Foreign false _ => MsgFetchFailed
  end.

(** The value of [nip19.decode]: a type tag and the decoded data. *)
Record Decoded := { dtype : jsstring; ddata : jsstring }.

Definition defaultRelays : list jsstring :=
  [js "wss://relay.damus.io"; js "wss://nos.lol"; js "wss://yabu.me/"].

Definition metadataRelays : list jsstring :=
  [js "wss://purplepag.es/"; js "wss://user.kindpag.es/";
   js "wss://directory.yabu.me/"].

(** ** The transport and the page state *)

(** What the page does to the outside world, in order. *)
Inductive Effect :=
| FetcherInit
    (** [NostrFetcher.init()] *)
| AllEventsIterator (relays authors : list jsstring) (kinds : list Z)
                    (signal : option (nat * option bool))
    (** [fetcher.allEventsIterator(relays, {authors, kinds}, {}, opts)];
        [signal] is the token handed over in [opts] and the value of its
        [aborted] flag at that moment *)
| ConsoleLog (relays : list jsstring)
| ConsoleError (e : Exn)
| FetcherShutdown.
    (** [fetcher.shutdown()] *)

(** What reaches the page while a [for await] loop is suspended: the next
    document of the iterator, or a click on the abort button. *)
Inductive Arrival :=
| Deliver (event : NostrEvent)
| ClickAbort.

(** A finite run of an iterator: its arrivals, then completion ([None])
    or a thrown value. *)
Record Stream := { arrivals : list Arrival; ending : option Exn }.

Record Env := {
  transport : list jsstring -> list jsstring -> list Z -> Stream;
  shutdownOutcome : option Exn
}.

(** The [$state] variables of the page and the abort controllers.
    [signals] holds the [aborted] flag of every [AbortController] created
    so far, in creation order; [controller] is the one the variable
    [controller] refers to. *)
Record State := {
  publicKey : jsstring;
  events : list NostrEvent;
  profileEvents : gmap (list N) NostrEvent;
  relayListEvent : option NostrEvent;
  beforeLoad : bool;
  loading : bool;
  error : option Message;
  searchQuery : jsstring;
  controller : nat;
  signals : list bool
}.

(** [bind:value={publicKey}]: the user types into the input. *)
Definition set_publicKey (v : jsstring) (st : State) : State :=
  {| publicKey := v; events := events st;
     profileEvents := profileEvents st; relayListEvent := relayListEvent st;
     beforeLoad := beforeLoad st; loading := loading st; error := error st;
     searchQuery := searchQuery st; controller := controller st;
     signals := signals st |}.

Definition set_events (v : list NostrEvent) (st : State) : State :=
  {| publicKey := publicKey st; events := v;
     profileEvents := profileEvents st; relayListEvent := relayListEvent st;
     beforeLoad := beforeLoad st; loading := loading st; error := error st;
     searchQuery := searchQuery st; controller := controller st;
     signals := signals st |}.

Definition set_profileEvents (v : gmap (list N) NostrEvent) (st : State) : State :=
  {| publicKey := publicKey st; events := events st;
     profileEvents := v; relayListEvent := relayListEvent st;
     beforeLoad := beforeLoad st; loading := loading st; error := error st;
     searchQuery := searchQuery st; controller := controller st;
     signals := signals st |}.

Definition set_relayListEvent (v : option NostrEvent) (st : State) : State :=
  {| publicKey := publicKey st; events := events st;
     profileEvents := profileEvents st; relayListEvent := v;
     beforeLoad := beforeLoad st; loading := loading st; error := error st;
     searchQuery := searchQuery st; controller := controller st;
     signals := signals st |}.

Definition set_loading (v : bool) (st : State) : State :=
  {| publicKey := publicKey st; events := events st;
     profileEvents := profileEvents st; relayListEvent := relayListEvent st;
     beforeLoad := beforeLoad st; loading := v; error := error st;
     searchQuery := searchQuery st; controller := controller st;
     signals := signals st |}.

Definition set_error (v : option Message) (st : State) : State :=
  {| publicKey := publicKey st; events := events st;
     profileEvents := profileEvents st; relayListEvent := relayListEvent st;
     beforeLoad := beforeLoad st; loading := loading st; error := v;
     searchQuery := searchQuery st; controller := controller st;
     signals := signals st |}.

(** Lines 95-101 of the script: the assignments at the start of a fetch. *)
Definition startFetch (st : State) : State :=
  {| publicKey := publicKey st; events := [];
     profileEvents := ∅; relayListEvent := None;
     beforeLoad := false; loading := true; error := None;
     searchQuery := []; controller := controller st;
     signals := signals st |}.

(** [abort()]: signal the current controller, then create a new one and
    make [controller] refer to it. *)
Definition abort (st : State) : State :=
  {| publicKey := publicKey st; events := events st;
     profileEvents := profileEvents st; relayListEvent := relayListEvent st;
     beforeLoad := beforeLoad st; loading := loading st; error := error st;
     searchQuery := searchQuery st;
     controller := length (signals st);
     signals := <[controller st := true]> (signals st) ++ [false] |}.

(** [signal.aborted] of the token [t]. *)
Definition aborted (st : State) (t : nat) : option bool := signals st !! t.

(** The state when the page is mounted. *)
Definition initialState : State :=
  {| publicKey := []; events := []; profileEvents := ∅;
     relayListEvent := None; beforeLoad := true; loading := false;
     error := None; searchQuery := []; controller := 0;
     signals := [false] |}.

(** ** A state, trace and exception monad for the async function *)

Definition M (A : Type) : Type := State -> State * list Effect * Result A.

Definition ret {A} (a : A) : M A := fun st => (st, [], Ok a).

Definition bind {A B} (m : M A) (f : A -> M B) : M B :=
  fun st =>
    match m st with
    | (st1, t1, Ok a) =>
        match f a st1 with
        | (st2, t2, r) => (st2, t1 ++ t2, r)
        end
    | (st1, t1, Throw e) => (st1, t1, Throw e)
    end.

Notation "x <- m ;; k" := (bind m (fun x => k))
  (at level 100, m at level 99, k at level 100, right associativity).
Notation "m ;;; k" := (bind m (fun _ => k))
  (at level 100, k at level 100, right associativity).

Definition throw {A} (e : Exn) : M A := fun st => (st, [], Throw e).

Definition liftR {A} (r : Result A) : M A := fun st => (st, [], r).

Definition get : M State := fun st => (st, [], Ok st).

Definition modify (f : State -> State) : M unit := fun st => (f st, [], Ok tt).

Definition emit (e : Effect) : M unit := fun st => (st, [e], Ok tt).

(** [try { m } catch (err) { handler err }] *)
Definition tryCatch {A} (m : M A) (handler : Exn -> M A) : M A :=
  fun st =>
    match m st with
    | (st1, t1, Ok a) => (st1, t1, Ok a)
    | (st1, t1, Throw e) =>
        match handler e st1 with
        | (st2, t2, r) => (st2, t1 ++ t2, r)
        end
    end.

(** [try { m } finally { fin }]: [fin] runs whatever [m] did; a value
    thrown by [fin] replaces the outcome of [m]. *)
Definition tryFinally {A} (m : M A) (fin : M unit) : M A :=
  fun st =>
    match m st with
    | (st1, t1, r) =>
        match fin st1 with
        | (st2, t2, Ok _) => (st2, t1 ++ t2, r)
        | (st2, t2, Throw e) => (st2, t1 ++ t2, Throw e)
        end
    end.

(** [for await (const event of iterator) { body event }], with the clicks
    that are handled while the loop is suspended. *)
Fixpoint forAwait (arr : list Arrival) (ending : option Exn)
    (body : NostrEvent -> M unit) : M unit :=
  match arr with
  | [] => match ending with
          | None => ret tt
          | Some e => throw e
          end
  | Deliver event :: rest => body event ;;; forAwait rest ending body
  | ClickAbort :: rest => modify abort ;;; forAwait rest ending body
  end.

(** ** The highlight parts *)

Record Part := { text : jsstring; isMatch : bool }.

(** The arguments of one [parts.push({ text: text.slice(a, b), isMatch })]. *)
Record Segment := { start : nat; stop : nat; matched : bool }.

Definition partOf (t : jsstring) (s : Segment) : Part :=
  {| text := slice t (start s) (stop s); isMatch := matched s |}.

(** ** insertEventIntoDescendingList *)

(** Modelled from the spec: the stable insertion of
    [insertEventIntoDescendingList], which is imported from
    [nostr-tools/utils] and is not among the sources.  Section 4.3: the
    document is inserted at the position that keeps the timestamps
    descending, and ties keep the existing order, so it goes after the
    documents already there with the same timestamp. *)
Fixpoint insertDescending (feed : list NostrEvent) (event : NostrEvent)
    : list NostrEvent :=
  match feed with
  | [] => [event]
  | b :: rest =>
      if (created_at b <? created_at event)%Z then event :: b :: rest
      else b :: insertDescending rest event
  end.

(** Modelled from the spec: [insertEventIntoDescendingList] of
    [nostr-tools/utils], which is not among the sources.  Section 4.3: a
    document is rejected if a document with an equal identity is already
    present in the feed; otherwise it is inserted as above. *)
Definition insertEventIntoDescendingList_spec
    (feed : list NostrEvent) (event : NostrEvent) : list NostrEvent :=
  if existsb (fun b => jsEqb (id b) (id event)) feed then feed
  else insertDescending feed event.

(** ** nostr-tools/utils *)

Module NostrTools.

(** [binarySearch] and [insertEventIntoDescendingList] as [utils.ts] of
    nostr-tools has them, the module line 5 imports the insertion from;
    the library is a dependency of the page and its text is not among the
    sources of the repository. *)

(** The [while (start <= end)] loop of [binarySearch]: [mid] is
    [Math.floor((start + end) / 2)]; a comparison of 0 ends the search at
    [mid] with a find, a negative one continues to the left of [mid]
    ([end = mid - 1]) and a positive one to its right ([start = mid + 1]);
    when the bounds have crossed, the search ends at [start] without a
    find.  One unit of [fuel] is used per iteration; the result is [None]
    when it runs out, and where [arr[mid]] would be [undefined]. *)
Fixpoint searchLoop (fuel : nat) (arr : list NostrEvent)
    (compare : NostrEvent -> Z) (start end_ : Z) : option (Z * bool) :=
  if (start <=? end_)%Z then
    match fuel with
    | 0 => None
    | S fuel' =>
        let mid := ((start + end_) / 2)%Z in
        match arr !! Z.to_nat mid with
        | None => None
        | Some b =>
            let cmp := compare b in
            if (cmp =? 0)%Z then Some (mid, true)
            else if (cmp <? 0)%Z
                 then searchLoop fuel' arr compare start (mid - 1)
                 else searchLoop fuel' arr compare (mid + 1) end_
        end
    end
  else Some (start, false).

(** [binarySearch(arr, compare)]: [start = 0], [end = arr.length - 1]; the
    result is the pair [[idx, found]]. *)
Definition binarySearch (arr : list NostrEvent) (compare : NostrEvent -> Z)
    : option (Z * bool) :=
  searchLoop (length arr) arr compare 0 (Z.of_nat (length arr) - 1).

(** The comparison [insertEventIntoDescendingList] searches with:
    [if (event.id === b.id) return 0;
     if (event.created_at === b.created_at) return -1;
     return b.created_at - event.created_at]. *)
Definition compareWith (event b : NostrEvent) : Z :=
  if jsEqb (id event) (id b) then 0%Z
  else if (created_at event =? created_at b)%Z then (-1)%Z
  else (created_at b - created_at event)%Z.

(** [sortedArray.splice(idx, 0, event)] *)
Definition splice (arr : list NostrEvent) (idx : Z) (event : NostrEvent)
    : list NostrEvent :=
  firstn (Z.to_nat idx) arr ++ event :: skipn (Z.to_nat idx) arr.

(** [insertEventIntoDescendingList(sortedArray, event)]: the array is
    returned as it is when the search has found the identity of the
    document, and with the document spliced in at the index the search
    ended at when it has not. *)
Definition insertEventIntoDescendingList (sortedArray : list NostrEvent)
    (event : NostrEvent) : option (list NostrEvent) :=
  match binarySearch sortedArray (compareWith event) with
  | Some (idx, found) =>
      Some (if found then sortedArray else splice sortedArray idx event)
  | None => None
  end.

End NostrTools.

(** The call of line 146 with the function of the library.  The search
    returns on every array ([insertIntoFeed_library] below), so the feed
    kept here for a search without a result is never the value. *)
Definition insertIntoFeed (feed : list NostrEvent) (event : NostrEvent)
    : list NostrEvent :=
  default feed (NostrTools.insertEventIntoDescendingList feed event).

(** Later timestamps first, equal timestamps allowed. *)
Definition Descending (feed : list NostrEvent) : Prop :=
  StronglySorted (fun a b => (created_at b <= created_at a)%Z) feed.

(** The components of a run. *)
Definition finalState {A} (o : State * list Effect * Result A) : State :=
  fst (fst o).
Definition traceOf {A} (o : State * list Effect * Result A) : list Effect :=
  snd (fst o).
Definition resultOf {A} (o : State * list Effect * Result A) : Result A :=
  snd o.

(** The state a [for await] loop whose body is a plain state update
    leaves behind. *)
Fixpoint runLoop (step : NostrEvent -> State -> State) (arr : list Arrival)
    (st : State) : State :=
  match arr with
  | [] => st
  | Deliver event :: rest => runLoop step rest (step event st)
  | ClickAbort :: rest => runLoop step rest (abort st)
  end.

Definition endingResult (ending : option Exn) : Result unit :=
  match ending with
  | None => Ok tt
  | Some e => Throw e
  end.

(** The page variables, without the abort controllers. *)
Definition page (st : State) :=
  (publicKey st, events st, profileEvents st, relayListEvent st,
   beforeLoad st, loading st, error st, searchQuery st).

(** The current controller is one that was created and is not signalled. *)
Definition wfTokens (st : State) : Prop :=
  signals st !! controller st = Some false.

(** An effect without the identity of the token it carries; whether the
    token is signalled is kept. *)
Definition eraseSignal (e : Effect) : Effect :=
  match e with
  | AllEventsIterator relays authors kinds (Some (_, flag)) =>
      AllEventsIterator relays authors kinds (Some (0, flag))
  | _ => e
  end.

Definition isShutdown (e : Effect) : bool :=
  match e with FetcherShutdown => true | _ => false end.

Definition isInit (e : Effect) : bool :=
  match e with FetcherInit => true | _ => false end.

Section Page.

(** The library and built-in functions the script calls.  [nip19_decode]
    returns [None] where [nip19.decode] throws. *)
Variable nip19_decode : jsstring -> option Decoded.
Variable canParse : jsstring -> bool.
Variable toLowerCase : jsstring -> jsstring.
Variable insertEventIntoDescendingList :
  list NostrEvent -> NostrEvent -> list NostrEvent.

(** *** normalizePubkey *)

Definition normalizePubkey (input : jsstring) : Result jsstring :=
  let trimmed := trim input in
  if isHex64 trimmed then Ok trimmed
  else if startsWith trimmed (js "npub") then
    match nip19_decode trimmed with
    | None => Throw InvalidNpub
    | Some decoded =>
        if jsEqb (dtype decoded) (js "npub") then Ok (ddata decoded)
        else Throw InvalidFormat
    end
  else Throw InvalidFormat.

(** *** extractWriteRelays *)

(** [tag[i] === s]; [tag[i]] is [undefined] past the end of the tag. *)
Definition tagIs (tag : list jsstring) (i : nat) (s : jsstring) : bool :=
  bool_decide (tag !! i = Some s).

(** The predicate handed to [filter]; [&&] evaluates left to right and
    stops at the first false operand, and [tag[1].startsWith] throws when
    [tag[1]] is [undefined]. *)
Definition isWriteRelayTag (tag : list jsstring) : Result bool :=
  if tagIs tag 0 (js "r") then
    match tag !! 1 with
    | None => Throw TypeError
    | Some url =>
        Ok (startsWith url (js "wss://") && canParse url
            && negb (tagIs tag 2 (js "read")))
    end
  else Ok false.

(** [Array.prototype.filter] with a predicate that may throw. *)
Fixpoint filterTags (l : list (list jsstring)) : Result (list (list jsstring)) :=
  match l with
  | [] => Ok []
  | tag :: rest =>
      match isWriteRelayTag tag with
      | Throw e => Throw e
      | Ok keep =>
          match filterTags rest with
          | Throw e => Throw e
          | Ok kept => Ok (if keep then tag :: kept else kept)
          end
      end
  end.

(** [tag[1]] of a tag that passed the filter (it has one). *)
Definition tagUrl (tag : list jsstring) : jsstring := default [] (tag !! 1).

Definition extractWriteRelays (event : option NostrEvent) : Result (list jsstring) :=
  match event with
  | None => Ok defaultRelays
  | Some ev =>
      if negb (kind ev =? 10002)%Z then Ok defaultRelays
      else
        match filterTags (tags ev) with
        | Throw e => Throw e
        | Ok kept =>
            let writeRelays := map tagUrl kept in
            Ok (if 0 <? length writeRelays then writeRelays else defaultRelays)
        end
  end.

(** *** fetchEvents *)

(** The body of the first [for await] loop (lines 119-129). *)
Definition discoveryStep (event : NostrEvent) (st : State) : State :=
  if (kind event =? 0)%Z then
    match profileEvents st !! pubkey event with
    | Some existing =>
        if (created_at existing <? created_at event)%Z
        then set_profileEvents (<[pubkey event := event]> (profileEvents st)) st
        else st
    | None =>
        set_profileEvents (<[pubkey event := event]> (profileEvents st)) st
    end
  else if (kind event =? 10002)%Z then
    match relayListEvent st with
    | Some current =>
        if (created_at current <? created_at event)%Z
        then set_relayListEvent (Some event) st
        else st
    | None => set_relayListEvent (Some event) st
    end
  else st.

(** The body of the second [for await] loop (line 146). *)
Definition mergeStep (event : NostrEvent) (st : State) : State :=
  set_events (insertEventIntoDescendingList (events st) event) st.

(** [await fetcher.shutdown()] *)
Definition shutdown (env : Env) : M unit :=
  emit FetcherShutdown ;;;
  match shutdownOutcome env with
  | None => ret tt
  | Some e => throw e
  end.

(** The [try] block of [fetchEvents] (lines 106-147). *)
Definition fetchBody (env : Env) : M unit :=
  st0 <- get ;;
  pubkey <- liftR (normalizePubkey (publicKey st0)) ;;
  emit (AllEventsIterator metadataRelays [pubkey] [0; 10002]%Z None) ;;;
  (let relayListIterator := transport env metadataRelays [pubkey] [0; 10002]%Z in
   forAwait (arrivals relayListIterator) (ending relayListIterator)
     (fun event => modify (discoveryStep event))) ;;;
  st1 <- get ;;
  writeRelays <- liftR (extractWriteRelays (relayListEvent st1)) ;;
  emit (ConsoleLog writeRelays) ;;;
  st2 <- get ;;
  emit (AllEventsIterator writeRelays [pubkey] [1]%Z
          (Some (controller st2, aborted st2 (controller st2)))) ;;;
  (let eventIterator := transport env writeRelays [pubkey] [1]%Z in
   forAwait (arrivals eventIterator) (ending eventIterator)
     (fun event => modify (mergeStep event))).

(** The [catch] block (lines 149-150). *)
Definition fetchCatch (err : Exn) : M unit :=
  modify (set_error (Some (messageOf err))) ;;;
  emit (ConsoleError err).

(** The [finally] block (lines 152-153). *)
Definition fetchFinally (env : Env) : M unit :=
  shutdown env ;;;
  modify (set_loading false).

Definition fetchEvents (env : Env) : M unit :=
  st <- get ;;
  if negb (truthy (trim (publicKey st))) then
    modify (set_error (Some MsgEnterPubkey))
  else
    modify startFetch ;;;
    emit FetcherInit ;;;
    tryFinally (tryCatch (fetchBody env) fetchCatch) (fetchFinally env).

(** The run of [fetchEvents] on a non-blank input, written out path by
    path; [fetchEvents_outcome] below shows that it is the run. *)
Definition finishFetch (env : Env) (st : State) (t : list Effect)
    : State * list Effect * Result unit :=
  match shutdownOutcome env with
  | None => (set_loading false st, FetcherInit :: t ++ [FetcherShutdown], Ok tt)
  | Some e => (st, FetcherInit :: t ++ [FetcherShutdown], Throw e)
  end.

Definition caught (e : Exn) (st : State) : State :=
  set_error (Some (messageOf e)) st.

Definition fetchOutcome (env : Env) (st : State)
    : State * list Effect * Result unit :=
  let s0 := startFetch st in
  match normalizePubkey (publicKey st) with
  | Throw e => finishFetch env (caught e s0) [ConsoleError e]
  | Ok pubkey =>
      let it1 := transport env metadataRelays [pubkey] [0; 10002]%Z in
      let open1 := AllEventsIterator metadataRelays [pubkey] [0; 10002]%Z None in
      let s1 := runLoop discoveryStep (arrivals it1) s0 in
      match ending it1 with
      | Some e => finishFetch env (caught e s1) [open1; ConsoleError e]
      | None =>
          match extractWriteRelays (relayListEvent s1) with
          | Throw e => finishFetch env (caught e s1) [open1; ConsoleError e]
          | Ok writeRelays =>
              let it2 := transport env writeRelays [pubkey] [1]%Z in
              let open2 :=
                AllEventsIterator writeRelays [pubkey] [1]%Z
                  (Some (controller s1, aborted s1 (controller s1))) in
              let s2 := runLoop mergeStep (arrivals it2) s1 in
              match ending it2 with
              | Some e =>
                  finishFetch env (caught e s2)
                    [open1; ConsoleLog writeRelays; open2; ConsoleError e]
              | None =>
                  finishFetch env s2 [open1; ConsoleLog writeRelays; open2]
              end
          end
      end
  end.

(** *** filteredEvents *)

Definition filteredEvents (events : list NostrEvent) (searchQuery : jsstring)
    : list NostrEvent :=
  let kind1Events := List.filter (fun event => (kind event =? 1)%Z) events in
  if negb (truthy (trim searchQuery)) then kind1Events
  else
    let query := toLowerCase (trim searchQuery) in
    List.filter (fun event => includes (toLowerCase (content event)) query)
      kind1Events.

(** *** splitTextForHighlight *)

(** The [while] loop (lines 180-187).  [index] is the value the loop
    tests, [None] for [-1]; [qlen] is [query.length].  Every iteration
    consumes one unit of [fuel]; [None] is returned when it runs out. *)
Fixpoint highlightLoop (fuel : nat) (textLower queryLower : jsstring)
    (qlen lastIndex : nat) (index : option nat) (parts : list Segment)
    : option (nat * list Segment) :=
  match index with
  | None => Some (lastIndex, parts)
  | Some i =>
      match fuel with
      | 0 => None
      | S fuel' =>
          let parts1 :=
            if lastIndex <? i
            then parts ++ [{| start := lastIndex; stop := i; matched := false |}]
            else parts in
          let parts2 :=
            parts1 ++ [{| start := i; stop := i + qlen; matched := true |}] in
          let lastIndex' := i + qlen in
          highlightLoop fuel' textLower queryLower qlen lastIndex'
            (indexOf textLower queryLower lastIndex') parts2
      end
  end.

(** The slices pushed by lines 174-191, before they are cut out of
    [text]; [text.slice(lastIndex)] is [text.slice(lastIndex, text.length)]. *)
Definition highlightSegments (text query : jsstring) : option (list Segment) :=
  let queryLower := toLowerCase (trim query) in
  let textLower := toLowerCase text in
  match highlightLoop (S (length textLower)) textLower queryLower
          (length query) 0 (indexOf textLower queryLower 0) [] with
  | None => None
  | Some (lastIndex, parts) =>
      Some (if lastIndex <? length text
            then parts ++ [{| start := lastIndex; stop := length text;
                              matched := false |}]
            else parts)
  end.

(** [None] when the loop does not come to an end. *)
Definition splitTextForHighlight (text query : jsstring) : option (list Part) :=
  if negb (truthy (trim query)) then
    Some [{| text := text; isMatch := false |}]
  else
    match highlightSegments text query with
    | None => None
    | Some segments =>
        let parts := map (partOf text) segments in
        Some (if 0 <? length parts then parts
              else [{| text := text; isMatch := false |}])
    end.

(** The spans the page marks: the bounds of the slices pushed with
    [isMatch: true]. *)
Definition highlightSpans (text query : jsstring) : option (list (nat * nat)) :=
  if negb (truthy (trim query)) then Some []
  else
    match highlightSegments text query with
    | None => None
    | Some segments =>
        Some (map (fun s => (start s, stop s))
                (List.filter matched segments))
    end.

End Page.

(** ** The relay set the specification describes *)

(** Section 4.2, step 3, in the specification's words: the value of a tag
    entry that is a relay reference with a syntactically valid secure
    relay URI and a marker other than read-only. *)
Definition writeRelayUrl (canParse : jsstring -> bool) (tag : list jsstring)
    : option jsstring :=
  match tag !! 0, tag !! 1 with
  | Some name, Some url =>
      if jsEqb name (js "r") && startsWith url (js "wss://") && canParse url
         && negb (bool_decide (tag !! 2 = Some (js "read")))
      then Some url else None
  | _, _ => None
  end.

(** The resolved content relays of section 4.2: the selected endpoints,
    or the defaults when there are none or no relay-list document. *)
Definition resolveContentRelays (canParse : jsstring -> bool)
    (event : option NostrEvent) : list jsstring :=
  match event with
  | None => defaultRelays
  | Some ev =>
      if (kind ev =? 10002)%Z then
        match omap (writeRelayUrl canParse) (tags ev) with
        | [] => defaultRelays
        | selected => selected
        end
      else defaultRelays
  end.

(** Every relay reference carries a value. *)
Definition rTagHasUrl (tag : list jsstring) : Prop :=
  tag !! 0 = Some (js "r") -> is_Some (tag !! 1).

(** ** The order of the result feed *)

(** The documents among the arrivals, in the order they were delivered. *)
Fixpoint deliveredDocs (arr : list Arrival) : list NostrEvent :=
  match arr with
  | [] => []
  | Deliver event :: rest => event :: deliveredDocs rest
  | ClickAbort :: rest => deliveredDocs rest
  end.

(** The position of the first delivered document with identity [i]; the
    number of documents when there is none. *)
Fixpoint firstIndex (i : jsstring) (docs : list NostrEvent) : nat :=
  match docs with
  | [] => 0
  | d :: rest => if jsEqb (id d) i then 0 else S (firstIndex i rest)
  end.

(** [a] stands before [b] in the feed: it has the later timestamp, or the
    same timestamp and its identity was delivered first. *)
Definition feedBefore (docs : list NostrEvent) (a b : NostrEvent) : Prop :=
  (created_at b < created_at a)%Z
  \/ (created_at a = created_at b
      /\ firstIndex (id a) docs < firstIndex (id b) docs).

(** What holds of the feed after the documents [docs] were delivered: it
    is in order, no identity occurs twice, and it holds exactly the first
    delivery of every identity. *)
Definition FeedInvariant (docs feed : list NostrEvent) : Prop :=
  StronglySorted (feedBefore docs) feed
  /\ List.NoDup (map id feed)
  /\ (forall x, In x feed -> docs !! firstIndex (id x) docs = Some x)
  /\ (forall x, In x docs -> In (id x) (map id feed)).

(** ** The occurrences the specification describes *)

(** Section 4.5 in the specification's words: every non-overlapping
    occurrence of [q] in [s], scanning left to right and advancing past
    each match by [adv].  [pos] is the offset of [s] in the payload and
    [skip] the number of positions still covered by the last match. *)
Fixpoint occurrencesFrom (q s : jsstring) (adv pos skip : nat)
    : list (nat * nat) :=
  match s with
  | [] => []
  | _ :: rest =>
      match skip with
      | S k => occurrencesFrom q rest adv (S pos) k
      | 0 =>
          if isPrefix q s
          then (pos, pos + adv) :: occurrencesFrom q rest adv (S pos) (adv - 1)
          else occurrencesFrom q rest adv (S pos) 0
      end
  end.

Definition nonOverlappingOccurrences (q s : jsstring) (adv : nat)
    : list (nat * nat) :=
  occurrencesFrom q s adv 0 0.

(** The bounds of the slices pushed with [isMatch: true]. *)
Definition spansOf (parts : list Segment) : list (nat * nat) :=
  map (fun s => (start s, stop s)) (List.filter matched parts).

(** The text the slices cut out of [t], one after the other. *)
Definition render (t : jsstring) (parts : list Segment) : jsstring :=
  concat (map (fun s => slice t (start s) (stop s)) parts).

(** ** Sample data *)

Definition upperKey : jsstring :=
  js "ABCDEF0123456789ABCDEF0123456789ABCDEF0123456789ABCDEF0123456789".

Definition lowerKey : jsstring :=
  js "abcdef0123456789abcdef0123456789abcdef0123456789abcdef0123456789".

Definition otherKey : jsstring :=
  js "00000000000000000000000000000000000000000000000000000000000000ff".

(** A relay-list document with a relay reference that has no value. *)
Definition relayListMissingUrl : NostrEvent :=
  {| id := js "e1"; pubkey := lowerKey; created_at := 1; kind := 10002;
     tags := [[js "r"]]; content := []; sig := [] |}.

(** The relay list of the scenario of section 8. *)
Definition relayListScenario : NostrEvent :=
  {| id := js "e2"; pubkey := lowerKey; created_at := 2; kind := 10002;
     tags := [[js "r"; js "wss://a.example"; js "write"];
              [js "r"; js "wss://b.example"; js "read"]];
     content := []; sig := [] |}.

(** A relay list whose endpoints are all marked read-only. *)
Definition relayListReadOnly : NostrEvent :=
  {| id := js "e3"; pubkey := lowerKey; created_at := 3; kind := 10002;
     tags := [[js "r"; js "wss://a.example"; js "read"];
              [js "r"; js "wss://b.example"; js "read"]];
     content := []; sig := [] |}.

(** Two relay lists, the second by another author and newer. *)
Definition ownRelayList : NostrEvent :=
  {| id := js "e4"; pubkey := lowerKey; created_at := 1; kind := 10002;
     tags := [[js "r"; js "wss://own.example"]]; content := []; sig := [] |}.

Definition foreignRelayList : NostrEvent :=
  {| id := js "e5"; pubkey := otherKey; created_at := 2; kind := 10002;
     tags := [[js "r"; js "wss://foreign.example"]]; content := []; sig := [] |}.

Definition emptyStream : Stream := {| arrivals := []; ending := None |}.

(** A transport that delivers nothing. *)
Definition quietEnv : Env :=
  {| transport := fun _ _ _ => emptyStream; shutdownOutcome := None |}.

(** A transport whose discovery query also returns a relay list of
    another author. *)
Definition foreignEnv : Env :=
  {| transport := fun _ _ kinds =>
       if bool_decide (kinds = [0; 10002]%Z)
       then {| arrivals := [Deliver ownRelayList; Deliver foreignRelayList];
               ending := None |}
       else emptyStream;
     shutdownOutcome := None |}.

(** Two posts. *)
Definition postConcatcat : NostrEvent :=
  {| id := js "p1"; pubkey := lowerKey; created_at := 10; kind := 1;
     tags := []; content := js "concatcat"; sig := [] |}.

Definition postDog : NostrEvent :=
  {| id := js "p2"; pubkey := lowerKey; created_at := 11; kind := 1;
     tags := []; content := js "hot dog"; sig := [] |}.

(** Three posts, two of them with the same timestamp. *)
Definition postA : NostrEvent :=
  {| id := js "a"; pubkey := lowerKey; created_at := 5; kind := 1;
     tags := []; content := js "first"; sig := [] |}.

Definition postB : NostrEvent :=
  {| id := js "b"; pubkey := lowerKey; created_at := 5; kind := 1;
     tags := []; content := js "second"; sig := [] |}.

Definition postC : NostrEvent :=
  {| id := js "c"; pubkey := lowerKey; created_at := 7; kind := 1;
     tags := []; content := js "third"; sig := [] |}.

(** A transport whose discovery query returns the relay list with a
    relay reference that has no value. *)
Definition malformedEnv : Env :=
  {| transport := fun _ _ kinds =>
       if bool_decide (kinds = [0; 10002]%Z)
       then {| arrivals := [Deliver relayListMissingUrl]; ending := None |}
       else {| arrivals := [Deliver postConcatcat]; ending := None |};
     shutdownOutcome := None |}.

(** A transport whose content query delivers a post and is then cut short
    by a click on the abort button. *)
Definition clickEnv : Env :=
  {| transport := fun _ _ kinds =>
       if bool_decide (kinds = [1]%Z)
       then {| arrivals := [Deliver postA; ClickAbort]; ending := None |}
       else emptyStream;
     shutdownOutcome := None |}.

(** A post whose text begins with U+0130, the capital I with a dot above:
    five code units, of which the last three are "cat". *)
Definition dottedPayload : jsstring := 304%N :: js " cat".

Definition postDotted : NostrEvent :=
  {| id := js "p3"; pubkey := lowerKey; created_at := 12; kind := 1;
     tags := []; content := dottedPayload; sig := [] |}.

(** No decoder is needed on the hex path. *)
Definition noDecode (s : jsstring) : option Decoded := None.

(** ** The snapshots of the discovery loop *)

(** Lines 122 and 126: the retained document gives way to a strictly
    newer one only. *)
Definition keepNewer (current : option NostrEvent) (event : NostrEvent)
    : option NostrEvent :=
  match current with
  | Some c => if (created_at c <? created_at event)%Z then Some event else Some c
  | None => Some event
  end.

(** [r] is, among the documents of [docs] that [sel] selects, the first
    delivered of those with the latest timestamp; there is none when no
    document is selected. *)
Definition NewestFirst (sel : NostrEvent -> Prop) (docs : list NostrEvent)
    (r : option NostrEvent) : Prop :=
  match r with
  | None => forall e, In e docs -> ~ sel e
  | Some p =>
      exists i, docs !! i = Some p /\ sel p
        /\ forall j e, docs !! j = Some e -> sel e ->
             (created_at e <= created_at p)%Z
             /\ (j < i -> (created_at e < created_at p)%Z)
  end.

(** ** The filtered view as one filter *)

(** What lines 36-43 keep of the feed for the query [searchQuery]. *)
Definition visible (toLowerCase : jsstring -> jsstring)
    (searchQuery : jsstring) (event : NostrEvent) : bool :=
  (kind event =? 1)%Z
  && (negb (truthy (trim searchQuery))
      || includes (toLowerCase (content event))
           (toLowerCase (trim searchQuery))).

(** ** What a slice of the highlight holds *)

(** A slice pushed as a match lies inside [tl], is as wide as [ql] and
    starts at an occurrence of [ql] in [tl]; a slice pushed as no match is
    not empty, lies inside [tl] and no occurrence of [ql] starts in it. *)
Definition segmentSound (tl ql : jsstring) (s : Segment) : Prop :=
  if matched s then
    stop s = start s + length ql /\ stop s <= length tl
    /\ isPrefix ql (skipn (start s) tl) = true
  else
    start s < stop s /\ stop s <= length tl
    /\ forall j, start s <= j < stop s -> isPrefix ql (skipn j tl) = false.

(** ** getProfile and isValidImageUrl *)

#[local] Set Warnings "-register-all".

(** The values [JSON.parse] returns.  A number is kept as its literal;
    an object is the list of its own properties. *)
Inductive Json :=
| JNull
| JBool (b : bool)
| JNumber (literal : jsstring)
| JString (s : jsstring)
| JArray (items : list Json)
| JObject (fields : list (jsstring * Json)).

(** The own property [key] of an object, [None] for [undefined]. *)
Fixpoint ownProperty (key : jsstring) (fields : list (jsstring * Json))
    : option Json :=
  match fields with
  | [] => None
  | (k, v) :: rest => if jsEqb k key then Some v else ownProperty key rest
  end.

(** [value.key] for the keys [picture] and [name]: reading a property of
    [null] throws, an object gives its own property, and a boolean, a
    number, a string or an array has no such property. *)
Definition getProperty (value : Json) (key : jsstring) : Result (option Json) :=
  match value with
  | JNull => Throw TypeError
  | JObject fields => Ok (ownProperty key fields)
  | _ => Ok None
  end.

(** What [getProfile] returns when it does not return [null]. *)
Record Profile := { picture : option Json; name : option Json }.

Section Profiles.

(** [JSON.parse], [None] where it throws; [URL.canParse]; and the
    [protocol] of [new URL(url)], which throws on a string that is not a
    URL. *)
Variable jsonParse : jsstring -> option Json.
Variable canParse : jsstring -> bool.
Variable urlProtocol : jsstring -> Result jsstring.

(** The [try] block of [getProfile] (lines 25-29); [None] when it throws. *)
Definition readProfile (content : jsstring) : option Profile :=
  match jsonParse content with
  | None => None
  | Some profile =>
      match getProperty profile (js "picture") with
      | Throw _ => None
      | Ok pic =>
          match getProperty profile (js "name") with
          | Throw _ => None
          | Ok nm => Some {| picture := pic; name := nm |}
          end
      end
  end.

Definition getProfile (profileEvents : gmap (list N) NostrEvent)
    (pubkey : jsstring) : option Profile :=
  match profileEvents !! pubkey with
  | None => None
  | Some profileEvent =>
      if negb (kind profileEvent =? 0)%Z then None
      else readProfile (content profileEvent)
  end.

(** [isValidImageUrl]; the argument is whatever [profile.picture] is. *)
Definition isValidImageUrl (url : option Json) : Result bool :=
  match url with
  | Some (JString u) =>
      if canParse u then
        match urlProtocol u with
        | Throw e => Throw e
        | Ok protocol => Ok (jsEqb protocol (js "https:"))
        end
      else Ok false
  | _ => Ok false
  end.

End Profiles.

(** ** What the page shows *)

(** [{#if error}]: a message that is the empty string is not shown. *)
Definition errorShown (st : State) : bool :=
  match error st with
  | Some (MsgText m) => truthy m
  | Some _ => true
  | None => false
  end.

(** [{#if loading && events.length === 0}] *)
Definition spinnerShown (st : State) : bool :=
  loading st && (length (events st) =? 0).

(** [{#if events.length > 0 || loading}] *)
Definition feedShown (st : State) : bool :=
  (0 <? length (events st)) || loading st.

(** [{:else if !beforeLoad && !loading && !error && publicKey}] *)
Definition emptyNoticeShown (st : State) : bool :=
  negb (feedShown st) && negb (beforeLoad st) && negb (loading st)
  && negb (errorShown st) && truthy (publicKey st).

(** The abort button: [{#if loading}] inside the feed block. *)
Definition abortButtonShown (st : State) : bool :=
  feedShown st && loading st.

(** [disabled={loading || !publicKey.trim()}] of the fetch button. *)
Definition fetchButtonDisabled (st : State) : bool :=
  loading st || negb (truthy (trim (publicKey st))).

(** A parser of URLs that knows two schemes, for evaluation. *)
Definition sampleCanParse (u : jsstring) : bool :=
  startsWith u (js "https://") || startsWith u (js "http://").

Definition sampleProtocol (u : jsstring) : Result jsstring :=
  if startsWith u (js "https://") then Ok (js "https:")
  else if startsWith u (js "http://") then Ok (js "http:")
  else Throw TypeError.

(** * Properties *)

(** ** Strings *)

Lemma jsEqb_true (a b : jsstring) : jsEqb a b = true <-> a = b.
Proof. unfold jsEqb. apply bool_decide_eq_true. Qed.

Lemma jsEqb_false (a b : jsstring) : jsEqb a b = false <-> a <> b.
Proof. unfold jsEqb. apply bool_decide_eq_false. Qed.

Ltac split_units :=
  repeat match goal with
         | |- context [(?a <=? ?b)%N] => destruct (N.leb_spec a b); try lia
         | |- context [(?a =? ?b)%N] => destruct (N.eqb_spec a b); try lia
         end.

Lemma hexDigit_range (c : N) :
  isHexDigit c = true -> (48 <= c <= 102)%N.
Proof.
  unfold isHexDigit. intros H.
  destruct (N.leb_spec 48 c), (N.leb_spec c 102); try lia;
    revert H; split_units; simpl; intros; try discriminate; lia.
Qed.

Lemma hexDigit_not_space (c : N) :
  isHexDigit c = true -> isWhiteSpace c = false.
Proof.
  intros H. apply hexDigit_range in H. unfold isWhiteSpace.
  split_units; reflexivity.
Qed.

Lemma hexDigit_upper (c : N) : isHexDigit (upperUnit c) = isHexDigit c.
Proof.
  unfold upperUnit.
  destruct (N.leb_spec 97 c), (N.leb_spec c 122); simpl; try reflexivity.
  unfold isHexDigit.
  destruct (N.leb_spec c 102).
  - split_units; reflexivity.
  - split_units; reflexivity.
Qed.

Lemma hexDigit_lower (c : N) : isHexDigit (lowerUnit c) = isHexDigit c.
Proof.
  unfold lowerUnit.
  destruct (N.leb_spec 65 c), (N.leb_spec c 90); simpl; try reflexivity.
  unfold isHexDigit.
  destruct (N.leb_spec c 70).
  - split_units; reflexivity.
  - split_units; reflexivity.
Qed.

Lemma isHex64_map (f : N -> N) (s : jsstring) :
  (forall c, isHexDigit (f c) = isHexDigit c) ->
  isHex64 (map f s) = isHex64 s.
Proof.
  intros Hf. unfold isHex64. rewrite length_map. f_equal.
  induction s as [|c s IH]; simpl; [reflexivity|]. now rewrite Hf, IH.
Qed.

Lemma trimStart_idem (s : jsstring) : trimStart (trimStart s) = trimStart s.
Proof.
  induction s as [|c s IH]; simpl; [reflexivity|].
  destruct (isWhiteSpace c) eqn:E; [exact IH|]. simpl. now rewrite E.
Qed.

Lemma trimStart_snoc (a : jsstring) (c : N) :
  trimStart (a ++ [c]) =
  match trimStart a with
  | [] => if isWhiteSpace c then [] else [c]
  | _ => trimStart a ++ [c]
  end.
Proof.
  induction a as [|x a IH]; simpl.
  - destruct (isWhiteSpace c); reflexivity.
  - destruct (isWhiteSpace x); [exact IH | reflexivity].
Qed.

Lemma trimStart_rev_trimStart (u : jsstring) :
  trimStart (rev u) = rev u ->
  trimStart (rev (trimStart u)) = rev (trimStart u).
Proof.
  induction u as [|x u IH]; simpl; [reflexivity|].
  intros H. destruct (isWhiteSpace x) eqn:E; [|exact H].
  apply IH. rewrite trimStart_snoc in H.
  destruct (trimStart (rev u)) eqn:Et.
  - rewrite E in H. destruct (rev u); discriminate.
  - apply app_inj_tail in H. tauto.
Qed.

Lemma trim_fixed (s : jsstring) :
  trimStart s = s -> trimStart (rev s) = rev s -> trim s = s.
Proof.
  intros H1 H2. unfold trim, trimEnd. rewrite H1, H2. apply rev_involutive.
Qed.

Lemma trim_idem (s : jsstring) : trim (trim s) = trim s.
Proof.
  apply trim_fixed.
  - unfold trim, trimEnd. apply trimStart_rev_trimStart.
    rewrite rev_involutive. apply trimStart_idem.
  - unfold trim, trimEnd. rewrite rev_involutive. apply trimStart_idem.
Qed.

Lemma trimStart_no_space (s : jsstring) :
  forallb (fun c => negb (isWhiteSpace c)) s = true -> trimStart s = s.
Proof.
  destruct s as [|c s]; simpl; [reflexivity|].
  intros H. apply andb_true_iff in H as [H _].
  apply negb_true_iff in H. now rewrite H.
Qed.

Lemma trim_no_space (s : jsstring) :
  forallb (fun c => negb (isWhiteSpace c)) s = true -> trim s = s.
Proof.
  intros H. apply trim_fixed; apply trimStart_no_space; [exact H|].
  rewrite forallb_forall in *. intros c Hc. apply H. now apply in_rev.
Qed.

Lemma trim_hex64 (s : jsstring) : isHex64 s = true -> trim s = s.
Proof.
  unfold isHex64. intros H. apply andb_true_iff in H as [_ H].
  apply trim_no_space. rewrite forallb_forall in *. intros c Hc.
  apply negb_true_iff, hexDigit_not_space, H, Hc.
Qed.

Lemma isPrefix_app (p s : jsstring) :
  isPrefix p s = true <-> exists r, s = p ++ r.
Proof.
  revert s. induction p as [|x p IH]; intros s; simpl.
  - split; [intros _; now exists s | reflexivity].
  - destruct s as [|y s].
    + split; [discriminate | intros [r Hr]; discriminate].
    + rewrite andb_true_iff, IH. unfold unitEqb. rewrite N.eqb_eq. split.
      * intros [-> [r ->]]. now exists r.
      * intros [r Hr]. injection Hr as -> ->. split; [reflexivity | now exists r].
Qed.

Lemma isPrefix_length (p s : jsstring) :
  isPrefix p s = true -> length p <= length s.
Proof.
  intros H. apply isPrefix_app in H as [r ->]. rewrite length_app. lia.
Qed.

Lemma npub_not_hex64 (s : jsstring) :
  startsWith s (js "npub") = true -> isHex64 s = false.
Proof.
  unfold startsWith. intros H. apply isPrefix_app in H as [r ->].
  unfold isHex64. apply andb_false_iff. right. reflexivity.
Qed.

(** ** normalizePubkey *)

(** C4 as stated fails: an upper-case and a lower-case spelling of the
    same 32 bytes are both accepted and each is returned as typed, so the
    two results differ and at most one of them is in a canonical case. *)
Lemma normalizePubkey_keeps_case :
  normalizePubkey noDecode upperKey = Ok upperKey
  /\ normalizePubkey noDecode lowerKey = Ok lowerKey
  /\ toLowerCaseLatin upperKey = lowerKey
  /\ upperKey <> lowerKey.
Proof. repeat split; try reflexivity. discriminate. Qed.

(** C4 (amended): an input that is exactly 64 hexadecimal characters
    after trimming is returned trimmed and otherwise unchanged; upper-
    and lower-case hexadecimal letters are both accepted, and the case of
    the input is kept. *)
Theorem normalizePubkey_hex64 (decode : jsstring -> option Decoded)
    (input : jsstring) :
  isHex64 (trim input) = true ->
  normalizePubkey decode input = Ok (trim input)
  /\ normalizePubkey decode (toUpperCaseLatin (trim input))
     = Ok (toUpperCaseLatin (trim input))
  /\ normalizePubkey decode (toLowerCaseLatin (trim input))
     = Ok (toLowerCaseLatin (trim input)).
Proof.
  intros H.
  assert (Hgen : forall s, isHex64 s = true -> normalizePubkey decode s = Ok s).
  { intros s Hs. unfold normalizePubkey. rewrite (trim_hex64 s Hs).
    now rewrite Hs. }
  split; [|split].
  - unfold normalizePubkey. now rewrite H.
  - apply Hgen. unfold toUpperCaseLatin.
    rewrite isHex64_map; [exact H | exact hexDigit_upper].
  - apply Hgen. unfold toLowerCaseLatin.
    rewrite isHex64_map; [exact H | exact hexDigit_lower].
Qed.

Lemma normalizePubkey_hex64_witness :
  isHex64 (trim (js "  " ++ upperKey ++ js " ")) = true
  /\ normalizePubkey noDecode (js "  " ++ upperKey ++ js " ") = Ok upperKey.
Proof.
  split; [reflexivity|].
  exact (proj1 (normalizePubkey_hex64 noDecode (js "  " ++ upperKey ++ js " ")
                  eq_refl)).
Defined.

(** C5: the two failures of [normalizePubkey] and its successes.  An
    input with the [npub] prefix whose decoding throws fails with the
    invalid-npub error; an input that is neither 64 hexadecimal characters
    nor prefixed with [npub] fails with the format error; and the only
    successes are the whole trimmed input when it is 64 hexadecimal
    characters, and the decoded data of an [npub]. *)
Theorem normalizePubkey_failures (decode : jsstring -> option Decoded)
    (input : jsstring) :
  (startsWith (trim input) (js "npub") = true ->
   decode (trim input) = None ->
   normalizePubkey decode input = Throw InvalidNpub)
  /\ (isHex64 (trim input) = false ->
      startsWith (trim input) (js "npub") = false ->
      normalizePubkey decode input = Throw InvalidFormat)
  /\ (forall key, normalizePubkey decode input = Ok key <->
        (isHex64 (trim input) = true /\ key = trim input)
        \/ (startsWith (trim input) (js "npub") = true
            /\ exists decoded, decode (trim input) = Some decoded
                 /\ dtype decoded = js "npub" /\ ddata decoded = key))
  /\ (forall e, normalizePubkey decode input = Throw e ->
        e = InvalidNpub \/ e = InvalidFormat).
Proof.
  unfold normalizePubkey. split; [|split; [|split]].
  - intros Hp Hd. rewrite (npub_not_hex64 _ Hp), Hp, Hd. reflexivity.
  - intros Hh Hp. now rewrite Hh, Hp.
  - intros key. destruct (isHex64 (trim input)) eqn:Hh.
    + split.
      * intros [= <-]. left. auto.
      * intros [[_ ->]|[Hp _]]; [reflexivity|].
        apply npub_not_hex64 in Hp. congruence.
    + destruct (startsWith (trim input) (js "npub")) eqn:Hp.
      * destruct (decode (trim input)) as [d|] eqn:Hd.
        -- destruct (jsEqb (dtype d) (js "npub")) eqn:Ht.
           ++ apply jsEqb_true in Ht. split.
              ** intros [= <-]. right. split; [reflexivity|]. now exists d.
              ** intros [[? _]|[_ (d' & [= <-] & _ & <-)]];
                   [discriminate | reflexivity].
           ++ apply jsEqb_false in Ht. split; [discriminate|].
              intros [[? _]|[_ (d' & [= <-] & Ht' & _)]];
                [discriminate | contradiction].
        -- split; [discriminate|].
           intros [[? _]|[_ (d' & ? & _)]]; discriminate.
      * split; [discriminate|]. intros [[? _]|[? _]]; discriminate.
  - intros e. destruct (isHex64 (trim input)); [discriminate|].
    destruct (startsWith (trim input) (js "npub")).
    + destruct (decode (trim input)) as [d|].
      * destruct (jsEqb (dtype d) (js "npub")); [discriminate|].
        intros [= <-]. now right.
      * intros [= <-]. now left.
    + intros [= <-]. now right.
Qed.

(** ** extractWriteRelays *)

Section Relays.

Variable canParse : jsstring -> bool.

Lemma tagIs_true (tag : list jsstring) (i : nat) (s : jsstring) :
  tagIs tag i s = true <-> tag !! i = Some s.
Proof. unfold tagIs. apply bool_decide_eq_true. Qed.

(** On a tag whose relay reference carries a value the predicate of the
    filter does not throw, and it keeps exactly the entries the
    specification selects. *)
Lemma isWriteRelayTag_defined (tag : list jsstring) :
  rTagHasUrl tag ->
  isWriteRelayTag canParse tag
  = Ok (bool_decide (is_Some (writeRelayUrl canParse tag))).
Proof.
  unfold rTagHasUrl, isWriteRelayTag, writeRelayUrl, tagIs, jsEqb.
  intros H. destruct (tag !! 0) as [name|] eqn:E0.
  - destruct (decide (name = js "r")) as [->|Hn].
    + destruct H as [url Hu]; [reflexivity|]. rewrite Hu.
      rewrite !bool_decide_eq_true_2 by reflexivity.
      cbv beta iota. rewrite andb_true_l. f_equal.
      destruct (startsWith url (js "wss://") && canParse url
                && negb (bool_decide (tag !! 2 = Some (js "read")))).
      * symmetry. apply bool_decide_eq_true_2. eauto.
      * symmetry. apply bool_decide_eq_false_2. intros [? ?]. discriminate.
    + rewrite bool_decide_eq_false_2 by congruence.
      rewrite (bool_decide_eq_false_2 (name = js "r")) by exact Hn.
      cbv beta iota. f_equal. symmetry. apply bool_decide_eq_false_2.
      destruct (tag !! 1); rewrite ?andb_false_l; intros [? ?]; discriminate.
  - rewrite bool_decide_eq_false_2 by discriminate. reflexivity.
Qed.

Lemma isWriteRelayTag_throws (tag : list jsstring) (e : Exn) :
  isWriteRelayTag canParse tag = Throw e ->
  e = TypeError /\ ~ rTagHasUrl tag.
Proof.
  unfold isWriteRelayTag, rTagHasUrl. destruct (tagIs tag 0 (js "r")) eqn:E0.
  - apply tagIs_true in E0. destruct (tag !! 1) eqn:E1; [discriminate|].
    intros [= <-]. split; [reflexivity|]. intros H.
    destruct (H E0) as [? ?]. discriminate.
  - discriminate.
Qed.

Lemma filterTags_defined (l : list (list jsstring)) :
  Forall rTagHasUrl l ->
  exists kept, filterTags canParse l = Ok kept
    /\ map tagUrl kept = omap (writeRelayUrl canParse) l.
Proof.
  induction 1 as [|tag l Htag _ [kept [IH1 IH2]]]; simpl.
  - now exists [].
  - rewrite (isWriteRelayTag_defined tag Htag), IH1.
    destruct (writeRelayUrl canParse tag) as [url|] eqn:Eu.
    + rewrite bool_decide_eq_true_2 by eauto.
      exists (tag :: kept). split; [reflexivity|]. simpl. rewrite IH2.
      f_equal. unfold tagUrl. unfold writeRelayUrl in Eu.
      destruct (tag !! 0); [|discriminate].
      destruct (tag !! 1); [|discriminate]. simpl.
      destruct (_ && _) in Eu; congruence.
    + rewrite bool_decide_eq_false_2 by (intros [? ?]; discriminate).
      now exists kept.
Qed.

Lemma filterTags_throws (l : list (list jsstring)) (e : Exn) :
  filterTags canParse l = Throw e ->
  e = TypeError /\ ~ Forall rTagHasUrl l.
Proof.
  induction l as [|tag l IH]; simpl; [discriminate|].
  destruct (isWriteRelayTag canParse tag) as [keep|e'] eqn:Et.
  - destruct (filterTags canParse l) as [kept|e''] eqn:El; [discriminate|].
    intros [= <-]. destruct (IH eq_refl) as [-> Hn].
    split; [reflexivity|]. intros H. apply Hn. now inversion H.
  - intros [= <-]. apply isWriteRelayTag_throws in Et as [-> Hn].
    split; [reflexivity|]. intros H. apply Hn. now inversion H.
Qed.

(** Where every relay reference of the document carries a value,
    [extractWriteRelays] returns the relay set of section 4.2. *)
Lemma extractWriteRelays_refines (event : option NostrEvent) :
  match event with
  | Some ev => (kind ev = 10002)%Z -> Forall rTagHasUrl (tags ev)
  | None => True
  end ->
  extractWriteRelays canParse event = Ok (resolveContentRelays canParse event).
Proof.
  destruct event as [ev|]; simpl; [|reflexivity].
  intros H. destruct (Z.eqb_spec (kind ev) 10002) as [Hk|Hk]; simpl;
    [|reflexivity].
  destruct (filterTags_defined (tags ev) (H Hk)) as [kept [-> <-]].
  f_equal. destruct (map tagUrl kept); reflexivity.
Qed.

Lemma resolveContentRelays_nonempty (event : option NostrEvent) :
  resolveContentRelays canParse event <> [].
Proof.
  unfold resolveContentRelays. destruct event as [ev|]; [|discriminate].
  destruct (kind ev =? 10002)%Z; [|discriminate].
  destruct (omap _ _); discriminate.
Qed.

(** Whatever [extractWriteRelays] returns is not empty. *)
Lemma extractWriteRelays_nonempty (event : option NostrEvent)
    (relays : list jsstring) :
  extractWriteRelays canParse event = Ok relays -> relays <> [].
Proof.
  unfold extractWriteRelays. destruct event as [ev|]; [|intros [= <-]; discriminate].
  destruct (negb _); [intros [= <-]; discriminate|].
  destruct (filterTags canParse (tags ev)) as [kept|]; [|discriminate].
  intros [= <-]. destruct (map tagUrl kept); discriminate.
Qed.

End Relays.

(** The scenario of section 8 and the read-only fallback, evaluated. *)
Example extractWriteRelays_scenario :
  extractWriteRelays (fun _ => true) (Some relayListScenario)
  = Ok [js "wss://a.example"].
Proof. reflexivity. Qed.

Example extractWriteRelays_read_only :
  extractWriteRelays (fun _ => true) (Some relayListReadOnly)
  = Ok defaultRelays.
Proof. reflexivity. Qed.

(** C2 at a relay list holding the tag [["r"]]: no entry of the document
    is a write relay, so the relay set of the specification is the
    default one, but [extractWriteRelays] throws a [TypeError] instead of
    returning it. *)
Theorem extractWriteRelays_missing_url (canParse : jsstring -> bool) :
  omap (writeRelayUrl canParse) (tags relayListMissingUrl) = []
  /\ resolveContentRelays canParse (Some relayListMissingUrl) = defaultRelays
  /\ extractWriteRelays canParse (Some relayListMissingUrl) = Throw TypeError.
Proof. repeat split. Qed.

(** C10: [extractWriteRelays] returns on a document exactly when the
    document is not a relay list or every tag of it that starts with
    ["r"] has a second element; otherwise it throws, and what it throws is
    the [TypeError] of the dereference, as on the relay list holding the
    tag [["r"]]. *)
Theorem extractWriteRelays_total_iff (canParse : jsstring -> bool)
    (ev : NostrEvent) :
  ((exists relays, extractWriteRelays canParse (Some ev) = Ok relays)
   <-> (kind ev <> 10002%Z \/ Forall rTagHasUrl (tags ev)))
  /\ (forall e, extractWriteRelays canParse (Some ev) = Throw e ->
        e = TypeError)
  /\ extractWriteRelays canParse None = Ok defaultRelays
  /\ ~ Forall rTagHasUrl (tags relayListMissingUrl)
  /\ extractWriteRelays canParse (Some relayListMissingUrl) = Throw TypeError.
Proof.
  split; [|split; [|split; [|split]]]; try reflexivity.
  - split.
    + intros [relays H]. unfold extractWriteRelays in H.
      destruct (Z.eqb_spec (kind ev) 10002) as [Hk|Hk]; simpl in H; [|now left].
      right. destruct (filterTags canParse (tags ev)) as [kept|e] eqn:Ef;
        [|discriminate].
      destruct (decide (Forall rTagHasUrl (tags ev))) as [Hd|Hd]; [exact Hd|].
      exfalso. clear H relays Hk.
      revert kept Ef Hd. induction (tags ev) as [|tag l IH]; intros kept Ef Hd.
      * apply Hd. constructor.
      * simpl in Ef.
        destruct (isWriteRelayTag canParse tag) as [keep|] eqn:Et; [|discriminate].
        destruct (filterTags canParse l) as [kept'|] eqn:El; [|discriminate].
        destruct (decide (rTagHasUrl tag)) as [Ht|Ht].
        -- apply (IH kept' eq_refl). intros Hl. apply Hd. now constructor.
        -- unfold isWriteRelayTag, rTagHasUrl in *.
           destruct (tagIs tag 0 (js "r")) eqn:E0.
           ++ destruct (tag !! 1) eqn:E1; [|discriminate].
              apply Ht. intros _. eauto.
           ++ apply Ht. intros H0. apply tagIs_true in H0. congruence.
    + intros [Hk|Hall].
      * exists defaultRelays. unfold extractWriteRelays.
        destruct (Z.eqb_spec (kind ev) 10002); [contradiction | reflexivity].
      * exists (resolveContentRelays canParse (Some ev)).
        now apply extractWriteRelays_refines.
  - intros e. unfold extractWriteRelays.
    destruct (negb _); [discriminate|].
    destruct (filterTags canParse (tags ev)) as [kept|e'] eqn:Ef; [discriminate|].
    intros [= <-]. now apply filterTags_throws in Ef as [-> _].
  - intros H. inversion H as [|? ? Ht _]; subst.
    destruct (Ht eq_refl) as [? ?]. discriminate.
Qed.

(** ** fetchEvents *)

Lemma forAwait_modify (step : NostrEvent -> State -> State)
    (arr : list Arrival) (ending : option Exn) (st : State) :
  forAwait arr ending (fun event => modify (step event)) st
  = (runLoop step arr st, [], endingResult ending).
Proof.
  revert st. induction arr as [|a arr IH]; intros st; simpl.
  - destruct ending; reflexivity.
  - destruct a as [event|]; unfold bind, modify; rewrite IH; reflexivity.
Qed.

Lemma forAwait_update (step : NostrEvent -> State -> State)
    (arr : list Arrival) (ending : option Exn) (st : State) :
  forAwait arr ending (fun event s => (step event s, [], Ok tt)) st
  = (runLoop step arr st, [], endingResult ending).
Proof. exact (forAwait_modify step arr ending st). Qed.

Section Fetch.

Variable nip19_decode : jsstring -> option Decoded.
Variable canParse : jsstring -> bool.
Variable insertEventIntoDescendingList :
  list NostrEvent -> NostrEvent -> list NostrEvent.

Local Abbreviation fetch :=
  (fetchEvents nip19_decode canParse insertEventIntoDescendingList).
Local Abbreviation outcome :=
  (fetchOutcome nip19_decode canParse insertEventIntoDescendingList).
Local Abbreviation merge := (mergeStep insertEventIntoDescendingList).

Lemma fetchEvents_blank (env : Env) (st : State) :
  truthy (trim (publicKey st)) = false ->
  fetch env st = (set_error (Some MsgEnterPubkey) st, [], Ok tt).
Proof.
  intros H. unfold fetchEvents, bind, get. rewrite H. reflexivity.
Qed.

Lemma fetchEvents_outcome (env : Env) (st : State) :
  truthy (trim (publicKey st)) = true ->
  fetch env st = outcome env st.
Proof.
  intros H.
  unfold fetchEvents, fetchOutcome, fetchBody, fetchCatch,
    fetchFinally, shutdown, finishFetch, caught, tryFinally, tryCatch, bind,
    get, liftR, emit, modify, ret, throw.
  rewrite H. cbv beta iota. cbn [negb].
  change (publicKey (startFetch st)) with (publicKey st).
  destruct (normalizePubkey nip19_decode (publicKey st)) as [pk|e].
  - rewrite forAwait_update.
    destruct (ending (transport env metadataRelays [pk] [0; 10002]%Z)) as [e|];
      cbn [endingResult].
    + destruct (shutdownOutcome env); reflexivity.
    + destruct (extractWriteRelays canParse _) as [wr|e].
      * rewrite forAwait_update.
        destruct (ending (transport env wr [pk] [1]%Z)) as [e|];
          cbn [endingResult]; destruct (shutdownOutcome env); reflexivity.
      * destruct (shutdownOutcome env); reflexivity.
  - destruct (shutdownOutcome env); reflexivity.
Qed.

(** The trace of a fetch that created a transport handle: [FetcherInit]
    first, [FetcherShutdown] last, neither of them in between. *)
Lemma finishFetch_trace (env : Env) (st : State) (t : list Effect) :
  Forall (fun e => isShutdown e = false /\ isInit e = false) t ->
  (exists mid,
      traceOf (finishFetch env st t) = FetcherInit :: mid ++ [FetcherShutdown]
      /\ Forall (fun e => isShutdown e = false /\ isInit e = false) mid)
  /\ length (List.filter isShutdown (traceOf (finishFetch env st t))) = 1
  /\ resultOf (finishFetch env st t) = endingResult (shutdownOutcome env)
  /\ (shutdownOutcome env = None ->
      loading (finalState (finishFetch env st t)) = false).
Proof.
  intros Ht.
  assert (Hf : List.filter isShutdown t = []).
  { induction Ht as [|e t [He _] _ IH]; simpl; [reflexivity|]. now rewrite He. }
  unfold finishFetch.
  destruct (shutdownOutcome env); unfold traceOf, resultOf, finalState; simpl;
    rewrite List.filter_app, Hf; (split; [exists t; auto|]);
    repeat split; try reflexivity; discriminate.
Qed.

Lemma fetchOutcome_trace (env : Env) (st : State) :
  (exists mid,
      traceOf (outcome env st) = FetcherInit :: mid ++ [FetcherShutdown]
      /\ Forall (fun e => isShutdown e = false /\ isInit e = false) mid)
  /\ length (List.filter isShutdown (traceOf (outcome env st))) = 1
  /\ resultOf (outcome env st) = endingResult (shutdownOutcome env)
  /\ (shutdownOutcome env = None ->
      loading (finalState (outcome env st)) = false).
Proof.
  unfold fetchOutcome.
  destruct (normalizePubkey _ _) as [pk|e].
  - cbv zeta.
    destruct (ending (transport env metadataRelays [pk] [0; 10002]%Z)) as [e|].
    + apply finishFetch_trace. repeat constructor.
    + destruct (extractWriteRelays canParse _) as [wr|e].
      * destruct (ending (transport env wr [pk] [1]%Z)) as [e|];
          apply finishFetch_trace; repeat constructor.
      * apply finishFetch_trace. repeat constructor.
  - apply finishFetch_trace. repeat constructor.
Qed.

End Fetch.

(** The guard of lines 90-93: with a blank input [fetchEvents] returns
    before a transport handle exists, and nothing is there to release.  The
    page does not make this call: its only caller is the button of lines
    233-239, which is disabled while the input is blank. *)
Lemma fetchEvents_blank_input_no_shutdown :
  traceOf (fetchEvents noDecode (fun _ => true)
             insertEventIntoDescendingList_spec quietEnv initialState) = []
  /\ length (List.filter isShutdown
               (traceOf (fetchEvents noDecode (fun _ => true)
                           insertEventIntoDescendingList_spec quietEnv
                           initialState))) = 0
  /\ resultOf (fetchEvents noDecode (fun _ => true)
                 insertEventIntoDescendingList_spec quietEnv initialState)
     = Ok tt.
Proof. repeat split. Qed.

(** The button starts a fetch only when the input is not blank and no
    fetch is running. *)
Lemma fetchButton_enabled (st : State) :
  fetchButtonDisabled st = false ->
  truthy (trim (publicKey st)) = true /\ loading st = false.
Proof.
  unfold fetchButtonDisabled. intros H. apply orb_false_iff in H as [Hl Hk].
  apply negb_false_iff in Hk. auto.
Qed.

(** C8: on every exit path of a fetch, whether the body completes,
    throws (an invalid identity, a malformed relay list, an error of the
    transport) or is cut short by a cancellation, [fetcher.shutdown()] is
    executed exactly once and is the last thing the fetch does to the
    transport, so it is executed before the fetch completes.  These are the
    runs with a non-blank input, the only ones the button of lines 233-239
    starts; with a blank input the guard of lines 90-93 returns before a
    handle is created and there is nothing to shut down. *)
Theorem fetchEvents_shutdown_once
    (decode : jsstring -> option Decoded) (canParse : jsstring -> bool)
    (insert : list NostrEvent -> NostrEvent -> list NostrEvent)
    (env : Env) (st : State) :
  let run := fetchEvents decode canParse insert env st in
  if truthy (trim (publicKey st)) then
    (exists mid,
        traceOf run = FetcherInit :: mid ++ [FetcherShutdown]
        /\ Forall (fun e => isShutdown e = false /\ isInit e = false) mid)
    /\ length (List.filter isShutdown (traceOf run)) = 1
    /\ resultOf run = endingResult (shutdownOutcome env)
    /\ (shutdownOutcome env = None -> loading (finalState run) = false)
  else
    traceOf run = [] /\ resultOf run = Ok tt.
Proof.
  cbv zeta. destruct (truthy (trim (publicKey st))) eqn:H.
  - rewrite fetchEvents_outcome by exact H. apply fetchOutcome_trace.
  - rewrite fetchEvents_blank by exact H. split; reflexivity.
Qed.

(** ** The discovery loop and the relay-list snapshot *)

Lemma discoveryStep_relayList (event : NostrEvent) (st : State) :
  relayListEvent (discoveryStep event st) =
  if (kind event =? 10002)%Z then
    match relayListEvent st with
    | Some current =>
        if (created_at current <? created_at event)%Z
        then Some event else Some current
    | None => Some event
    end
  else relayListEvent st.
Proof.
  unfold discoveryStep.
  destruct (Z.eqb_spec (kind event) 0) as [H0|H0].
  - rewrite H0. simpl.
    destruct (profileEvents st !! pubkey event) as [existing|];
      [destruct (created_at existing <? created_at event)%Z|]; reflexivity.
  - destruct (kind event =? 10002)%Z; [|reflexivity].
    destruct (relayListEvent st) as [current|] eqn:Ec;
      [destruct (created_at current <? created_at event)%Z|];
      simpl; congruence.
Qed.

(** One step either keeps the snapshot or replaces it by the delivered
    relay list; the author of the document plays no part. *)
Lemma discoveryStep_relayList_cases (event : NostrEvent) (st : State) :
  relayListEvent (discoveryStep event st) = relayListEvent st
  \/ (kind event = 10002%Z
      /\ relayListEvent (discoveryStep event st) = Some event).
Proof.
  rewrite discoveryStep_relayList.
  destruct (Z.eqb_spec (kind event) 10002) as [Hk|Hk]; [|now left].
  destruct (relayListEvent st) as [current|]; [|now right].
  destruct (created_at current <? created_at event)%Z; [now right | now left].
Qed.

Lemma discovery_loop_monotone (arr : list Arrival) (st : State)
    (r0 : NostrEvent) :
  relayListEvent st = Some r0 ->
  exists r, relayListEvent (runLoop discoveryStep arr st) = Some r
            /\ (created_at r0 <= created_at r)%Z.
Proof.
  revert st r0. induction arr as [|a arr IH]; intros st r0 H; simpl.
  - exists r0. split; [exact H | lia].
  - destruct a as [event|].
    + pose proof (discoveryStep_relayList event st) as Hs. rewrite H in Hs.
      destruct (kind event =? 10002)%Z.
      * destruct (Z.ltb_spec (created_at r0) (created_at event)).
        -- destruct (IH _ _ Hs) as (r & Hr & Hle). exists r. split; [exact Hr | lia].
        -- exact (IH _ _ Hs).
      * exact (IH _ _ Hs).
    + apply IH. exact H.
Qed.

Lemma discovery_loop_origin (arr : list Arrival) (st : State) :
  relayListEvent (runLoop discoveryStep arr st) = relayListEvent st
  \/ exists event, In (Deliver event) arr /\ kind event = 10002%Z
       /\ relayListEvent (runLoop discoveryStep arr st) = Some event.
Proof.
  revert st. induction arr as [|a arr IH]; intros st; simpl; [now left|].
  destruct a as [event|].
  - destruct (IH (discoveryStep event st)) as [H|(e & Hin & Hk & He)].
    + destruct (discoveryStep_relayList_cases event st) as [Hs|[Hk Hs]].
      * left. congruence.
      * right. exists event. repeat split; auto. congruence.
    + right. exists e. auto.
  - destruct (IH (abort st)) as [H|(e & Hin & Hk & He)]; [now left|].
    right. exists e. auto.
Qed.

Lemma discovery_loop_newest (arr : list Arrival) (st : State)
    (event : NostrEvent) :
  In (Deliver event) arr -> kind event = 10002%Z ->
  exists r, relayListEvent (runLoop discoveryStep arr st) = Some r
            /\ (created_at event <= created_at r)%Z.
Proof.
  revert st. induction arr as [|a arr IH]; intros st Hin Hk; [destruct Hin|].
  destruct Hin as [->|Hin]; simpl.
  - pose proof (discoveryStep_relayList event st) as Hs.
    rewrite Hk in Hs. simpl in Hs.
    destruct (relayListEvent st) as [current|].
    + destruct (Z.ltb_spec (created_at current) (created_at event)).
      * exact (discovery_loop_monotone arr _ _ Hs).
      * destruct (discovery_loop_monotone arr _ _ Hs) as (r & Hr & Hle).
        exists r. split; [exact Hr | lia].
    + exact (discovery_loop_monotone arr _ _ Hs).
  - destruct a; apply IH; assumption.
Qed.

Lemma discovery_loop_author (arr : list Arrival) (st : State)
    (author : jsstring) (r : NostrEvent) :
  (forall event, In (Deliver event) arr -> pubkey event = author) ->
  relayListEvent (runLoop discoveryStep arr st) = Some r ->
  relayListEvent st = Some r \/ pubkey r = author.
Proof.
  intros Hall Hr.
  destruct (discovery_loop_origin arr st) as [H|(e & Hin & _ & He)].
  - left. congruence.
  - right. rewrite Hr in He. injection He as ->. now apply Hall.
Qed.

(** C3 as stated fails: the requested identity is [lowerKey], the
    discovery query also returns a newer relay list of [otherKey], and
    that foreign document is the snapshot the fetch retains and takes its
    content relays from. *)
Lemma discovery_foreign_relay_list_overwrites :
  relayListEvent
    (finalState (fetchEvents noDecode (fun _ => true)
                   insertEventIntoDescendingList_spec foreignEnv
                   (set_publicKey lowerKey initialState)))
  = Some foreignRelayList
  /\ pubkey foreignRelayList <> lowerKey
  /\ normalizePubkey noDecode lowerKey = Ok lowerKey
  /\ In (AllEventsIterator [js "wss://foreign.example"] [lowerKey] [1%Z]
           (Some (0, Some false)))
        (traceOf (fetchEvents noDecode (fun _ => true)
                    insertEventIntoDescendingList_spec foreignEnv
                    (set_publicKey lowerKey initialState))).
Proof.
  split; [vm_compute; reflexivity|]. split; [discriminate|].
  split; [reflexivity|]. vm_compute. tauto.
Qed.

(** C3 (amended): the discovery loop applies no author filter.  A
    relay-list document replaces the retained snapshot exactly when none
    is retained or its [created_at] is strictly greater, whoever its
    author is; the snapshot left by the loop is the retained one or a
    delivered relay list, no delivered relay list is newer than it, and it
    is by the requested author whenever every delivered document is. *)
Theorem discovery_relay_list_newest (arr : list Arrival)
    (ending : option Exn) (st : State) :
  let st' :=
    finalState (forAwait arr ending (fun event => modify (discoveryStep event)) st)
  in
  (relayListEvent st' = relayListEvent st
   \/ exists event, In (Deliver event) arr /\ kind event = 10002%Z
        /\ relayListEvent st' = Some event)
  /\ (forall event, In (Deliver event) arr -> kind event = 10002%Z ->
        exists r, relayListEvent st' = Some r
                  /\ (created_at event <= created_at r)%Z)
  /\ (forall author r,
        (forall event, In (Deliver event) arr -> pubkey event = author) ->
        relayListEvent st' = Some r ->
        relayListEvent st = Some r \/ pubkey r = author)
  /\ (forall event,
        relayListEvent (discoveryStep event st) =
        if (kind event =? 10002)%Z then
          match relayListEvent st with
          | Some current =>
              if (created_at current <? created_at event)%Z
              then Some event else Some current
          | None => Some event
          end
        else relayListEvent st).
Proof.
  cbv zeta. rewrite forAwait_modify. unfold finalState. cbn [fst].
  split; [apply discovery_loop_origin|].
  split; [intros; now apply discovery_loop_newest|].
  split; [intros author r; apply discovery_loop_author|].
  intros event. apply discoveryStep_relayList.
Qed.

(** ** The abort controllers *)

Lemma wfTokens_lt (st : State) :
  wfTokens st -> controller st < length (signals st).
Proof. unfold wfTokens. intros H. exact (lookup_lt_Some _ _ _ H). Qed.

Lemma abort_signals_current (st : State) :
  wfTokens st -> aborted (abort st) (controller st) = Some true.
Proof.
  intros H. apply wfTokens_lt in H. unfold aborted, abort. cbn [signals].
  rewrite lookup_app_l by (rewrite length_insert; exact H).
  now apply list_lookup_insert_eq.
Qed.

Lemma abort_fresh (st : State) :
  aborted st (controller (abort st)) = None
  /\ aborted (abort st) (controller (abort st)) = Some false.
Proof.
  unfold aborted, abort. cbn [signals controller]. split.
  - apply lookup_ge_None. lia.
  - apply list_lookup_middle. now rewrite length_insert.
Qed.

Lemma abort_wf (st : State) : wfTokens (abort st).
Proof. exact (proj2 (abort_fresh st)). Qed.

Lemma abort_page (st : State) : page (abort st) = page st.
Proof. reflexivity. Qed.

Lemma abort_keeps_signalled (st : State) (t : nat) :
  signals st !! t = Some true -> signals (abort st) !! t = Some true.
Proof.
  intros H. pose proof (lookup_lt_Some _ _ _ H) as Hlt.
  unfold abort. cbn [signals].
  rewrite lookup_app_l by (now rewrite length_insert).
  destruct (decide (controller st = t)) as [->|Hne].
  - now apply list_lookup_insert_eq.
  - now rewrite list_lookup_insert_ne.
Qed.

Lemma abort_other (st : State) (t : nat) :
  t <> controller st -> t < length (signals st) ->
  aborted (abort st) t = aborted st t.
Proof.
  intros Hne Hlt. unfold aborted, abort. cbn [signals].
  rewrite lookup_app_l by (now rewrite length_insert).
  now rewrite list_lookup_insert_ne.
Qed.

Section Loops.

Variable step : NostrEvent -> State -> State.

(** The body of the loop leaves the controllers alone, and what it does
    to the page variables depends on the page variables only. *)
Hypothesis step_tokens : forall event st,
  controller (step event st) = controller st
  /\ signals (step event st) = signals st.
Hypothesis step_page : forall event st st',
  page st = page st' -> page (step event st) = page (step event st').

Lemma step_wf (event : NostrEvent) (st : State) :
  wfTokens st -> wfTokens (step event st).
Proof using step_tokens.
  unfold wfTokens. destruct (step_tokens event st) as [-> ->]. auto.
Qed.

Lemma runLoop_wf (arr : list Arrival) (st : State) :
  wfTokens st -> wfTokens (runLoop step arr st).
Proof using step_tokens.
  revert st. induction arr as [|a arr IH]; intros st H; simpl; [exact H|].
  destruct a; apply IH; [now apply step_wf | apply abort_wf].
Qed.

Lemma runLoop_controller_le (arr : list Arrival) (st : State) :
  wfTokens st -> controller st <= controller (runLoop step arr st).
Proof using step_tokens.
  revert st. induction arr as [|a arr IH]; intros st H; simpl; [lia|].
  destruct a as [event|].
  - destruct (step_tokens event st) as [Hc _]. rewrite <- Hc.
    apply IH. now apply step_wf.
  - apply wfTokens_lt in H. etransitivity; [|apply IH, abort_wf].
    unfold abort. cbn [controller]. lia.
Qed.

Lemma runLoop_keeps_signalled (arr : list Arrival) (st : State) (t : nat) :
  signals st !! t = Some true ->
  signals (runLoop step arr st) !! t = Some true.
Proof using step_tokens.
  revert st. induction arr as [|a arr IH]; intros st H; simpl; [exact H|].
  destruct a as [event|]; apply IH.
  - destruct (step_tokens event st) as [_ ->]. exact H.
  - now apply abort_keeps_signalled.
Qed.

(** A click on the abort button while the loop is suspended signals the
    controller that was current when the loop began. *)
Lemma runLoop_click (arr : list Arrival) (st : State) :
  wfTokens st -> In ClickAbort arr ->
  signals (runLoop step arr st) !! controller st = Some true.
Proof using step_tokens.
  revert st. induction arr as [|a arr IH]; intros st H Hin; [destruct Hin|].
  simpl. destruct a as [event|].
  - destruct Hin as [Hin|Hin]; [discriminate|].
    destruct (step_tokens event st) as [Hc _]. rewrite <- Hc.
    apply IH; [now apply step_wf | exact Hin].
  - apply runLoop_keeps_signalled. now apply abort_signals_current.
Qed.

Lemma runLoop_no_click (arr : list Arrival) (st : State) :
  ~ In ClickAbort arr ->
  controller (runLoop step arr st) = controller st.
Proof using step_tokens.
  revert st. induction arr as [|a arr IH]; intros st Hn; simpl; [reflexivity|].
  destruct a as [event|].
  - rewrite IH by (intros H; apply Hn; now right).
    apply step_tokens.
  - exfalso. apply Hn. now left.
Qed.

Lemma runLoop_page (arr : list Arrival) (st st' : State) :
  page st = page st' ->
  page (runLoop step arr st) = page (runLoop step arr st').
Proof using step_page.
  revert st st'. induction arr as [|a arr IH]; intros st st' H; simpl; [exact H|].
  destruct a as [event|]; apply IH.
  - now apply step_page.
  - now rewrite !abort_page.
Qed.

End Loops.

Lemma discoveryStep_tokens (event : NostrEvent) (st : State) :
  controller (discoveryStep event st) = controller st
  /\ signals (discoveryStep event st) = signals st.
Proof.
  unfold discoveryStep.
  destruct (kind event =? 0)%Z.
  - destruct (profileEvents st !! pubkey event) as [existing|];
      [destruct (created_at existing <? created_at event)%Z|]; split; reflexivity.
  - destruct (kind event =? 10002)%Z; [|split; reflexivity].
    destruct (relayListEvent st) as [current|];
      [destruct (created_at current <? created_at event)%Z|]; split; reflexivity.
Qed.

Lemma page_inv (st st' : State) :
  page st = page st' ->
  publicKey st = publicKey st' /\ events st = events st'
  /\ profileEvents st = profileEvents st'
  /\ relayListEvent st = relayListEvent st'
  /\ beforeLoad st = beforeLoad st' /\ loading st = loading st'
  /\ error st = error st' /\ searchQuery st = searchQuery st'.
Proof. unfold page. intros [= -> -> -> -> -> -> -> ->]. repeat split. Qed.

Lemma discoveryStep_page (event : NostrEvent) (st st' : State) :
  page st = page st' ->
  page (discoveryStep event st) = page (discoveryStep event st').
Proof.
  intros H. apply page_inv in H as (H1 & H2 & H3 & H4 & H5 & H6 & H7 & H8).
  unfold discoveryStep. rewrite <- H3, <- H4.
  destruct (kind event =? 0)%Z.
  - destruct (profileEvents st !! pubkey event) as [existing|];
      [destruct (created_at existing <? created_at event)%Z|];
      unfold page; simpl; congruence.
  - destruct (kind event =? 10002)%Z; [|unfold page; congruence].
    destruct (relayListEvent st) as [current|] eqn:Ec;
      [destruct (created_at current <? created_at event)%Z|];
      unfold page; simpl; congruence.
Qed.

Lemma mergeStep_tokens
    (insert : list NostrEvent -> NostrEvent -> list NostrEvent)
    (event : NostrEvent) (st : State) :
  controller (mergeStep insert event st) = controller st
  /\ signals (mergeStep insert event st) = signals st.
Proof. split; reflexivity. Qed.

Lemma mergeStep_page
    (insert : list NostrEvent -> NostrEvent -> list NostrEvent)
    (event : NostrEvent) (st st' : State) :
  page st = page st' ->
  page (mergeStep insert event st) = page (mergeStep insert event st').
Proof.
  intros H. apply page_inv in H as (H1 & H2 & H3 & H4 & H5 & H6 & H7 & H8).
  unfold mergeStep, page. simpl. congruence.
Qed.

Section FetchTokens.

Variable nip19_decode : jsstring -> option Decoded.
Variable canParse : jsstring -> bool.
Variable insertEventIntoDescendingList :
  list NostrEvent -> NostrEvent -> list NostrEvent.

Local Abbreviation fetch :=
  (fetchEvents nip19_decode canParse insertEventIntoDescendingList).
Local Abbreviation outcome :=
  (fetchOutcome nip19_decode canParse insertEventIntoDescendingList).
Local Abbreviation merge := (mergeStep insertEventIntoDescendingList).

Lemma finishFetch_fields (env : Env) (st : State) (t : list Effect) :
  traceOf (finishFetch env st t) = FetcherInit :: t ++ [FetcherShutdown]
  /\ signals (finalState (finishFetch env st t)) = signals st
  /\ resultOf (finishFetch env st t) = endingResult (shutdownOutcome env).
Proof. unfold finishFetch. destruct (shutdownOutcome env); repeat split. Qed.

Lemma finishFetch_sim (env : Env) (st st' : State) (t t' : list Effect) :
  page st = page st' -> map eraseSignal t = map eraseSignal t' ->
  page (finalState (finishFetch env st t))
  = page (finalState (finishFetch env st' t'))
  /\ resultOf (finishFetch env st t) = resultOf (finishFetch env st' t')
  /\ map eraseSignal (traceOf (finishFetch env st t))
     = map eraseSignal (traceOf (finishFetch env st' t')).
Proof.
  intros Hp Ht. unfold finishFetch.
  destruct (shutdownOutcome env); unfold finalState, resultOf, traceOf;
    cbn [fst snd]; (split; [|split; [reflexivity|]]).
  - exact Hp.
  - cbn [map]. rewrite !map_app, Ht. reflexivity.
  - apply page_inv in Hp as (H1 & H2 & H3 & H4 & H5 & H6 & H7 & H8).
    unfold page, set_loading. simpl. congruence.
  - cbn [map]. rewrite !map_app, Ht. reflexivity.
Qed.

Lemma caught_page (e : Exn) (st st' : State) :
  page st = page st' -> page (caught e st) = page (caught e st').
Proof.
  intros Hp. apply page_inv in Hp as (H1 & H2 & H3 & H4 & H5 & H6 & H7 & H8).
  unfold page, caught, set_error. simpl. congruence.
Qed.

Lemma startFetch_page (st st' : State) :
  page st = page st' -> page (startFetch st) = page (startFetch st').
Proof.
  intros Hp. apply page_inv in Hp as (H1 & H2 & H3 & H4 & H5 & H6 & H7 & H8).
  unfold page, startFetch. simpl. congruence.
Qed.

(** Two fetches from states with the same page variables differ in the
    identity of the token they hand to the transport and in nothing else. *)
Lemma fetchOutcome_sim (env : Env) (st st' : State) :
  wfTokens st -> wfTokens st' ->
  page st = page st' ->
  page (finalState (outcome env st)) = page (finalState (outcome env st'))
  /\ resultOf (outcome env st) = resultOf (outcome env st')
  /\ map eraseSignal (traceOf (outcome env st))
     = map eraseSignal (traceOf (outcome env st')).
Proof.
  intros Hwf Hwf' Hp. unfold fetchOutcome.
  pose proof (startFetch_page _ _ Hp) as H0.
  apply page_inv in Hp as (H1 & _). rewrite <- H1.
  destruct (normalizePubkey nip19_decode (publicKey st)) as [pk|e].
  - cbv zeta.
    pose proof (runLoop_page discoveryStep discoveryStep_page
                  (arrivals (transport env metadataRelays [pk] [0; 10002]%Z))
                  _ _ H0) as Hs1.
    pose proof (runLoop_wf discoveryStep discoveryStep_tokens
                  (arrivals (transport env metadataRelays [pk] [0; 10002]%Z))
                  (startFetch st) Hwf) as Hf.
    pose proof (runLoop_wf discoveryStep discoveryStep_tokens
                  (arrivals (transport env metadataRelays [pk] [0; 10002]%Z))
                  (startFetch st') Hwf') as Hf'.
    destruct (ending (transport env metadataRelays [pk] [0; 10002]%Z)) as [e|].
    + apply finishFetch_sim; [now apply caught_page | reflexivity].
    + pose proof (page_inv _ _ Hs1) as (_ & _ & _ & Hr & _). rewrite <- Hr.
      destruct (extractWriteRelays canParse _) as [wr|e].
      * pose proof (runLoop_page merge
                      (mergeStep_page insertEventIntoDescendingList)
                      (arrivals (transport env wr [pk] [1]%Z)) _ _ Hs1) as Hs2.
        unfold aborted. unfold wfTokens in Hf, Hf'. rewrite Hf, Hf'.
        destruct (ending (transport env wr [pk] [1]%Z)) as [e|];
          apply finishFetch_sim; try reflexivity;
          [now apply caught_page | exact Hs2].
      * apply finishFetch_sim; [now apply caught_page | reflexivity].
  - apply finishFetch_sim; [now apply caught_page | reflexivity].
Qed.

(** The only token a fetch hands over is the controller that is current
    when the discovery loop has ended, and the state the fetch ends in has
    the controllers the merge loop left. *)
Lemma fetchOutcome_signal (env : Env) (st : State)
    (relays authors : list jsstring) (kinds : list Z)
    (tok : nat) (flag : option bool) :
  In (AllEventsIterator relays authors kinds (Some (tok, flag)))
     (traceOf (outcome env st)) ->
  exists pk,
    let s1 := runLoop discoveryStep
                (arrivals (transport env metadataRelays [pk] [0; 10002]%Z))
                (startFetch st) in
    authors = [pk] /\ kinds = [1%Z]
    /\ tok = controller s1 /\ flag = aborted s1 (controller s1)
    /\ signals (finalState (outcome env st))
       = signals (runLoop merge (arrivals (transport env relays authors kinds)) s1).
Proof.
  unfold fetchOutcome.
  destruct (normalizePubkey nip19_decode (publicKey st)) as [pk|e];
    cbv zeta;
    [destruct (ending (transport env metadataRelays [pk] [0; 10002]%Z)) as [e|];
     [|destruct (extractWriteRelays canParse _) as [wr|e];
       [destruct (ending (transport env wr [pk] [1]%Z)) as [e|]|]]|];
    match goal with
    | |- context [finishFetch env ?s ?t] =>
        destruct (finishFetch_fields env s t) as (-> & -> & _)
    end;
    intros H; cbn [In app] in H;
    repeat match goal with
           | H : _ \/ _ |- _ => destruct H as [H|H]
           end;
    try discriminate; try contradiction;
    injection H as <- <- <- <- <-; exists pk; repeat split.
Qed.

Lemma finishFetch_relayList (env : Env) (st : State) (t : list Effect) :
  relayListEvent (finalState (finishFetch env st t)) = relayListEvent st.
Proof. unfold finishFetch. destruct (shutdownOutcome env); reflexivity. Qed.

Lemma runLoop_merge_relayList (arr : list Arrival) (st : State) :
  relayListEvent (runLoop merge arr st) = relayListEvent st.
Proof.
  revert st. induction arr as [|a arr IH]; intros st; cbn [runLoop];
    [reflexivity|].
  destruct a as [event|]; rewrite IH; reflexivity.
Qed.

(** A fetch whose identity is accepted, whose discovery loop ends without
    an error and whose relay list is well formed opens the content query,
    and opens it with the controller that is current at that moment. *)
Lemma fetchOutcome_content_query (env : Env) (st : State)
    (pk : jsstring) (wr : list jsstring) :
  normalizePubkey nip19_decode (publicKey st) = Ok pk ->
  ending (transport env metadataRelays [pk] [0; 10002]%Z) = None ->
  extractWriteRelays canParse (relayListEvent (finalState (outcome env st)))
  = Ok wr ->
  let s1 := runLoop discoveryStep
              (arrivals (transport env metadataRelays [pk] [0; 10002]%Z))
              (startFetch st) in
  In (AllEventsIterator wr [pk] [1]%Z
        (Some (controller s1, aborted s1 (controller s1))))
     (traceOf (outcome env st)).
Proof.
  intros Hn He. unfold fetchOutcome. rewrite Hn. cbv zeta. rewrite He.
  destruct (extractWriteRelays canParse
              (relayListEvent
                 (runLoop discoveryStep
                    (arrivals (transport env metadataRelays [pk] [0; 10002]%Z))
                    (startFetch st)))) as [wr'|e] eqn:Hx.
  - destruct (ending (transport env wr' [pk] [1]%Z)) as [e|];
      rewrite finishFetch_relayList;
      cbn [caught set_error relayListEvent];
      rewrite runLoop_merge_relayList, Hx; intros [= <-];
      rewrite (proj1 (finishFetch_fields env _ _));
      cbn [In app]; auto.
  - rewrite finishFetch_relayList. cbn [caught set_error relayListEvent].
    rewrite Hx. discriminate.
Qed.

End FetchTokens.

(** C7: [abort()] signals the controller that is current, which is the
    one whose signal a running fetch was given, and replaces it with a
    controller that did not exist before and is not signalled.  A fetch
    whose identity is accepted, whose discovery loop ends without an error
    and whose relay list is well formed opens its content query with a
    token, and the token is the controller that is current at that moment
    and is not signalled: for a fetch started after [abort()] it is the
    fresh controller, unless the button is clicked again before the
    content query opens.  A click while the content loop is suspended
    signals the token that loop was opened with.  No query of a fetch
    carries a token that is signalled, and an [abort()] before a fetch
    changes nothing of what the fetch does except the identity of the
    token. *)
Theorem abort_installs_fresh_token
    (decode : jsstring -> option Decoded) (canParse : jsstring -> bool)
    (insert : list NostrEvent -> NostrEvent -> list NostrEvent)
    (env : Env) (st : State) :
  wfTokens st ->
  let fetchFrom := fetchEvents decode canParse insert env in
  let opensContentQuery := fun s =>
    forall pk wr,
      truthy (trim (publicKey s)) = true ->
      normalizePubkey decode (publicKey s) = Ok pk ->
      ending (transport env metadataRelays [pk] [0; 10002]%Z) = None ->
      extractWriteRelays canParse (relayListEvent (finalState (fetchFrom s)))
      = Ok wr ->
      exists tok,
        In (AllEventsIterator wr [pk] [1]%Z (Some (tok, Some false)))
           (traceOf (fetchFrom s))
        /\ aborted s tok <> Some true
        /\ controller s <= tok
        /\ (~ In ClickAbort
              (arrivals (transport env metadataRelays [pk] [0; 10002]%Z)) ->
            tok = controller s)
        /\ (In ClickAbort (arrivals (transport env wr [pk] [1]%Z)) ->
            aborted (finalState (fetchFrom s)) tok = Some true) in
  aborted (abort st) (controller st) = Some true
  /\ aborted st (controller (abort st)) = None
  /\ aborted (abort st) (controller (abort st)) = Some false
  /\ (forall t, t <> controller st -> t < length (signals st) ->
        aborted (abort st) t = aborted st t)
  /\ page (abort st) = page st
  /\ opensContentQuery st
  /\ opensContentQuery (abort st)
  /\ (forall relays authors kinds tok flag,
        In (AllEventsIterator relays authors kinds (Some (tok, flag)))
           (traceOf (fetchFrom (abort st))) ->
        flag = Some false
        /\ controller (abort st) <= tok
        /\ (~ In ClickAbort
              (arrivals (transport env metadataRelays authors [0; 10002]%Z)) ->
            tok = controller (abort st)))
  /\ (forall relays authors kinds tok flag,
        In (AllEventsIterator relays authors kinds (Some (tok, flag)))
           (traceOf (fetchFrom st)) ->
        flag = Some false
        /\ (In ClickAbort (arrivals (transport env relays authors kinds)) ->
            aborted (finalState (fetchFrom st)) tok = Some true))
  /\ page (finalState (fetchFrom (abort st))) = page (finalState (fetchFrom st))
  /\ resultOf (fetchFrom (abort st)) = resultOf (fetchFrom st)
  /\ map eraseSignal (traceOf (fetchFrom (abort st)))
     = map eraseSignal (traceOf (fetchFrom st)).
Proof.
  intros Hwf. cbv zeta.
  assert (Hflag : forall s relays authors kinds tok flag,
    wfTokens s ->
    In (AllEventsIterator relays authors kinds (Some (tok, flag)))
       (traceOf (fetchEvents decode canParse insert env s)) ->
    flag = Some false
    /\ controller s <= tok
    /\ (~ In ClickAbort
          (arrivals (transport env metadataRelays authors [0; 10002]%Z)) ->
        tok = controller s)
    /\ (In ClickAbort (arrivals (transport env relays authors kinds)) ->
        aborted (finalState (fetchEvents decode canParse insert env s)) tok
        = Some true)).
  { intros s relays authors kinds tok flag Hs Hin.
    destruct (truthy (trim (publicKey s))) eqn:Hk.
    - rewrite fetchEvents_outcome in * by exact Hk.
      apply fetchOutcome_signal in Hin as (pk & -> & -> & -> & -> & Hsig).
      assert (Hs0 : wfTokens (startFetch s)) by exact Hs.
      pose proof (runLoop_wf discoveryStep discoveryStep_tokens
        (arrivals (transport env metadataRelays [pk] [0; 10002]%Z)) _ Hs0) as Hs1.
      split; [exact Hs1|]. split; [|split].
      + exact (runLoop_controller_le discoveryStep discoveryStep_tokens _ _ Hs0).
      + intros Hn.
        exact (runLoop_no_click discoveryStep discoveryStep_tokens _
                 (startFetch s) Hn).
      + intros Hc. unfold aborted. rewrite Hsig.
        exact (runLoop_click (mergeStep insert) (mergeStep_tokens insert)
                 _ _ Hs1 Hc).
    - rewrite fetchEvents_blank in Hin by exact Hk. destruct Hin. }
  assert (Hopen : forall s pk wr,
    wfTokens s ->
    truthy (trim (publicKey s)) = true ->
    normalizePubkey decode (publicKey s) = Ok pk ->
    ending (transport env metadataRelays [pk] [0; 10002]%Z) = None ->
    extractWriteRelays canParse
      (relayListEvent (finalState (fetchEvents decode canParse insert env s)))
    = Ok wr ->
    exists tok,
      In (AllEventsIterator wr [pk] [1]%Z (Some (tok, Some false)))
         (traceOf (fetchEvents decode canParse insert env s))
      /\ aborted s tok <> Some true
      /\ controller s <= tok
      /\ (~ In ClickAbort
            (arrivals (transport env metadataRelays [pk] [0; 10002]%Z)) ->
          tok = controller s)
      /\ (In ClickAbort (arrivals (transport env wr [pk] [1]%Z)) ->
          aborted (finalState (fetchEvents decode canParse insert env s)) tok
          = Some true)).
  { intros s pk wr Hs Hk Hn He Hx.
    assert (Hin : In (AllEventsIterator wr [pk] [1]%Z
                        (Some (controller
                                 (runLoop discoveryStep
                                    (arrivals (transport env metadataRelays
                                                 [pk] [0; 10002]%Z))
                                    (startFetch s)),
                               Some false)))
                     (traceOf (fetchEvents decode canParse insert env s))).
    { rewrite fetchEvents_outcome in * by exact Hk.
      pose proof (fetchOutcome_content_query decode canParse insert env s
                    pk wr Hn He Hx) as Hq. cbv zeta in Hq.
      assert (Hs0 : wfTokens (startFetch s)) by exact Hs.
      pose proof (runLoop_wf discoveryStep discoveryStep_tokens
        (arrivals (transport env metadataRelays [pk] [0; 10002]%Z)) _ Hs0)
        as Hs1.
      unfold aborted in Hq. unfold wfTokens in Hs1. now rewrite Hs1 in Hq. }
    eexists. split; [exact Hin|].
    destruct (Hflag _ _ _ _ _ _ Hs Hin) as (_ & H2 & H3 & H4).
    split; [|auto].
    assert (Hs0 : wfTokens (startFetch s)) by exact Hs.
    pose proof (runLoop_wf discoveryStep discoveryStep_tokens
      (arrivals (transport env metadataRelays [pk] [0; 10002]%Z)) _ Hs0) as Hs1.
    intros Hab.
    pose proof (runLoop_keeps_signalled discoveryStep discoveryStep_tokens
      (arrivals (transport env metadataRelays [pk] [0; 10002]%Z))
      (startFetch s) _ Hab) as Hkept.
    unfold wfTokens in Hs1. congruence. }
  split; [now apply abort_signals_current|].
  split; [apply abort_fresh|]. split; [apply abort_fresh|].
  split; [intros t; apply abort_other|].
  split; [apply abort_page|].
  split; [intros pk wr; now apply Hopen|].
  split; [intros pk wr; apply Hopen; apply abort_wf|].
  split.
  { intros relays authors kinds tok flag Hin.
    destruct (Hflag _ _ _ _ _ _ (abort_wf st) Hin) as (H1 & H2 & H3 & _). auto. }
  split.
  { intros relays authors kinds tok flag Hin.
    destruct (Hflag _ _ _ _ _ _ Hwf Hin) as (H1 & _ & _ & H4). auto. }
  destruct (truthy (trim (publicKey st))) eqn:Hk.
  - rewrite !fetchEvents_outcome by exact Hk.
    apply fetchOutcome_sim; [apply abort_wf | exact Hwf | apply abort_page].
  - rewrite !fetchEvents_blank by exact Hk. repeat split.
Qed.

(** The page with the key [lowerKey] in the input: the button is clicked
    once, and the fetch started afterwards opens its content query on the
    default relays with the controller the click has installed, which the
    click during the content loop then signals. *)
Lemma abort_installs_fresh_token_witness :
  wfTokens (set_publicKey lowerKey initialState)
  /\ aborted (abort (set_publicKey lowerKey initialState))
       (controller (set_publicKey lowerKey initialState)) = Some true
  /\ exists tok,
       tok = controller (abort (set_publicKey lowerKey initialState))
       /\ In (AllEventsIterator defaultRelays [lowerKey] [1]%Z
                (Some (tok, Some false)))
            (traceOf (fetchEvents noDecode (fun _ => true) insertIntoFeed
                        clickEnv (abort (set_publicKey lowerKey initialState))))
       /\ aborted
            (finalState (fetchEvents noDecode (fun _ => true) insertIntoFeed
                           clickEnv
                           (abort (set_publicKey lowerKey initialState))))
            tok = Some true.
Proof.
  pose proof (abort_installs_fresh_token noDecode (fun _ => true)
                insertIntoFeed clickEnv (set_publicKey lowerKey initialState)
                eq_refl) as (H1 & _ & _ & _ & _ & _ & Hopen & _).
  split; [reflexivity|]. split; [exact H1|].
  destruct (Hopen lowerKey defaultRelays eq_refl eq_refl eq_refl eq_refl)
    as (tok & Hin & _ & _ & Hsame & Hclick).
  exists tok. split; [apply Hsame; intros []|]. split; [exact Hin|].
  apply Hclick. right. now left.
Defined.

(** ** The merge loop and the result feed *)

Lemma deliveredDocs_app (a b : list Arrival) :
  deliveredDocs (a ++ b) = deliveredDocs a ++ deliveredDocs b.
Proof.
  induction a as [|x a IH]; simpl; [reflexivity|].
  destruct x; simpl; now rewrite IH.
Qed.

Lemma runLoop_merge_events
    (insert : list NostrEvent -> NostrEvent -> list NostrEvent)
    (arr : list Arrival) (st : State) :
  events (runLoop (mergeStep insert) arr st)
  = fold_left insert (deliveredDocs arr) (events st).
Proof.
  revert st. induction arr as [|a arr IH]; intros st; simpl; [reflexivity|].
  destruct a; rewrite IH; reflexivity.
Qed.

Lemma firstIndex_le (i : jsstring) (docs : list NostrEvent) :
  firstIndex i docs <= length docs.
Proof.
  induction docs as [|d docs IH]; simpl; [lia|].
  destruct (jsEqb (id d) i); lia.
Qed.

Lemma firstIndex_lt (i : jsstring) (docs : list NostrEvent) :
  In i (map id docs) <-> firstIndex i docs < length docs.
Proof.
  induction docs as [|d docs IH]; simpl; [split; [tauto | lia]|].
  destruct (jsEqb (id d) i) eqn:E.
  - apply jsEqb_true in E. split; [lia | auto].
  - apply jsEqb_false in E. rewrite IH. split; [intros [?|?]; [contradiction | lia] | right; lia].
Qed.

Lemma firstIndex_app_in (i : jsstring) (docs more : list NostrEvent) :
  In i (map id docs) -> firstIndex i (docs ++ more) = firstIndex i docs.
Proof.
  induction docs as [|d docs IH]; simpl; [tauto|].
  destruct (jsEqb (id d) i) eqn:E; [reflexivity|].
  apply jsEqb_false in E. intros [?|H]; [contradiction|]. now rewrite IH.
Qed.

Lemma firstIndex_app_fresh (d : NostrEvent) (docs : list NostrEvent) :
  ~ In (id d) (map id docs) -> firstIndex (id d) (docs ++ [d]) = length docs.
Proof.
  induction docs as [|x docs IH]; simpl.
  - intros _. unfold jsEqb. now rewrite bool_decide_eq_true_2.
  - intros H. destruct (jsEqb (id x) (id d)) eqn:E.
    + apply jsEqb_true in E. tauto.
    + rewrite IH by tauto. reflexivity.
Qed.

Lemma existsb_id (feed : list NostrEvent) (event : NostrEvent) :
  existsb (fun b => jsEqb (id b) (id event)) feed = true
  <-> In (id event) (map id feed).
Proof.
  rewrite existsb_exists, in_map_iff. split.
  - intros (b & Hb & E). apply jsEqb_true in E. eauto.
  - intros (b & E & Hb). exists b. split; [exact Hb | now apply jsEqb_true].
Qed.

Lemma insertDescending_in (feed : list NostrEvent) (event x : NostrEvent) :
  In x (insertDescending feed event) <-> x = event \/ In x feed.
Proof.
  induction feed as [|b feed IH]; simpl.
  - split; intros [H|H]; auto.
  - destruct (created_at b <? created_at event)%Z; simpl.
    + split; intros [H|H]; auto.
    + rewrite IH. split; intros H; tauto.
Qed.

Lemma insertDescending_ids (feed : list NostrEvent) (event : NostrEvent) :
  Permutation (map id (insertDescending feed event)) (id event :: map id feed).
Proof.
  induction feed as [|b feed IH]; simpl; [reflexivity|].
  destruct (created_at b <? created_at event)%Z; simpl; [reflexivity|].
  rewrite IH. apply perm_swap.
Qed.

(** Inserting a document whose identity is new, and which therefore has
    the greatest first-delivery index, keeps the feed in order. *)
Lemma insertDescending_sorted (R : NostrEvent -> NostrEvent -> Prop)
    (feed : list NostrEvent) (event : NostrEvent) :
  (forall a, In a feed -> (created_at event <= created_at a)%Z -> R a event) ->
  (forall a, In a feed -> (created_at a < created_at event)%Z -> R event a) ->
  (forall a b, R a b -> (created_at b <= created_at a)%Z) ->
  StronglySorted R feed ->
  StronglySorted R (insertDescending feed event).
Proof.
  intros Hge Hlt Hts Hs. induction Hs as [|b feed Hs IH Hb]; simpl.
  - repeat constructor.
  - destruct (Z.ltb_spec (created_at b) (created_at event)) as [Hc|Hc].
    + constructor; [now constructor|].
      apply List.Forall_forall. intros a [<-|Ha].
      * apply Hlt; [now left | exact Hc].
      * apply Hlt; [now right|].
        pose proof (proj1 (List.Forall_forall _ _) Hb a Ha) as Hba.
        specialize (Hts _ _ Hba). lia.
    + constructor.
      * apply IH; intros a Ha; [apply Hge | apply Hlt]; now right.
      * apply List.Forall_forall. intros a Ha.
        apply insertDescending_in in Ha as [->|Ha].
        -- apply Hge; [now left | exact Hc].
        -- exact (proj1 (List.Forall_forall _ _) Hb a Ha).
Qed.

Lemma StronglySorted_change (R R' : NostrEvent -> NostrEvent -> Prop)
    (l : list NostrEvent) :
  (forall a b, In a l -> In b l -> R a b -> R' a b) ->
  StronglySorted R l -> StronglySorted R' l.
Proof.
  intros H Hs. induction Hs as [|a l Hs IH Ha]; constructor.
  - apply IH. intros x y Hx Hy. apply H; now right.
  - apply List.Forall_forall. intros b Hb. apply H; [now left | now right|].
    exact (proj1 (List.Forall_forall _ _) Ha b Hb).
Qed.

Lemma feed_member_delivered (docs feed : list NostrEvent) (x : NostrEvent) :
  FeedInvariant docs feed -> In x feed -> In (id x) (map id docs).
Proof.
  intros (_ & _ & H3 & _) Hx. apply in_map, list_elem_of_In.
  eapply list_elem_of_lookup_2, H3, Hx.
Qed.

Lemma feed_step (docs feed : list NostrEvent) (d : NostrEvent) :
  FeedInvariant docs feed ->
  FeedInvariant (docs ++ [d]) (insertEventIntoDescendingList_spec feed d).
Proof.
  intros Hinv. pose proof Hinv as (H1 & H2 & H3 & H4).
  assert (Hrank : forall x, In x feed ->
            firstIndex (id x) (docs ++ [d]) = firstIndex (id x) docs
            /\ firstIndex (id x) docs < length docs).
  { intros x Hx. pose proof (feed_member_delivered _ _ _ Hinv Hx) as Hd.
    split; [now apply firstIndex_app_in | now apply firstIndex_lt]. }
  assert (Hkeep : forall x, In x feed ->
            (docs ++ [d]) !! firstIndex (id x) (docs ++ [d]) = Some x).
  { intros x Hx. destruct (Hrank x Hx) as [-> Hlt].
    rewrite lookup_app_l by exact Hlt. now apply H3. }
  assert (Hord : StronglySorted (feedBefore (docs ++ [d])) feed).
  { apply (StronglySorted_change (feedBefore docs)); [|exact H1].
    intros a b Ha Hb [Hab|[Hab Hr]]; [now left | right].
    split; [exact Hab|].
    destruct (Hrank a Ha) as [-> _]. destruct (Hrank b Hb) as [-> _]. exact Hr. }
  unfold insertEventIntoDescendingList_spec.
  destruct (existsb (fun b => jsEqb (id b) (id d)) feed) eqn:E.
  - apply existsb_id in E. repeat split; auto.
    intros x Hx. apply in_app_or in Hx as [Hx|[<-|[]]]; auto.
  - assert (Hnew : ~ In (id d) (map id feed)).
    { intros Hc. apply existsb_id in Hc. congruence. }
    assert (Hfresh : ~ In (id d) (map id docs)).
    { intros Hc. apply in_map_iff in Hc as (x & Ex & Hx).
      apply Hnew. rewrite <- Ex. now apply H4. }
    repeat split.
    + apply insertDescending_sorted; [| | |exact Hord].
      * intros a Ha Hle.
        destruct (Z.eq_dec (created_at a) (created_at d)) as [Heq|Hne].
        -- right. split; [exact Heq|].
           destruct (Hrank a Ha) as [-> Hlt].
           now rewrite firstIndex_app_fresh.
        -- left. lia.
      * intros a _ Hlt. now left.
      * intros a b [Hab|[Hab _]]; lia.
    + eapply Permutation_NoDup;
        [symmetry; apply insertDescending_ids | now constructor].
    + intros x Hx. apply insertDescending_in in Hx as [->|Hx]; [|now apply Hkeep].
      rewrite firstIndex_app_fresh by exact Hfresh.
      now apply list_lookup_middle.
    + intros x Hx.
      eapply Permutation_in; [symmetry; apply insertDescending_ids|].
      apply in_app_or in Hx as [Hx|[<-|[]]]; [right; now apply H4 | now left].
Qed.

Lemma fold_feed_invariant (docs : list NostrEvent) :
  FeedInvariant docs (fold_left insertEventIntoDescendingList_spec docs []).
Proof.
  induction docs as [|d docs IH] using rev_ind.
  - repeat split; try constructor; intros x [].
  - rewrite fold_left_app. cbn [fold_left]. now apply feed_step.
Qed.

Lemma fold_feed_duplicate (docs : list NostrEvent) (d : NostrEvent) :
  In (id d) (map id docs) ->
  fold_left insertEventIntoDescendingList_spec (docs ++ [d]) []
  = fold_left insertEventIntoDescendingList_spec docs [].
Proof.
  intros Hd. rewrite fold_left_app. cbn [fold_left].
  unfold insertEventIntoDescendingList_spec at 1.
  destruct (fold_feed_invariant docs) as (_ & _ & _ & H4).
  apply in_map_iff in Hd as (x & Ex & Hx). apply H4 in Hx. rewrite Ex in Hx.
  apply existsb_id in Hx. now rewrite Hx.
Qed.

(** The feed the merge loop would hold with the insertion that section
    4.3 of the specification describes in place of the library's.  Two
    documents of the feed stand in the order of their timestamps, the
    later first, and in the order of their first delivery when the
    timestamps are equal; no identity occurs twice; the feed holds exactly
    the first delivery of every identity delivered; delivering an identity
    again leaves the feed as it is, and a document delivered twice is in
    the feed once.  The function of the library, which is the one line 146
    calls, differs on equal timestamps; its feed is taken up below. *)
Theorem merge_feed_invariant (st : State) (seen : list Arrival)
    (ending : option Exn) :
  let feedAfter := fun arr =>
    events (finalState
              (forAwait arr ending
                 (fun event =>
                    modify (mergeStep insertEventIntoDescendingList_spec event))
                 (startFetch st))) in
  let docs := deliveredDocs seen in
  StronglySorted (feedBefore docs) (feedAfter seen)
  /\ StronglySorted (fun a b => (created_at b <= created_at a)%Z) (feedAfter seen)
  /\ List.NoDup (map id (feedAfter seen))
  /\ (forall x, In x (feedAfter seen) ->
        docs !! firstIndex (id x) docs = Some x)
  /\ (forall x, In x docs -> In (id x) (map id (feedAfter seen)))
  /\ (forall d, In (id d) (map id docs) ->
        feedAfter (seen ++ [Deliver d]) = feedAfter seen)
  /\ (forall d, feedAfter [Deliver d; Deliver d] = [d]).
Proof.
  cbv beta zeta.
  assert (Hfeed : forall arr,
    events (finalState
              (forAwait arr ending
                 (fun event =>
                    modify (mergeStep insertEventIntoDescendingList_spec event))
                 (startFetch st)))
    = fold_left insertEventIntoDescendingList_spec (deliveredDocs arr) []).
  { intros arr. rewrite forAwait_modify. unfold finalState. cbn [fst].
    now rewrite runLoop_merge_events. }
  rewrite !Hfeed.
  destruct (fold_feed_invariant (deliveredDocs seen)) as (H1 & H2 & H3 & H4).
  split; [exact H1|]. split.
  { apply (StronglySorted_change (feedBefore (deliveredDocs seen))); [|exact H1].
    intros a b _ _ [Hab|[Hab _]]; lia. }
  split; [exact H2|]. split; [exact H3|]. split; [exact H4|]. split.
  - intros d Hd. rewrite !Hfeed, deliveredDocs_app. cbn [deliveredDocs].
    now apply fold_feed_duplicate.
  - intros d. rewrite Hfeed. cbn [deliveredDocs fold_left].
    unfold insertEventIntoDescendingList_spec. cbn [existsb insertDescending].
    unfold jsEqb. now rewrite bool_decide_eq_true_2.
Qed.

(** Two relays deliver [postA] and [postB], which have the same timestamp,
    then the later [postC], then [postA] and [postB] once more. *)
Example merge_feed_ties :
  fold_left insertEventIntoDescendingList_spec
    [postA; postB; postC; postB; postA] []
  = [postC; postA; postB].
Proof. reflexivity. Qed.

(** ** The merge loop with the insertion of the library *)

Lemma searchLoop_returns (arr : list NostrEvent) (compare : NostrEvent -> Z)
    (fuel : nat) (start end_ : Z) :
  (0 <= start)%Z -> (end_ < Z.of_nat (length arr))%Z ->
  Z.to_nat (end_ - start + 1) <= fuel ->
  exists r, NostrTools.searchLoop fuel arr compare start end_ = Some r.
Proof.
  revert start end_. induction fuel as [|fuel IH]; intros start end_ H0 H1 Hf;
    cbn [NostrTools.searchLoop]; destruct (Z.leb_spec start end_) as [Hle|Hgt];
    try (eexists; reflexivity); [lia|].
  cbv zeta.
  assert (Hmid : (start <= (start + end_) / 2 <= end_)%Z).
  { split; [apply Z.div_le_lower_bound | apply Z.div_le_upper_bound]; lia. }
  destruct (lookup_lt_is_Some_2 arr (Z.to_nat ((start + end_) / 2)))
    as [b ->]; [lia|].
  destruct (compare b =? 0)%Z; [eexists; reflexivity|].
  destruct (compare b <? 0)%Z; apply IH; lia.
Qed.

Lemma binarySearch_returns (arr : list NostrEvent) (compare : NostrEvent -> Z) :
  exists r, NostrTools.binarySearch arr compare = Some r.
Proof. apply searchLoop_returns; lia. Qed.

Lemma compareWith_zero (event b : NostrEvent) :
  (NostrTools.compareWith event b =? 0)%Z = jsEqb (id event) (id b).
Proof.
  unfold NostrTools.compareWith. destruct (jsEqb (id event) (id b)); [reflexivity|].
  destruct (Z.eqb_spec (created_at event) (created_at b)); [reflexivity|].
  apply Z.eqb_neq. lia.
Qed.

Lemma compareWith_negative (event b : NostrEvent) :
  jsEqb (id event) (id b) = false ->
  (NostrTools.compareWith event b <? 0)%Z = (created_at b <=? created_at event)%Z.
Proof.
  intros E. unfold NostrTools.compareWith. rewrite E.
  destruct (Z.eqb_spec (created_at event) (created_at b)) as [Ht|Ht].
  - rewrite Ht. symmetry. apply Z.leb_le. lia.
  - destruct (Z.leb_spec (created_at b) (created_at event));
      [apply Z.ltb_lt | apply Z.ltb_ge]; lia.
Qed.

Lemma StronglySorted_lookup (R : NostrEvent -> NostrEvent -> Prop)
    (l : list NostrEvent) (i j : nat) (x y : NostrEvent) :
  StronglySorted R l -> i < j -> l !! i = Some x -> l !! j = Some y -> R x y.
Proof.
  intros Hs. revert i j. induction Hs as [|a l Hs IH Ha]; intros i j Hij Hi Hj.
  - discriminate.
  - destruct j as [|j]; [lia|]. destruct i as [|i].
    + injection Hi as <-. cbn in Hj.
      apply (proj1 (List.Forall_forall _ _) Ha).
      apply list_elem_of_In. eapply list_elem_of_lookup_2. exact Hj.
    + apply (IH i j); [lia | exact Hi | exact Hj].
Qed.

Lemma Descending_lookup (l : list NostrEvent) (i j : nat) (x y : NostrEvent) :
  Descending l -> i <= j -> l !! i = Some x -> l !! j = Some y ->
  (created_at y <= created_at x)%Z.
Proof.
  intros Hs Hij Hi Hj. destruct (Nat.eq_dec i j) as [->|Hne].
  - rewrite Hi in Hj. injection Hj as ->. lia.
  - apply (StronglySorted_lookup _ l i j x y Hs); [lia | exact Hi | exact Hj].
Qed.

(** The bounds of the search on a feed in descending order: the documents
    before [start] are later than [event], the documents after [end_] are
    not. *)
Local Abbreviation Bounds arr event start end_ :=
  ((forall i x, (Z.of_nat i < start)%Z -> arr !! i = Some x ->
                (created_at event < created_at x)%Z)
   /\ (forall i x, (end_ < Z.of_nat i)%Z -> arr !! i = Some x ->
                   (created_at x <= created_at event)%Z)).

Lemma searchLoop_sorted (arr : list NostrEvent) (event : NostrEvent)
    (fuel : nat) (start end_ idx : Z) (found : bool) :
  Descending arr ->
  (0 <= start)%Z -> (start <= end_ + 1)%Z -> (end_ < Z.of_nat (length arr))%Z ->
  Bounds arr event start end_ ->
  NostrTools.searchLoop fuel arr (NostrTools.compareWith event) start end_ = Some (idx, found) ->
  if found
  then exists b, arr !! Z.to_nat idx = Some b /\ id b = id event
  else (0 <= idx <= Z.of_nat (length arr))%Z /\ Bounds arr event idx (idx - 1).
Proof.
  intros Hs. revert start end_.
  induction fuel as [|fuel IH]; intros start end_ H0 H1 H2 Hb;
    cbn [NostrTools.searchLoop]; destruct (Z.leb_spec start end_) as [Hle|Hgt];
    try discriminate;
    try (intros [= <- <-]; split; [lia|];
         replace (start - 1)%Z with end_ by lia; exact Hb).
  cbv zeta.
  assert (Hmid : (start <= (start + end_) / 2 <= end_)%Z).
  { split; [apply Z.div_le_lower_bound | apply Z.div_le_upper_bound]; lia. }
  set (mid := ((start + end_) / 2)%Z) in *.
  destruct (arr !! Z.to_nat mid) as [b|] eqn:Eb; [|discriminate].
  rewrite compareWith_zero.
  destruct (jsEqb (id event) (id b)) eqn:E.
  - intros [= <- <-]. exists b. split; [exact Eb|].
    apply jsEqb_true in E. congruence.
  - rewrite (compareWith_negative _ _ E).
    destruct Hb as [Hb1 Hb2].
    destruct (Z.leb_spec (created_at b) (created_at event)) as [Hc|Hc].
    + apply IH; try lia. split; [exact Hb1|].
      intros i x Hi Hx.
      pose proof (Descending_lookup arr (Z.to_nat mid) i b x Hs
                    ltac:(lia) Eb Hx). lia.
    + apply IH; try lia. split; [|exact Hb2].
      intros i x Hi Hx.
      pose proof (Descending_lookup arr i (Z.to_nat mid) x b Hs
                    ltac:(lia) Hx Eb). lia.
Qed.

(** On a feed in which no two documents share a timestamp the search finds
    a document that is there. *)
Lemma searchLoop_finds (arr : list NostrEvent) (event : NostrEvent)
    (p : nat) (fuel : nat) (start end_ : Z) (r : Z * bool) :
  StronglySorted (fun a b => (created_at b < created_at a)%Z) arr ->
  arr !! p = Some event ->
  (start <= Z.of_nat p <= end_)%Z -> (0 <= start)%Z ->
  NostrTools.searchLoop fuel arr (NostrTools.compareWith event) start end_ = Some r ->
  snd r = true.
Proof.
  intros Hs Hp. revert start end_.
  induction fuel as [|fuel IH]; intros start end_ Hb H0;
    cbn [NostrTools.searchLoop]; destruct (Z.leb_spec start end_) as [Hle|Hgt];
    try discriminate; try lia.
  cbv zeta.
  assert (Hmid : (start <= (start + end_) / 2 <= end_)%Z).
  { split; [apply Z.div_le_lower_bound | apply Z.div_le_upper_bound]; lia. }
  set (mid := ((start + end_) / 2)%Z) in *.
  destruct (arr !! Z.to_nat mid) as [b|] eqn:Eb; [|discriminate].
  rewrite compareWith_zero.
  destruct (jsEqb (id event) (id b)) eqn:E; [now intros [= <-]|].
  rewrite (compareWith_negative _ _ E).
  assert (Hne : Z.to_nat mid <> p).
  { intros Heq. rewrite Heq, Hp in Eb. injection Eb as <-.
    apply jsEqb_false in E. congruence. }
  destruct (Z.leb_spec (created_at b) (created_at event)) as [Hc|Hc].
  - apply IH; [|lia].
    destruct (Nat.lt_ge_cases (Z.to_nat mid) p) as [Hlt|Hge]; [|lia].
    pose proof (StronglySorted_lookup _ arr _ _ b event Hs Hlt Eb Hp) as Ho.
    cbv beta in Ho. lia.
  - apply IH; [|lia].
    destruct (Nat.lt_ge_cases p (Z.to_nat mid)) as [Hlt|Hge]; [|lia].
    pose proof (StronglySorted_lookup _ arr _ _ event b Hs Hlt Hp Eb) as Ho.
    cbv beta in Ho. lia.
Qed.


Lemma StronglySorted_insert (R : NostrEvent -> NostrEvent -> Prop)
    (l1 l2 : list NostrEvent) (e : NostrEvent) :
  StronglySorted R (l1 ++ l2) ->
  Forall (fun x => R x e) l1 -> Forall (R e) l2 ->
  StronglySorted R (l1 ++ e :: l2).
Proof.
  intros Hs H1 H2. induction l1 as [|a l1 IH]; cbn [app] in *.
  - now constructor.
  - apply StronglySorted_inv in Hs as [Hs Ha].
    apply List.Forall_cons_iff in H1 as [Hae H1].
    constructor; [now apply IH|].
    apply List.Forall_app in Ha as [Ha1 Ha2].
    apply List.Forall_app. split; [exact Ha1 | now constructor].
Qed.

(** One insertion into a feed in descending order: the feed is kept when
    the search has found the identity, and otherwise the document goes
    between the documents that are later than it and the documents that
    are not, before every document with its own timestamp. *)
Lemma insertIntoFeed_cases (feed : list NostrEvent) (event : NostrEvent) :
  Descending feed ->
  (insertIntoFeed feed event = feed /\ In (id event) (map id feed))
  \/ exists l1 l2,
       feed = l1 ++ l2 /\ insertIntoFeed feed event = l1 ++ event :: l2
       /\ Forall (fun x => (created_at event < created_at x)%Z) l1
       /\ Forall (fun x => (created_at x <= created_at event)%Z) l2.
Proof.
  intros Hs. unfold insertIntoFeed, NostrTools.insertEventIntoDescendingList.
  destruct (binarySearch_returns feed (NostrTools.compareWith event)) as [[idx found] Hr].
  rewrite Hr. cbn [default].
  apply searchLoop_sorted in Hr; [|exact Hs|lia|lia|lia|].
  - destruct found.
    + left. destruct Hr as (b & Hb & Hid). split; [reflexivity|].
      rewrite <- Hid. apply in_map. apply list_elem_of_In.
      eapply list_elem_of_lookup_2. exact Hb.
    + right. destruct Hr as (Hidx & Hb1 & Hb2).
      exists (take (Z.to_nat idx) feed), (drop (Z.to_nat idx) feed).
      split; [symmetry; apply take_drop|]. split; [reflexivity|].
      split; apply List.Forall_forall; intros x Hx;
        apply list_elem_of_In, list_elem_of_lookup_1 in Hx as [i Hi].
      * apply lookup_take_Some in Hi as [Hi Hlt]. apply (Hb1 i x); [lia | exact Hi].
      * rewrite lookup_drop in Hi. apply (Hb2 _ x) in Hi; [exact Hi | lia].
  - split; intros i x Hi Hx; [lia|].
    apply lookup_lt_Some in Hx. lia.
Qed.

Lemma insertIntoFeed_descending (feed : list NostrEvent) (event : NostrEvent) :
  Descending feed -> Descending (insertIntoFeed feed event).
Proof.
  intros Hs.
  destruct (insertIntoFeed_cases feed event Hs)
    as [[-> _]|(l1 & l2 & Hf & -> & H1 & H2)]; [exact Hs|].
  rewrite Hf in Hs. apply StronglySorted_insert; [exact Hs| |exact H2].
  eapply List.Forall_impl; [|exact H1]. cbv beta. intros; lia.
Qed.

Lemma insertIntoFeed_in (feed : list NostrEvent) (event x : NostrEvent) :
  Descending feed ->
  (In x (insertIntoFeed feed event) -> x = event \/ In x feed)
  /\ (In x feed -> In x (insertIntoFeed feed event))
  /\ In (id event) (map id (insertIntoFeed feed event)).
Proof.
  intros Hs.
  destruct (insertIntoFeed_cases feed event Hs)
    as [[-> Hin]|(l1 & l2 & -> & -> & _)].
  - auto.
  - rewrite !in_app_iff, map_app, in_app_iff. cbn [In map].
    repeat split; [intros [?|[?|?]]; auto | tauto | auto].
Qed.

(** A document that is in a feed without equal timestamps is found. *)
Lemma insertIntoFeed_present (feed : list NostrEvent) (event : NostrEvent) :
  StronglySorted (fun a b => (created_at b < created_at a)%Z) feed ->
  In event feed -> insertIntoFeed feed event = feed.
Proof.
  intros Hs Hin. apply list_elem_of_In, list_elem_of_lookup_1 in Hin as [p Hp].
  unfold insertIntoFeed, NostrTools.insertEventIntoDescendingList.
  destruct (binarySearch_returns feed (NostrTools.compareWith event)) as [[idx found] Hr].
  rewrite Hr. cbn [default].
  pose proof (lookup_lt_Some _ _ _ Hp) as Hlt.
  apply (searchLoop_finds feed event p) in Hr; [|exact Hs|exact Hp|lia|lia].
  cbn [snd] in Hr. now rewrite Hr.
Qed.

(** The feed after the documents [docs] were merged into an empty feed. *)
Lemma fold_library_descending (docs : list NostrEvent) :
  let feed := fold_left insertIntoFeed docs [] in
  Descending feed
  /\ (forall x, In x feed -> In x docs)
  /\ (forall x, In x docs -> In (id x) (map id feed)).
Proof.
  cbv zeta. induction docs as [|d docs IH] using rev_ind.
  - repeat split; [constructor | intros x [] | intros x []].
  - destruct IH as (H1 & H2 & H3). rewrite fold_left_app. cbn [fold_left].
    split; [now apply insertIntoFeed_descending|]. split.
    + intros x Hx. apply insertIntoFeed_in in Hx as [->|Hx]; [| |exact H1];
        apply in_app_iff; [right; now left | left; now apply H2].
    + intros x Hx. apply in_app_iff in Hx as [Hx|[<-|[]]].
      * apply H3 in Hx. apply in_map_iff in Hx as (y & <- & Hy).
        apply in_map. now apply insertIntoFeed_in.
      * now apply insertIntoFeed_in.
Qed.

(** Where the identity tells the document and no two documents share a
    timestamp, the feed holds every identity once. *)
Lemma fold_library_distinct (docs : list NostrEvent) :
  (forall a b, In a docs -> In b docs -> id a = id b -> a = b) ->
  (forall a b, In a docs -> In b docs -> created_at a = created_at b -> a = b) ->
  let feed := fold_left insertIntoFeed docs [] in
  List.NoDup (map id feed)
  /\ StronglySorted (fun a b => (created_at b < created_at a)%Z) feed
  /\ (forall x, In x docs -> In x feed).
Proof.
  cbv zeta. induction docs as [|d docs IH] using rev_ind; intros Hid Hts.
  - repeat split; [constructor | constructor | intros x []].
  - destruct IH as (N1 & N2 & N3).
    { intros a b Ha Hb. apply Hid; apply in_app_iff; now left. }
    { intros a b Ha Hb. apply Hts; apply in_app_iff; now left. }
    destruct (fold_library_descending docs) as (D1 & D2 & D3).
    rewrite fold_left_app. cbn [fold_left].
    set (feed := fold_left insertIntoFeed docs []) in *.
    assert (Hd : In d (docs ++ [d])) by (apply in_app_iff; right; now left).
    assert (Hsub : forall x, In x feed -> In x (docs ++ [d])).
    { intros x Hx. apply in_app_iff. left. now apply D2. }
    destruct (decide (id d ∈ map id feed)) as [Hin|Hnew];
      rewrite list_elem_of_In in *.
    + apply in_map_iff in Hin as (x & Ex & Hx).
      assert (x = d) as -> by (apply Hid; auto).
      rewrite (insertIntoFeed_present feed d N2 Hx).
      split; [exact N1|]. split; [exact N2|].
      intros y Hy. apply in_app_iff in Hy as [Hy|[<-|[]]]; auto.
    + destruct (insertIntoFeed_cases feed d D1)
        as [[_ Hin]|(l1 & l2 & Hf & -> & H1 & H2)]; [contradiction|].
      assert (Hids : Permutation (map id (l1 ++ d :: l2)) (id d :: map id feed)).
      { rewrite Hf, !map_app. cbn [map]. symmetry. apply Permutation_middle. }
      split; [|split].
      * eapply Permutation_NoDup; [symmetry; exact Hids | now constructor].
      * rewrite Hf in N2. apply StronglySorted_insert; [exact N2|exact H1|].
        apply List.Forall_forall. intros x Hx.
        pose proof (proj1 (List.Forall_forall _ _) H2 x Hx) as Hle. cbv beta in Hle.
        assert (Hxf : In x feed) by (rewrite Hf; apply in_app_iff; now right).
        destruct (Z.eq_dec (created_at x) (created_at d)) as [Heq|Hne]; [|lia].
        exfalso. apply Hnew. rewrite <- (Hts x d (Hsub x Hxf) Hd Heq).
        now apply in_map.
      * intros y Hy. apply in_app_iff in Hy as [Hy|[<-|[]]].
        -- apply N3 in Hy. rewrite Hf in Hy. rewrite in_app_iff in *.
           cbn [In]. tauto.
        -- apply in_app_iff. right. now left.
Qed.





(** [postC] is later than [postA] and [postB] and goes first, whatever
    the feed holds of them. *)
Example merge_library_later :
  fold_left insertIntoFeed [postA; postB; postA; postC] []
  = [postC; postA; postB; postA]
  /\ fold_left insertIntoFeed [postC; postA] [] = [postC; postA].
Proof. split; reflexivity. Qed.

(** Two posts with different timestamps, one of them delivered twice:
    the identity tells the document and no timestamp is shared, and the
    feed holds no identity twice. *)
Example merge_library_distinct_ids :
  List.NoDup (map id (fold_left insertIntoFeed [postC; postA; postC] [])).
Proof.
  apply (fold_library_distinct [postC; postA; postC]);
    intros a b Ha Hb; cbn [In] in Ha, Hb;
    destruct Ha as [<-|[<-|[<-|[]]]]; destruct Hb as [<-|[<-|[<-|[]]]];
    intros H; try reflexivity; discriminate H.
Qed.

(** Three posts with three timestamps, one of them delivered three
    times: the feed holds each once, the latest first. *)
Example merge_library_distinct :
  fold_left insertIntoFeed [postA; postC; postA; postDog; postC; postA] []
  = [postDog; postC; postA].
Proof. reflexivity. Qed.

(** ** indexOf *)

Lemma search_None (q s : jsstring) :
  search q s = None -> forall j, isPrefix q (skipn j s) = false.
Proof.
  induction s as [|c s IH]; simpl.
  - destruct (isPrefix q []) eqn:E; [discriminate|].
    intros _ j. now destruct j.
  - destruct (isPrefix q (c :: s)) eqn:E; [discriminate|].
    destruct (search q s) eqn:Es; [discriminate|].
    intros _ [|j]; [exact E | now apply IH].
Qed.

Lemma search_Some (q s : jsstring) (k : nat) :
  search q s = Some k ->
  isPrefix q (skipn k s) = true
  /\ (forall j, j < k -> isPrefix q (skipn j s) = false).
Proof.
  revert k. induction s as [|c s IH]; intros k; simpl.
  - destruct (isPrefix q []) eqn:E; [|discriminate].
    intros [= <-]. split; [exact E | lia].
  - destruct (isPrefix q (c :: s)) eqn:E.
    + intros [= <-]. split; [exact E | lia].
    + destruct (search q s) as [k'|] eqn:Es; [|discriminate].
      intros [= <-]. destruct (IH k' eq_refl) as [H1 H2].
      split; [exact H1|]. intros [|j] Hj; [exact E | apply H2; lia].
Qed.

Lemma isPrefix_skipn_bound (q s : jsstring) (k : nat) :
  q <> [] -> isPrefix q (skipn k s) = true -> k + length q <= length s.
Proof.
  intros Hq H. apply isPrefix_length in H. rewrite length_skipn in H.
  destruct q; [contradiction|]. simpl in *. lia.
Qed.

(** A found index is at or after the start position and leaves room for
    the whole of a non-empty [q]. *)
Lemma indexOf_Some (s q : jsstring) (pos i : nat) :
  q <> [] -> indexOf s q pos = Some i ->
  pos <= i /\ i + length q <= length s /\ pos <= length s
  /\ search q (skipn pos s) = Some (i - pos).
Proof.
  intros Hq. unfold indexOf.
  destruct (search q (skipn (Nat.min pos (length s)) s)) as [k|] eqn:Es;
    [|discriminate].
  intros [= <-]. pose proof (search_Some _ _ _ Es) as [H1 _].
  rewrite skipn_skipn in H1.
  apply isPrefix_skipn_bound in H1; [|exact Hq].
  assert (Hlen : 1 <= length q) by (destruct q; [contradiction | simpl; lia]).
  assert (Hpos : pos <= length s) by lia.
  rewrite Nat.min_l in * by exact Hpos.
  repeat split; try lia.
  rewrite Es. f_equal. lia.
Qed.

Lemma indexOf_None (s q : jsstring) (pos : nat) :
  q <> [] -> indexOf s q pos = None -> search q (skipn pos s) = None.
Proof.
  intros Hq. unfold indexOf.
  destruct (Nat.le_gt_cases pos (length s)) as [Hle|Hgt].
  - rewrite Nat.min_l by exact Hle.
    destruct (search q (skipn pos s)); [discriminate | reflexivity].
  - intros _. rewrite skipn_all2 by lia. simpl.
    destruct q; [contradiction | reflexivity].
Qed.

(** ** The occurrences of the specification *)

Lemma occurrencesFrom_skip (q s : jsstring) (adv pos skip : nat) :
  occurrencesFrom q s adv pos skip
  = occurrencesFrom q (skipn skip s) adv (pos + skip) 0.
Proof.
  revert pos skip. induction s as [|c s IH]; intros pos skip.
  - now rewrite skipn_nil.
  - destruct skip as [|k].
    + simpl skipn. now rewrite Nat.add_0_r.
    + simpl. rewrite IH. f_equal. lia.
Qed.

Lemma occurrencesFrom_none (q s : jsstring) (adv pos : nat) :
  search q s = None -> occurrencesFrom q s adv pos 0 = [].
Proof.
  revert pos. induction s as [|c s IH]; intros pos; simpl; [reflexivity|].
  destruct (isPrefix q (c :: s)); [discriminate|].
  destruct (search q s); [discriminate|]. intros _. now apply IH.
Qed.

Lemma occurrencesFrom_found (q s : jsstring) (adv pos k : nat) :
  q <> [] -> 1 <= adv -> search q s = Some k ->
  occurrencesFrom q s adv pos 0
  = (pos + k, pos + k + adv)
    :: occurrencesFrom q (skipn (k + adv) s) adv (pos + k + adv) 0.
Proof.
  intros Hq Hadv. revert pos k. induction s as [|c s IH]; intros pos k; simpl.
  - destruct q; [contradiction | discriminate].
  - destruct (isPrefix q (c :: s)) eqn:E.
    + intros [= <-]. rewrite Nat.add_0_r. f_equal.
      rewrite occurrencesFrom_skip.
      replace (0 + adv) with (S (adv - 1)) by lia. simpl skipn.
      f_equal. lia.
    + destruct (search q s) as [k'|] eqn:Es; [|discriminate].
      intros [= <-]. rewrite (IH (S pos) k' eq_refl).
      replace (S pos + k') with (pos + S k') by lia. reflexivity.
Qed.

(** ** The highlight loop *)

Lemma spansOf_app (a b : list Segment) :
  spansOf (a ++ b) = spansOf a ++ spansOf b.
Proof. unfold spansOf. now rewrite List.filter_app, map_app. Qed.

Lemma render_app (t : jsstring) (a b : list Segment) :
  render t (a ++ b) = render t a ++ render t b.
Proof. unfold render. now rewrite map_app, concat_app. Qed.

(** [text.slice(a)] is [text.slice(a, text.length)]. *)
Lemma sliceFrom_slice (t : jsstring) (a : nat) :
  sliceFrom t a = slice t a (length t).
Proof.
  unfold sliceFrom, slice. symmetry. apply firstn_all2.
  rewrite length_skipn. lia.
Qed.

Lemma slice_join (t : jsstring) (a b : nat) :
  a <= b -> firstn a t ++ slice t a b = firstn b t.
Proof.
  intros H. unfold slice. rewrite take_take_drop. f_equal. lia.
Qed.

Section Loop.

Variables (tl ql t : jsstring) (adv : nat).
Hypothesis ql_nonempty : ql <> [].
Hypothesis adv_pos : 1 <= adv.

(** The loop comes to an end: every iteration moves the found index to
    the right, and a found index lies inside [tl]. *)
Lemma highlightLoop_terminates (fuel lastIndex : nat) (parts : list Segment) :
  (forall i, indexOf tl ql lastIndex = Some i -> length tl - i < fuel) ->
  exists r,
    highlightLoop fuel tl ql adv lastIndex (indexOf tl ql lastIndex) parts
    = Some r.
Proof using ql_nonempty adv_pos.
  revert lastIndex parts.
  induction fuel as [|fuel IH]; intros lastIndex parts Hfuel.
  - destruct (indexOf tl ql lastIndex) as [i|] eqn:Ei.
    + specialize (Hfuel i eq_refl). lia.
    + cbn [highlightLoop]. eauto.
  - destruct (indexOf tl ql lastIndex) as [i|] eqn:Ei; cbn [highlightLoop];
      [|eauto].
    apply IH. intros i' Ei'.
    specialize (Hfuel i eq_refl).
    apply indexOf_Some in Ei as (H1 & H2 & _); [|exact ql_nonempty].
    apply indexOf_Some in Ei' as (H3 & H4 & _); [|exact ql_nonempty].
    assert (1 <= length ql) by (destruct ql; [contradiction | simpl; lia]).
    lia.
Qed.

(** The slices pushed so far are the text up to [lastIndex]. *)
Lemma highlightLoop_render (fuel lastIndex : nat) (parts : list Segment)
    (last' : nat) (parts' : list Segment) :
  render t parts = firstn lastIndex t ->
  highlightLoop fuel tl ql adv lastIndex (indexOf tl ql lastIndex) parts
  = Some (last', parts') ->
  render t parts' = firstn last' t.
Proof using ql_nonempty.
  clear adv_pos. revert lastIndex parts.
  induction fuel as [|fuel IH]; intros lastIndex parts Hr;
    destruct (indexOf tl ql lastIndex) as [i|] eqn:Ei; cbn [highlightLoop];
    try discriminate; try (intros [= <- <-]; exact Hr).
  apply IH.
  apply indexOf_Some in Ei as (H1 & _); [|exact ql_nonempty].
  rewrite render_app.
  assert (Hgap : render t
            (if lastIndex <? i
             then parts ++ [{| start := lastIndex; stop := i; matched := false |}]
             else parts) = firstn i t).
  { destruct (Nat.ltb_spec lastIndex i) as [Hlt|Hge].
    - rewrite render_app, Hr. unfold render. cbn [map concat start stop].
      rewrite app_nil_r. apply slice_join. lia.
    - rewrite Hr. f_equal. lia. }
  rewrite Hgap. unfold render. cbn [map concat start stop].
  rewrite app_nil_r. apply slice_join. lia.
Qed.

(** The matches pushed by the loop are the occurrences of the
    specification from [lastIndex] on. *)
Lemma highlightLoop_spans (fuel lastIndex : nat) (parts : list Segment)
    (last' : nat) (parts' : list Segment) :
  highlightLoop fuel tl ql adv lastIndex (indexOf tl ql lastIndex) parts
  = Some (last', parts') ->
  spansOf parts'
  = spansOf parts ++ occurrencesFrom ql (skipn lastIndex tl) adv lastIndex 0.
Proof using ql_nonempty adv_pos.
  revert lastIndex parts.
  induction fuel as [|fuel IH]; intros lastIndex parts;
    destruct (indexOf tl ql lastIndex) as [i|] eqn:Ei; cbn [highlightLoop];
    try discriminate;
    try (intros [= <- <-];
         rewrite (occurrencesFrom_none _ _ _ _
                    (indexOf_None _ _ _ ql_nonempty Ei));
         now rewrite app_nil_r).
  intros H. rewrite (IH _ _ H). clear H.
  apply indexOf_Some in Ei as (H1 & H2 & H3 & H4); [|exact ql_nonempty].
  rewrite (occurrencesFrom_found _ _ adv lastIndex _ ql_nonempty adv_pos H4).
  rewrite skipn_skipn.
  replace (lastIndex + (i - lastIndex)) with i by lia.
  replace (i - lastIndex + adv + lastIndex) with (i + adv) by lia.
  rewrite spansOf_app.
  assert (Hgap : spansOf
            (if lastIndex <? i
             then parts ++ [{| start := lastIndex; stop := i; matched := false |}]
             else parts) = spansOf parts).
  { destruct (lastIndex <? i); [|reflexivity].
    rewrite spansOf_app. unfold spansOf at 2. simpl. apply app_nil_r. }
  rewrite Hgap, <- app_assoc. reflexivity.
Qed.

End Loop.

Lemma truthy_true (s : jsstring) : truthy s = true <-> s <> [].
Proof. destruct s; simpl; split; congruence. Qed.

Lemma trim_truthy_length (q : jsstring) :
  truthy (trim q) = true -> 1 <= length q.
Proof. destruct q; [discriminate | simpl; lia]. Qed.

Lemma includes_occurrences (tl ql : jsstring) (adv : nat) :
  ql <> [] -> 1 <= adv ->
  includes tl ql = true <-> nonOverlappingOccurrences ql tl adv <> [].
Proof.
  intros Hq Hadv. unfold includes, nonOverlappingOccurrences.
  destruct (indexOf tl ql 0) as [i|] eqn:Ei.
  - apply indexOf_Some in Ei as (_ & _ & _ & Hs); [|exact Hq].
    change (skipn 0 tl) with tl in Hs.
    rewrite (occurrencesFrom_found _ _ adv 0 _ Hq Hadv Hs).
    split; [discriminate | reflexivity].
  - apply indexOf_None in Ei; [|exact Hq]. change (skipn 0 tl) with tl in Ei.
    rewrite (occurrencesFrom_none _ _ adv 0 Ei). split; [discriminate | tauto].
Qed.

Lemma filter_isMatch_parts (t : jsstring) (segments : list Segment) :
  List.filter isMatch (map (partOf t) segments)
  = map (fun sp => {| text := slice t (fst sp) (snd sp); isMatch := true |})
      (spansOf segments).
Proof.
  unfold spansOf. induction segments as [|s segments IH]; simpl; [reflexivity|].
  destruct s as [a b m]. destruct m; simpl; [f_equal|]; exact IH.
Qed.

Lemma render_parts (t : jsstring) (segments : list Segment) :
  concat (map text (map (partOf t) segments)) = render t segments.
Proof. unfold render. now rewrite map_map. Qed.

Section Highlight.

Variable toLowerCase : jsstring -> jsstring.

(** Lower-casing never empties a string. *)
Hypothesis toLowerCase_nonempty : forall s, toLowerCase s = [] -> s = [].

Local Abbreviation segmentsOf := (highlightSegments toLowerCase).

Lemma highlightSegments_defined (payload query : jsstring) :
  truthy (trim query) = true ->
  exists segments,
    segmentsOf payload query = Some segments
    /\ render payload segments = payload
    /\ spansOf segments
       = nonOverlappingOccurrences (toLowerCase (trim query))
           (toLowerCase payload) (length query).
Proof using toLowerCase_nonempty.
  intros Hq.
  assert (Hql : toLowerCase (trim query) <> []).
  { intros H. apply toLowerCase_nonempty in H. apply truthy_true in Hq. tauto. }
  pose proof (trim_truthy_length _ Hq) as Hadv.
  unfold highlightSegments.
  destruct (highlightLoop_terminates (toLowerCase payload)
              (toLowerCase (trim query)) (length query) Hql Hadv
              (S (length (toLowerCase payload))) 0 [])
    as [[lastIndex parts] Hrun]; [intros; lia|].
  rewrite Hrun.
  pose proof (highlightLoop_render (toLowerCase payload)
                (toLowerCase (trim query)) payload (length query) Hql
                _ 0 [] _ _ eq_refl Hrun) as Hrender.
  pose proof (highlightLoop_spans (toLowerCase payload)
                (toLowerCase (trim query)) (length query) Hql Hadv
                _ 0 [] _ _ Hrun) as Hspans.
  eexists. split; [reflexivity|]. split.
  - destruct (Nat.ltb_spec lastIndex (length payload)) as [Hlt|Hge].
    + rewrite render_app, Hrender. unfold render. cbn [map concat start stop].
      rewrite app_nil_r, slice_join by lia. apply firstn_all.
    + rewrite Hrender. now apply firstn_all2.
  - assert (Htail : forall tail,
              spansOf (if lastIndex <? length payload
                       then parts ++ [{| start := lastIndex; stop := tail;
                                         matched := false |}]
                       else parts) = spansOf parts).
    { intros tail. destruct (lastIndex <? length payload); [|reflexivity].
      rewrite spansOf_app. unfold spansOf at 2. simpl. apply app_nil_r. }
    rewrite Htail, Hspans. reflexivity.
Qed.

End Highlight.

Lemma toLowerCaseLatin_nonempty (s : jsstring) :
  toLowerCaseLatin s = [] -> s = [].
Proof. unfold toLowerCaseLatin. destruct s; [reflexivity | discriminate]. Qed.

(** What the occurrences of the specification are: every span is an
    occurrence of [q] of width [adv], the spans follow one another without
    overlap, and every occurrence of [q] starts inside one of them. *)
Lemma occurrencesFrom_spec (q s : jsstring) (adv : nat) :
  1 <= adv ->
  forall pos skip,
    (forall a b, In (a, b) (occurrencesFrom q s adv pos skip) ->
       b = a + adv /\ pos + skip <= a
       /\ isPrefix q (skipn (a - pos) s) = true)
    /\ StronglySorted (fun x y => snd x <= fst y)
         (occurrencesFrom q s adv pos skip)
    /\ (forall j, skip <= j -> j < length s ->
          isPrefix q (skipn j s) = true ->
          exists a b, In (a, b) (occurrencesFrom q s adv pos skip)
                      /\ a <= pos + j < b).
Proof.
  intros Hadv. induction s as [|c s IH]; intros pos skip.
  - simpl. repeat split; try tauto; [constructor | intros; lia].
  - destruct skip as [|k].
    + cbn [occurrencesFrom]. destruct (isPrefix q (c :: s)) eqn:E.
      * destruct (IH (S pos) (adv - 1)) as (I1 & I2 & I3).
        split; [|split].
        -- intros a b [[= <- <-]|Hin].
           ++ rewrite Nat.sub_diag. repeat split; [lia | exact E].
           ++ destruct (I1 a b Hin) as (H1 & H2 & H3).
              repeat split; [exact H1 | lia|].
              replace (a - pos) with (S (a - S pos)) by lia. exact H3.
        -- constructor; [exact I2|].
           apply List.Forall_forall. intros [a b] Hin.
           destruct (I1 a b Hin) as (_ & H2 & _). simpl. lia.
        -- intros j _ Hj Hp. destruct j as [|j].
           ++ exists pos, (pos + adv). split; [now left | lia].
           ++ destruct (Nat.le_gt_cases (adv - 1) j) as [Hge|Hlt].
              ** destruct (I3 j Hge) as (a & b & Hin & Hab);
                   [simpl in Hj; lia | exact Hp|].
                 exists a, b. split; [now right | lia].
              ** exists pos, (pos + adv). split; [now left | lia].
      * destruct (IH (S pos) 0) as (I1 & I2 & I3).
        split; [|split].
        -- intros a b Hin. destruct (I1 a b Hin) as (H1 & H2 & H3).
           repeat split; [exact H1 | lia|].
           replace (a - pos) with (S (a - S pos)) by lia. exact H3.
        -- exact I2.
        -- intros j _ Hj Hp. destruct j as [|j]; [simpl in Hp; congruence|].
           destruct (I3 j) as (a & b & Hin & Hab);
             [lia | simpl in Hj; lia | exact Hp|].
           exists a, b. split; [exact Hin | lia].
    + cbn [occurrencesFrom]. destruct (IH (S pos) k) as (I1 & I2 & I3).
      split; [|split].
      * intros a b Hin. destruct (I1 a b Hin) as (H1 & H2 & H3).
        repeat split; [exact H1 | lia|].
        replace (a - pos) with (S (a - S pos)) by lia. exact H3.
      * exact I2.
      * intros j Hk Hj Hp. destruct j as [|j]; [lia|].
        destruct (I3 j) as (a & b & Hin & Hab);
          [lia | simpl in Hj; lia | exact Hp|].
        exists a, b. split; [exact Hin | lia].
Qed.

(** ** Search and highlight *)

Section Search.

Variable toLowerCase : jsstring -> jsstring.
Hypothesis toLowerCase_nonempty : forall s, toLowerCase s = [] -> s = [].

Lemma splitTextForHighlight_defined (payload query : jsstring) :
  exists parts,
    splitTextForHighlight toLowerCase payload query = Some parts
    /\ concat (map text parts) = payload
    /\ (truthy (trim query) = true ->
        List.filter isMatch parts
        = map (fun sp => {| text := slice payload (fst sp) (snd sp);
                            isMatch := true |})
            (nonOverlappingOccurrences (toLowerCase (trim query))
               (toLowerCase payload) (length query))).
Proof using toLowerCase_nonempty.
  unfold splitTextForHighlight.
  destruct (truthy (trim query)) eqn:Hq; cbn [negb].
  - destruct (highlightSegments_defined toLowerCase toLowerCase_nonempty
                payload query Hq) as (segments & -> & Hrender & Hspans).
    eexists. split; [reflexivity|].
    destruct segments as [|s segments].
    + cbn [map length Nat.ltb Nat.leb]. split.
      * cbn [concat text]. apply app_nil_r.
      * intros _. rewrite <- Hspans. reflexivity.
    + cbn [map length Nat.ltb Nat.leb]. split.
      * exact (eq_trans (render_parts payload (s :: segments)) Hrender).
      * intros _. rewrite <- Hspans.
        exact (filter_isMatch_parts payload (s :: segments)).
  - eexists. split; [reflexivity|]. split; [|discriminate].
    cbn [map concat text]. apply app_nil_r.
Qed.

Lemma highlightSpans_defined (payload query : jsstring) :
  truthy (trim query) = true ->
  highlightSpans toLowerCase payload query
  = Some (nonOverlappingOccurrences (toLowerCase (trim query))
            (toLowerCase payload) (length query)).
Proof using toLowerCase_nonempty.
  intros Hq. unfold highlightSpans. rewrite Hq. cbn [negb].
  destruct (highlightSegments_defined toLowerCase toLowerCase_nonempty
              payload query Hq) as (segments & -> & _ & Hspans).
  f_equal. exact Hspans.
Qed.

Lemma filteredEvents_in (feed : list NostrEvent) (searchQuery : jsstring)
    (e : NostrEvent) :
  truthy (trim searchQuery) = true ->
  In e (filteredEvents toLowerCase feed searchQuery)
  <-> In e feed /\ kind e = 1%Z
      /\ includes (toLowerCase (content e)) (toLowerCase (trim searchQuery))
         = true.
Proof.
  intros Hq. unfold filteredEvents. rewrite Hq. cbn [negb].
  rewrite !filter_In, Z.eqb_eq. tauto.
Qed.

End Search.

(** Search and highlight in the positions of the lower-cased payload: for
    a feed of posts and a query that is not blank, a document is in the
    filtered view exactly when its list of highlight spans is not empty.
    The spans are the bounds of the slices [splitTextForHighlight] marks
    as matches, and they are the non-overlapping occurrences of the
    lower-cased query in the lower-cased payload, found from left to right
    with an advance of the length of the query after each match: each span
    is an occurrence there, the spans do not overlap, and every occurrence
    starts inside a span.  For the query "cat" and the payload "concatcat"
    the spans are [3,6) and [6,9).  The spans are then applied to the
    payload itself (lines 182, 184 and 190), where the positions are the same
    only if lower-casing has kept them. *)
Theorem search_filter_span_consistency
    (toLowerCase : jsstring -> jsstring) (feed : list NostrEvent)
    (searchQuery : jsstring) :
  (forall s, toLowerCase s = [] -> s = []) ->
  truthy (trim searchQuery) = true ->
  Forall (fun d => kind d = 1%Z) feed ->
  let query := trim searchQuery in
  (forall e, In e feed ->
     exists spans,
       highlightSpans toLowerCase (content e) query = Some spans
       /\ (In e (filteredEvents toLowerCase feed searchQuery) <-> spans <> []))
  /\ (forall e, In e (filteredEvents toLowerCase feed searchQuery) -> In e feed)
  /\ (forall payload, exists spans parts,
        highlightSpans toLowerCase payload query = Some spans
        /\ splitTextForHighlight toLowerCase payload query = Some parts
        /\ List.filter isMatch parts
           = map (fun sp => {| text := slice payload (fst sp) (snd sp);
                               isMatch := true |}) spans
        /\ spans = nonOverlappingOccurrences (toLowerCase query)
                     (toLowerCase payload) (length query)
        /\ (forall a b, In (a, b) spans ->
              b = a + length query
              /\ isPrefix (toLowerCase query) (skipn a (toLowerCase payload))
                 = true)
        /\ StronglySorted (fun x y => snd x <= fst y) spans
        /\ (forall j, j < length (toLowerCase payload) ->
              isPrefix (toLowerCase query) (skipn j (toLowerCase payload))
              = true ->
              exists a b, In (a, b) spans /\ a <= j < b))
  /\ highlightSpans toLowerCaseLatin (js "concatcat") (js "cat")
     = Some [(3, 6); (6, 9)].
Proof.
  intros Hlow Hq Hposts. cbv zeta.
  assert (Hq' : truthy (trim (trim searchQuery)) = true)
    by now rewrite trim_idem.
  assert (Hql : toLowerCase (trim searchQuery) <> []).
  { intros H. apply Hlow in H. apply truthy_true in Hq. tauto. }
  pose proof (trim_truthy_length _ Hq') as Hadv.
  assert (Hspans : forall payload,
            highlightSpans toLowerCase payload (trim searchQuery)
            = Some (nonOverlappingOccurrences (toLowerCase (trim searchQuery))
                      (toLowerCase payload) (length (trim searchQuery)))).
  { intros payload.
    rewrite (highlightSpans_defined toLowerCase Hlow payload _ Hq').
    now rewrite trim_idem. }
  split; [|split; [|split]].
  - intros e He. eexists. split; [apply Hspans|].
    rewrite (filteredEvents_in toLowerCase feed searchQuery e Hq).
    rewrite <- (includes_occurrences _ _ _ Hql Hadv).
    pose proof (proj1 (List.Forall_forall _ _) Hposts e He) as Hk. tauto.
  - intros e He. now apply (filteredEvents_in toLowerCase feed searchQuery e Hq).
  - intros payload.
    destruct (splitTextForHighlight_defined toLowerCase Hlow payload
                (trim searchQuery)) as (parts & Hparts & _ & Hmatch).
    specialize (Hmatch Hq'). rewrite trim_idem in Hmatch.
    destruct (occurrencesFrom_spec (toLowerCase (trim searchQuery))
                (toLowerCase payload) (length (trim searchQuery)) Hadv 0 0)
      as (S1 & S2 & S3).
    eexists. exists parts. split; [apply Hspans|].
    split; [exact Hparts|]. split; [exact Hmatch|]. split; [reflexivity|].
    split; [|split].
    + intros a b Hin. destruct (S1 a b Hin) as (H1 & _ & H3).
      rewrite Nat.sub_0_r in H3. auto.
    + exact S2.
    + intros j Hj Hp. destruct (S3 j (Nat.le_0_l j) Hj Hp) as (a & b & Hin & Hab).
      exists a, b. auto.
  - reflexivity.
Qed.

Lemma search_filter_span_consistency_witness :
  truthy (trim (js " Cat ")) = true
  /\ Forall (fun d => kind d = 1%Z) [postDog; postConcatcat]
  /\ exists spans,
       highlightSpans toLowerCaseLatin (content postConcatcat) (trim (js " Cat "))
       = Some spans
       /\ (In postConcatcat
             (filteredEvents toLowerCaseLatin [postDog; postConcatcat]
                (js " Cat "))
           <-> spans <> []).
Proof.
  assert (Hposts : Forall (fun d => kind d = 1%Z) [postDog; postConcatcat])
    by (repeat constructor).
  split; [reflexivity|]. split; [exact Hposts|].
  exact (proj1 (search_filter_span_consistency toLowerCaseLatin
                  [postDog; postConcatcat] (js " Cat ")
                  toLowerCaseLatin_nonempty eq_refl Hposts)
           postConcatcat (or_intror (or_introl eq_refl))).
Defined.

(** C6 at the payload [dottedPayload], U+0130 followed by " cat", and the
    query "cat".  The lower case of the payload has six code units, one
    more than the payload, and "cat" is found in it at 3.  The post is in
    the filtered view and has one span, as the claim says; but the span is
    [3,6) on a payload of five code units, and the part marked as the
    match is "at", which is not the query, while the occurrence of the
    query in the payload, at [2,5), is split between the two parts. *)
Theorem highlight_span_displaced :
  toLowerCaseDotted dottedPayload = [105; 775]%N ++ js " cat"
  /\ length dottedPayload = 5
  /\ filteredEvents toLowerCaseDotted [postDotted] (js "cat") = [postDotted]
  /\ highlightSpans toLowerCaseDotted dottedPayload (js "cat") = Some [(3, 6)]
  /\ splitTextForHighlight toLowerCaseDotted dottedPayload (js "cat")
     = Some [ {| text := 304%N :: js " c"; isMatch := false |};
              {| text := js "at"; isMatch := true |} ]
  /\ slice dottedPayload 2 5 = js "cat"
  /\ toLowerCaseDotted (slice dottedPayload 3 6) <> toLowerCaseDotted (js "cat").
Proof. repeat split. discriminate. Qed.

(** C9: the texts of the parts [splitTextForHighlight] returns, put one
    after the other, are the input text, for every text and every query. *)
Theorem splitTextForHighlight_lossless
    (toLowerCase : jsstring -> jsstring) (payload query : jsstring) :
  (forall s, toLowerCase s = [] -> s = []) ->
  exists parts,
    splitTextForHighlight toLowerCase payload query = Some parts
    /\ concat (map text parts) = payload.
Proof.
  intros Hlow.
  destruct (splitTextForHighlight_defined toLowerCase Hlow payload query)
    as (parts & H1 & H2 & _).
  exists parts. split; assumption.
Qed.

Lemma splitTextForHighlight_lossless_witness :
  exists parts,
    splitTextForHighlight toLowerCaseLatin (js "conCATcat!") (js "cat")
    = Some parts
    /\ concat (map text parts) = js "conCATcat!".
Proof.
  exact (splitTextForHighlight_lossless toLowerCaseLatin (js "conCATcat!")
           (js "cat") toLowerCaseLatin_nonempty).
Defined.

(** The parts of the example of section 8. *)
Example splitTextForHighlight_concatcat :
  splitTextForHighlight toLowerCaseLatin (js "concatcat") (js "cat")
  = Some [{| text := js "con"; isMatch := false |};
          {| text := js "cat"; isMatch := true |};
          {| text := js "cat"; isMatch := true |}].
Proof. reflexivity. Qed.

(** Occurrences that overlap are counted once. *)
Example highlightSpans_overlapping :
  highlightSpans toLowerCaseLatin (js "aaaaa") (js "aa") = Some [(0, 2); (2, 4)].
Proof. reflexivity. Qed.

(** * Further properties *)

(** ** The snapshots the discovery loop retains *)

Lemma NewestFirst_keep (sel : NostrEvent -> Prop) (docs : list NostrEvent)
    (current : option NostrEvent) (event : NostrEvent) :
  NewestFirst sel docs current -> sel event ->
  NewestFirst sel (docs ++ [event]) (keepNewer current event).
Proof.
  intros H Hsel. destruct current as [c|]; simpl in *.
  - destruct H as (i & Hi & Hc & Hall).
    pose proof (lookup_lt_Some _ _ _ Hi) as Hlt.
    destruct (Z.ltb_spec (created_at c) (created_at event)) as [Hnew|Hold].
    + exists (length docs). split; [now apply list_lookup_middle|].
      split; [exact Hsel|]. intros j e Hj He.
      destruct (Nat.lt_ge_cases j (length docs)) as [Hjl|Hjl].
      * rewrite lookup_app_l in Hj by exact Hjl.
        destruct (Hall j e Hj He) as [Hle _]. lia.
      * rewrite lookup_app_r in Hj by exact Hjl.
        destruct (j - length docs) eqn:Ed; [|destruct n; discriminate].
        injection Hj as <-. lia.
    + exists i. split; [now rewrite lookup_app_l|]. split; [exact Hc|].
      intros j e Hj He.
      destruct (Nat.lt_ge_cases j (length docs)) as [Hjl|Hjl].
      * rewrite lookup_app_l in Hj by exact Hjl. now apply Hall.
      * rewrite lookup_app_r in Hj by exact Hjl.
        destruct (j - length docs) eqn:Ed; [|destruct n; discriminate].
        injection Hj as <-. lia.
  - exists (length docs). split; [now apply list_lookup_middle|].
    split; [exact Hsel|]. intros j e Hj He.
    destruct (Nat.lt_ge_cases j (length docs)) as [Hjl|Hjl].
    + rewrite lookup_app_l in Hj by exact Hjl.
      exfalso. apply (H e); [|exact He].
      apply list_elem_of_In. eapply list_elem_of_lookup_2, Hj.
    + rewrite lookup_app_r in Hj by exact Hjl.
      destruct (j - length docs) eqn:Ed; [|destruct n; discriminate].
      injection Hj as <-. lia.
Qed.

Lemma NewestFirst_skip (sel : NostrEvent -> Prop) (docs : list NostrEvent)
    (current : option NostrEvent) (event : NostrEvent) :
  NewestFirst sel docs current -> ~ sel event ->
  NewestFirst sel (docs ++ [event]) current.
Proof.
  intros H Hsel. destruct current as [c|]; simpl in *.
  - destruct H as (i & Hi & Hc & Hall).
    pose proof (lookup_lt_Some _ _ _ Hi) as Hlt.
    exists i. split; [now rewrite lookup_app_l|]. split; [exact Hc|].
    intros j e Hj He.
    destruct (Nat.lt_ge_cases j (length docs)) as [Hjl|Hjl].
    + rewrite lookup_app_l in Hj by exact Hjl. now apply Hall.
    + rewrite lookup_app_r in Hj by exact Hjl.
      destruct (j - length docs) eqn:Ed; [|destruct n; discriminate].
      injection Hj as <-. contradiction.
  - intros e He. apply in_app_or in He as [He|[<-|[]]]; [now apply H | exact Hsel].
Qed.

Lemma discoveryStep_relayList_keep (event : NostrEvent) (st : State) :
  relayListEvent (discoveryStep event st)
  = if (kind event =? 10002)%Z then keepNewer (relayListEvent st) event
    else relayListEvent st.
Proof. apply discoveryStep_relayList. Qed.

Lemma discoveryStep_profile_keep (event : NostrEvent) (st : State)
    (author : jsstring) :
  profileEvents (discoveryStep event st) !! author
  = if (kind event =? 0)%Z && bool_decide (pubkey event = author)
    then keepNewer (profileEvents st !! author) event
    else profileEvents st !! author.
Proof.
  unfold discoveryStep.
  destruct (Z.eqb_spec (kind event) 0) as [H0|H0]; cbn [andb].
  - destruct (decide (pubkey event = author)) as [<-|Hne].
    + rewrite bool_decide_eq_true_2 by reflexivity.
      destruct (profileEvents st !! pubkey event) as [existing|] eqn:Ee;
        cbn [keepNewer].
      * destruct (created_at existing <? created_at event)%Z;
          cbn [profileEvents set_profileEvents];
          [apply lookup_insert_eq | exact Ee].
      * cbn [profileEvents set_profileEvents]. apply lookup_insert_eq.
    + rewrite bool_decide_eq_false_2 by exact Hne.
      destruct (profileEvents st !! pubkey event) as [existing|];
        [destruct (created_at existing <? created_at event)%Z|];
        cbn [profileEvents set_profileEvents];
        try reflexivity; now apply lookup_insert_ne.
  - destruct (kind event =? 10002)%Z; [|reflexivity].
    destruct (relayListEvent st) as [current|];
      [destruct (created_at current <? created_at event)%Z|]; reflexivity.
Qed.

Lemma discovery_loop_snapshots (arr : list Arrival) (st : State)
    (seen : list NostrEvent) :
  NewestFirst (fun e => kind e = 10002%Z) seen (relayListEvent st) ->
  (forall author,
      NewestFirst (fun e => kind e = 0%Z /\ pubkey e = author) seen
        (profileEvents st !! author)) ->
  NewestFirst (fun e => kind e = 10002%Z) (seen ++ deliveredDocs arr)
    (relayListEvent (runLoop discoveryStep arr st))
  /\ forall author,
      NewestFirst (fun e => kind e = 0%Z /\ pubkey e = author)
        (seen ++ deliveredDocs arr)
        (profileEvents (runLoop discoveryStep arr st) !! author).
Proof.
  revert st seen. induction arr as [|a arr IH]; intros st seen Hr Hp.
  - cbn [deliveredDocs runLoop]. rewrite app_nil_r. auto.
  - destruct a as [event|]; cbn [deliveredDocs runLoop].
    + replace (seen ++ event :: deliveredDocs arr)
        with ((seen ++ [event]) ++ deliveredDocs arr)
        by (now rewrite <- app_assoc).
      apply IH.
      * rewrite discoveryStep_relayList_keep.
        destruct (Z.eqb_spec (kind event) 10002) as [Hk|Hk];
          [now apply NewestFirst_keep | now apply NewestFirst_skip].
      * intros author. rewrite discoveryStep_profile_keep.
        destruct (Z.eqb_spec (kind event) 0) as [Hk|Hk]; cbn [andb].
        -- destruct (decide (pubkey event = author)) as [Ha|Ha].
           ++ rewrite bool_decide_eq_true_2 by exact Ha.
              apply NewestFirst_keep; [apply Hp | auto].
           ++ rewrite bool_decide_eq_false_2 by exact Ha.
              apply NewestFirst_skip; [apply Hp | tauto].
        -- apply NewestFirst_skip; [apply Hp | tauto].
    + apply IH; [exact Hr | exact Hp].
Qed.

(** X1: the profile the discovery loop of a fetch retains for an author
    is, among the kind-0 documents of that author it was delivered, the
    first delivered of those with the latest [created_at]; no profile is
    retained for an author without such a document. *)
Theorem discovery_profile_snapshot (arr : list Arrival) (ending : option Exn)
    (st : State) (author : jsstring) :
  NewestFirst (fun e => kind e = 0%Z /\ pubkey e = author) (deliveredDocs arr)
    (profileEvents
       (finalState (forAwait arr ending
                      (fun event => modify (discoveryStep event))
                      (startFetch st))) !! author).
Proof.
  rewrite forAwait_modify. unfold finalState. cbn [fst].
  apply (discovery_loop_snapshots arr (startFetch st) []).
  - cbn [startFetch relayListEvent NewestFirst]. intros e [].
  - intros a. cbn [startFetch profileEvents]. rewrite lookup_empty.
    intros e [].
Qed.

(** X2: the relay list the discovery loop of a fetch retains is the first
    delivered of the kind-10002 documents with the latest [created_at],
    and none is retained when no such document was delivered. *)
Theorem discovery_relay_list_snapshot (arr : list Arrival)
    (ending : option Exn) (st : State) :
  NewestFirst (fun e => kind e = 10002%Z) (deliveredDocs arr)
    (relayListEvent
       (finalState (forAwait arr ending
                      (fun event => modify (discoveryStep event))
                      (startFetch st)))).
Proof.
  rewrite forAwait_modify. unfold finalState. cbn [fst].
  apply (discovery_loop_snapshots arr (startFetch st) []).
  - cbn [startFetch relayListEvent NewestFirst]. intros e [].
  - intros a. cbn [startFetch profileEvents]. rewrite lookup_empty.
    intros e [].
Qed.

(** ** Clicks on the abort button and the loops *)

Lemma runLoop_clicks_page (step : NostrEvent -> State -> State)
    (arr : list Arrival) (st st' : State) :
  (forall event s s', page s = page s' ->
     page (step event s) = page (step event s')) ->
  page st = page st' ->
  page (runLoop step arr st)
  = page (runLoop step (map Deliver (deliveredDocs arr)) st').
Proof.
  intros Hstep. revert st st'.
  induction arr as [|a arr IH]; intros st st' H; [exact H|].
  destruct a as [event|]; cbn [deliveredDocs map runLoop].
  - apply IH. now apply Hstep.
  - apply IH. now rewrite abort_page.
Qed.

Lemma runLoop_signals_length (step : NostrEvent -> State -> State)
    (arr : list Arrival) (st : State) :
  (forall event s, controller (step event s) = controller s
                   /\ signals (step event s) = signals s) ->
  length (signals st) <= length (signals (runLoop step arr st)).
Proof.
  intros Hstep. revert st.
  induction arr as [|a arr IH]; intros st; cbn [runLoop]; [lia|].
  destruct a as [event|].
  - destruct (Hstep event st) as [_ Hs]. rewrite <- Hs. apply IH.
  - etransitivity; [|apply IH].
    unfold abort. cbn [signals]. rewrite length_app, length_insert. lia.
Qed.

Lemma runLoop_no_click_tokens (step : NostrEvent -> State -> State)
    (arr : list Arrival) (st : State) :
  (forall event s, controller (step event s) = controller s
                   /\ signals (step event s) = signals s) ->
  ~ In ClickAbort arr ->
  controller (runLoop step arr st) = controller st
  /\ signals (runLoop step arr st) = signals st.
Proof.
  intros Hstep. revert st.
  induction arr as [|a arr IH]; intros st Hn; cbn [runLoop]; [split; reflexivity|].
  destruct a as [event|].
  - destruct (IH (step event st)) as [-> ->]; [intros H; apply Hn; now right|].
    apply Hstep.
  - exfalso. apply Hn. now left.
Qed.

(** X3: clicks on the abort button while the discovery loop is suspended
    change nothing of what the loop leaves in the page variables: the
    profiles and the relay list retained are the ones retained without the
    clicks. *)
Theorem discovery_ignores_abort (arr : list Arrival) (ending : option Exn)
    (st : State) :
  page (finalState (forAwait arr ending
                      (fun event => modify (discoveryStep event)) st))
  = page (finalState (forAwait (map Deliver (deliveredDocs arr)) ending
                        (fun event => modify (discoveryStep event)) st)).
Proof.
  rewrite !forAwait_modify. unfold finalState. cbn [fst].
  apply runLoop_clicks_page; [exact discoveryStep_page | reflexivity].
Qed.

(** ** The paths of a fetch *)

Lemma discoveryStep_events (event : NostrEvent) (st : State) :
  events (discoveryStep event st) = events st.
Proof.
  unfold discoveryStep. destruct (kind event =? 0)%Z.
  - destruct (profileEvents st !! pubkey event) as [existing|];
      [destruct (created_at existing <? created_at event)%Z|]; reflexivity.
  - destruct (kind event =? 10002)%Z; [|reflexivity].
    destruct (relayListEvent st) as [current|];
      [destruct (created_at current <? created_at event)%Z|]; reflexivity.
Qed.

Lemma runLoop_discovery_events (arr : list Arrival) (st : State) :
  events (runLoop discoveryStep arr st) = events st.
Proof.
  revert st. induction arr as [|a arr IH]; intros st; cbn [runLoop];
    [reflexivity|].
  destruct a as [event|]; rewrite IH; [apply discoveryStep_events | reflexivity].
Qed.

Lemma runLoop_merge_snapshots
    (insert : list NostrEvent -> NostrEvent -> list NostrEvent)
    (arr : list Arrival) (st : State) :
  relayListEvent (runLoop (mergeStep insert) arr st) = relayListEvent st
  /\ profileEvents (runLoop (mergeStep insert) arr st) = profileEvents st.
Proof.
  revert st. induction arr as [|a arr IH]; intros st; cbn [runLoop];
    [split; reflexivity|].
  destruct a as [event|].
  - exact (IH (mergeStep insert event st)).
  - exact (IH (abort st)).
Qed.

Ltac fetch_paths decode canParse env st :=
  unfold fetchOutcome;
  destruct (normalizePubkey decode (publicKey st)) as [?pk|?e] eqn:?Hn;
  cbv zeta;
  [destruct (ending (transport env metadataRelays [pk] [0; 10002]%Z))
     as [?e|] eqn:?He1;
   [|destruct (extractWriteRelays canParse _) as [?wr|?e] eqn:?Hx;
     [destruct (ending (transport env wr [pk] [1]%Z)) as [?e|] eqn:?He2|]]|].

Ltac split_in H :=
  cbn [In app] in H;
  repeat match goal with
         | H : _ \/ _ |- _ => destruct H as [H|H]
         end;
  try discriminate; try contradiction.

Section FetchPaths.

Variable nip19_decode : jsstring -> option Decoded.
Variable canParse : jsstring -> bool.
Variable insertEventIntoDescendingList :
  list NostrEvent -> NostrEvent -> list NostrEvent.

Local Abbreviation fetch :=
  (fetchEvents nip19_decode canParse insertEventIntoDescendingList).
Local Abbreviation outcome :=
  (fetchOutcome nip19_decode canParse insertEventIntoDescendingList).
Local Abbreviation merge := (mergeStep insertEventIntoDescendingList).

Lemma finishFetch_state (env : Env) (st : State) (t : list Effect) :
  events (finalState (finishFetch env st t)) = events st
  /\ profileEvents (finalState (finishFetch env st t)) = profileEvents st
  /\ relayListEvent (finalState (finishFetch env st t)) = relayListEvent st
  /\ error (finalState (finishFetch env st t)) = error st
  /\ controller (finalState (finishFetch env st t)) = controller st
  /\ signals (finalState (finishFetch env st t)) = signals st
  /\ publicKey (finalState (finishFetch env st t)) = publicKey st
  /\ searchQuery (finalState (finishFetch env st t)) = searchQuery st
  /\ beforeLoad (finalState (finishFetch env st t)) = beforeLoad st.
Proof. unfold finishFetch. destruct (shutdownOutcome env); repeat split. Qed.

(** The feed a fetch ends with. *)
Lemma fetchOutcome_feed (env : Env) (st : State) :
  (forall relays authors kinds sig,
      In (AllEventsIterator relays authors kinds (Some sig))
         (traceOf (outcome env st)) ->
      events (finalState (outcome env st))
      = fold_left insertEventIntoDescendingList
          (deliveredDocs (arrivals (transport env relays authors kinds))) [])
  /\ ((forall relays authors kinds sig,
         ~ In (AllEventsIterator relays authors kinds (Some sig))
             (traceOf (outcome env st))) ->
      events (finalState (outcome env st)) = []).
Proof.
  fetch_paths nip19_decode canParse env st;
    match goal with
    | |- context [finishFetch env ?s ?t] =>
        destruct (finishFetch_state env s t) as (-> & _);
        destruct (finishFetch_fields env s t) as (-> & _)
    end;
    cbn [caught set_error events];
    rewrite ?runLoop_merge_events, ?runLoop_discovery_events;
    cbn [startFetch events];
    (split;
     [intros relays authors kinds sig H; split_in H;
      try (injection H as <- <- <- <-; reflexivity)
     |intros H; try reflexivity;
      exfalso; eapply H; cbn [In app]; do 3 right; left; reflexivity]).
Qed.

(** The queries a fetch opens. *)
Lemma fetchOutcome_queries (env : Env) (st : State)
    (relays authors : list jsstring) (kinds : list Z)
    (sig : option (nat * option bool)) :
  In (AllEventsIterator relays authors kinds sig) (traceOf (outcome env st)) ->
  relays <> []
  /\ exists pk,
      normalizePubkey nip19_decode (publicKey st) = Ok pk
      /\ authors = [pk]
      /\ ((relays = metadataRelays /\ kinds = [0; 10002]%Z /\ sig = None)
          \/ (kinds = [1%Z] /\ (exists tok, sig = Some tok)
              /\ extractWriteRelays canParse
                   (relayListEvent (finalState (outcome env st)))
                 = Ok relays)).
Proof.
  fetch_paths nip19_decode canParse env st;
    match goal with
    | |- context [finishFetch env ?s ?t] =>
        destruct (finishFetch_state env s t) as (_ & _ & -> & _);
        destruct (finishFetch_fields env s t) as (-> & _)
    end;
    cbn [caught set_error relayListEvent];
    rewrite ?(proj1 (runLoop_merge_snapshots insertEventIntoDescendingList _ _));
    intros H; split_in H; injection H as <- <- <- <-;
    (split; [try discriminate; eapply extractWriteRelays_nonempty; eassumption|]);
    exists pk; (split; [reflexivity|]); (split; [reflexivity|]);
    try (left; repeat split; reflexivity);
    right; (split; [reflexivity|]); (split; [eauto|]); assumption.
Qed.

(** The controllers a fetch ends with are the ones its two loops left. *)
Lemma fetchOutcome_tokens (env : Env) (st : State) :
  exists arr1 arr2,
    (arr1 = [] \/ exists r a k, arr1 = arrivals (transport env r a k))
    /\ (arr2 = [] \/ exists r a k, arr2 = arrivals (transport env r a k))
    /\ controller (finalState (outcome env st))
       = controller (runLoop merge arr2
                       (runLoop discoveryStep arr1 (startFetch st)))
    /\ signals (finalState (outcome env st))
       = signals (runLoop merge arr2
                    (runLoop discoveryStep arr1 (startFetch st))).
Proof.
  fetch_paths nip19_decode canParse env st;
    match goal with
    | |- context [finishFetch env ?s ?t] =>
        destruct (finishFetch_state env s t) as (_ & _ & _ & _ & -> & -> & _)
    end.
  - exists (arrivals (transport env metadataRelays [pk] [0; 10002]%Z)), [].
    repeat split; eauto.
  - exists (arrivals (transport env metadataRelays [pk] [0; 10002]%Z)),
      (arrivals (transport env wr [pk] [1]%Z)).
    repeat split; eauto.
  - exists (arrivals (transport env metadataRelays [pk] [0; 10002]%Z)),
      (arrivals (transport env wr [pk] [1]%Z)).
    repeat split; eauto.
  - exists (arrivals (transport env metadataRelays [pk] [0; 10002]%Z)), [].
    repeat split; eauto.
  - exists [], []. repeat split; eauto.
Qed.

End FetchPaths.

(** X4: a fetch with a non-blank input discards the feed of the fetch
    before.  If it gets as far as the content query, it ends with the
    documents that query delivered, inserted one by one into an empty
    feed, also when the iterator then throws; if it fails before, it ends
    with an empty feed. *)
Theorem fetch_feed
    (decode : jsstring -> option Decoded) (canParse : jsstring -> bool)
    (insert : list NostrEvent -> NostrEvent -> list NostrEvent)
    (env : Env) (st : State) :
  truthy (trim (publicKey st)) = true ->
  let run := fetchEvents decode canParse insert env st in
  (forall relays authors kinds sig,
      In (AllEventsIterator relays authors kinds (Some sig)) (traceOf run) ->
      events (finalState run)
      = fold_left insert
          (deliveredDocs (arrivals (transport env relays authors kinds))) [])
  /\ ((forall relays authors kinds sig,
         ~ In (AllEventsIterator relays authors kinds (Some sig)) (traceOf run)) ->
      events (finalState run) = []).
Proof.
  intros H. cbv zeta. rewrite fetchEvents_outcome by exact H.
  apply fetchOutcome_feed.
Qed.

Lemma fetch_feed_witness :
  truthy (trim (publicKey (set_publicKey lowerKey initialState))) = true
  /\ events (finalState
              (fetchEvents noDecode (fun _ => true)
                 insertEventIntoDescendingList_spec malformedEnv
                 (set_publicKey lowerKey initialState))) = [].
Proof.
  split; [reflexivity|].
  apply (proj2 (fetch_feed noDecode (fun _ => true)
                  insertEventIntoDescendingList_spec malformedEnv
                  (set_publicKey lowerKey initialState) eq_refl)).
  intros relays authors kinds sig H. vm_compute in H.
  repeat destruct H as [H|H]; try discriminate; exact H.
Defined.

(** X5: an input that [normalizePubkey] rejects ends the fetch before any
    query is opened: the transport handle is created and shut down and
    nothing else, the error box holds the message of the rejection, and
    the feed, the profiles and the relay list are empty. *)
Theorem fetch_invalid_identity
    (decode : jsstring -> option Decoded) (canParse : jsstring -> bool)
    (insert : list NostrEvent -> NostrEvent -> list NostrEvent)
    (env : Env) (st : State) (e : Exn) :
  truthy (trim (publicKey st)) = true ->
  normalizePubkey decode (publicKey st) = Throw e ->
  let run := fetchEvents decode canParse insert env st in
  traceOf run = [FetcherInit; ConsoleError e; FetcherShutdown]
  /\ (e = InvalidNpub \/ e = InvalidFormat)
  /\ error (finalState run) = Some (messageOf e)
  /\ events (finalState run) = []
  /\ profileEvents (finalState run) = ∅
  /\ relayListEvent (finalState run) = None.
Proof.
  intros H He. cbv zeta. rewrite fetchEvents_outcome by exact H.
  unfold fetchOutcome. rewrite He.
  destruct (finishFetch_state env (caught e (startFetch st)) [ConsoleError e])
    as (-> & -> & -> & -> & _).
  destruct (finishFetch_fields env (caught e (startFetch st)) [ConsoleError e])
    as (-> & _).
  repeat split.
  unfold normalizePubkey in He.
  destruct (isHex64 _); [discriminate|]. destruct (startsWith _ _).
  - destruct (decode _) as [d|]; [|injection He as <-; now left].
    destruct (jsEqb _ _); [discriminate | injection He as <-; now right].
  - injection He as <-. now right.
Qed.

Lemma fetch_invalid_identity_witness :
  truthy (trim (js " xyz ")) = true
  /\ normalizePubkey noDecode (js " xyz ") = Throw InvalidFormat
  /\ traceOf (fetchEvents noDecode (fun _ => true)
               insertEventIntoDescendingList_spec foreignEnv
               (set_publicKey (js " xyz ") initialState))
     = [FetcherInit; ConsoleError InvalidFormat; FetcherShutdown].
Proof.
  split; [reflexivity|]. split; [reflexivity|].
  exact (proj1 (fetch_invalid_identity noDecode (fun _ => true)
                  insertEventIntoDescendingList_spec foreignEnv
                  (set_publicKey (js " xyz ") initialState) InvalidFormat
                  eq_refl eq_refl)).
Defined.

(** X6: every query a fetch opens has a relay set that is not empty and
    asks for the one author [normalizePubkey] returned.  The query for
    kinds 0 and 10002 goes to the metadata relays and is given no abort
    signal; the query for kind 1 is given one and goes to the relays
    [extractWriteRelays] returns for the relay list the fetch retained. *)
Theorem fetch_queries
    (decode : jsstring -> option Decoded) (canParse : jsstring -> bool)
    (insert : list NostrEvent -> NostrEvent -> list NostrEvent)
    (env : Env) (st : State)
    (relays authors : list jsstring) (kinds : list Z)
    (sig : option (nat * option bool)) :
  let run := fetchEvents decode canParse insert env st in
  In (AllEventsIterator relays authors kinds sig) (traceOf run) ->
  relays <> []
  /\ exists pk,
      normalizePubkey decode (publicKey st) = Ok pk
      /\ authors = [pk]
      /\ ((relays = metadataRelays /\ kinds = [0; 10002]%Z /\ sig = None)
          \/ (kinds = [1%Z] /\ (exists tok, sig = Some tok)
              /\ extractWriteRelays canParse (relayListEvent (finalState run))
                 = Ok relays)).
Proof.
  cbv zeta. destruct (truthy (trim (publicKey st))) eqn:H.
  - rewrite fetchEvents_outcome by exact H. apply fetchOutcome_queries.
  - rewrite fetchEvents_blank by exact H. intros [].
Qed.

Lemma fetch_queries_witness :
  In (AllEventsIterator [js "wss://foreign.example"] [lowerKey] [1%Z]
        (Some (0, Some false)))
     (traceOf (fetchEvents noDecode (fun _ => true)
                 insertEventIntoDescendingList_spec foreignEnv
                 (set_publicKey lowerKey initialState)))
  /\ [js "wss://foreign.example"] <> [].
Proof.
  assert (H : In (AllEventsIterator [js "wss://foreign.example"] [lowerKey]
                    [1%Z] (Some (0, Some false)))
                (traceOf (fetchEvents noDecode (fun _ => true)
                            insertEventIntoDescendingList_spec foreignEnv
                            (set_publicKey lowerKey initialState))))
    by (vm_compute; tauto).
  split; [exact H|].
  exact (proj1 (fetch_queries noDecode (fun _ => true)
                  insertEventIntoDescendingList_spec foreignEnv
                  (set_publicKey lowerKey initialState) _ _ _ _ H)).
Defined.

(** X7: a fetch keeps the abort controllers in order.  From a state whose
    current controller is unsignalled it ends in such a state, a
    controller that was signalled stays signalled, and no controller is
    dropped; without a click on the abort button the fetch neither creates
    nor signals a controller, so the next fetch is given the same token. *)
Theorem fetch_keeps_controllers
    (decode : jsstring -> option Decoded) (canParse : jsstring -> bool)
    (insert : list NostrEvent -> NostrEvent -> list NostrEvent)
    (env : Env) (st : State) :
  wfTokens st ->
  let final := finalState (fetchEvents decode canParse insert env st) in
  wfTokens final
  /\ controller st <= controller final
  /\ length (signals st) <= length (signals final)
  /\ (forall t, aborted st t = Some true -> aborted final t = Some true)
  /\ ((forall r a k, ~ In ClickAbort (arrivals (transport env r a k))) ->
      controller final = controller st /\ signals final = signals st).
Proof.
  intros Hwf. cbv zeta. destruct (truthy (trim (publicKey st))) eqn:H.
  - rewrite fetchEvents_outcome by exact H.
    destruct (fetchOutcome_tokens decode canParse insert env st)
      as (arr1 & arr2 & H1 & H2 & Hc & Hs).
    assert (Hwf0 : wfTokens (startFetch st)) by exact Hwf.
    pose proof (runLoop_wf discoveryStep discoveryStep_tokens arr1 _ Hwf0)
      as Hwf1.
    pose proof (runLoop_wf (mergeStep insert) (mergeStep_tokens insert)
                  arr2 _ Hwf1) as Hwf2.
    unfold wfTokens, aborted in *. rewrite Hc, Hs.
    split; [exact Hwf2|]. split; [|split; [|split]].
    + etransitivity;
        [|exact (runLoop_controller_le (mergeStep insert)
                   (mergeStep_tokens insert) arr2 _ Hwf1)].
      exact (runLoop_controller_le discoveryStep discoveryStep_tokens
               arr1 _ Hwf0).
    + etransitivity;
        [|exact (runLoop_signals_length (mergeStep insert) arr2 _
                   (mergeStep_tokens insert))].
      exact (runLoop_signals_length discoveryStep arr1 (startFetch st)
               discoveryStep_tokens).
    + intros t Ht.
      apply (runLoop_keeps_signalled (mergeStep insert)
               (mergeStep_tokens insert)).
      now apply (runLoop_keeps_signalled discoveryStep discoveryStep_tokens).
    + intros Hnone.
      assert (Hn1 : ~ In ClickAbort arr1).
      { destruct H1 as [->|(r & a & k & ->)]; [intros [] | apply Hnone]. }
      assert (Hn2 : ~ In ClickAbort arr2).
      { destruct H2 as [->|(r & a & k & ->)]; [intros [] | apply Hnone]. }
      destruct (runLoop_no_click_tokens (mergeStep insert) arr2
                  (runLoop discoveryStep arr1 (startFetch st))
                  (mergeStep_tokens insert) Hn2) as [-> ->].
      exact (runLoop_no_click_tokens discoveryStep arr1 (startFetch st)
               discoveryStep_tokens Hn1).
  - rewrite fetchEvents_blank by exact H. unfold finalState. cbn [fst].
    repeat split; auto.
Qed.

Lemma fetch_keeps_controllers_witness :
  wfTokens (set_publicKey lowerKey initialState)
  /\ wfTokens (finalState
                (fetchEvents noDecode (fun _ => true)
                   insertEventIntoDescendingList_spec foreignEnv
                   (set_publicKey lowerKey initialState))).
Proof.
  split; [reflexivity|].
  exact (proj1 (fetch_keeps_controllers noDecode (fun _ => true)
                  insertEventIntoDescendingList_spec foreignEnv
                  (set_publicKey lowerKey initialState) eq_refl)).
Defined.

(** ** A relay list with a relay reference without a value *)

Lemma filterTags_ok (canParse : jsstring -> bool) (l kept : list (list jsstring)) :
  filterTags canParse l = Ok kept -> Forall rTagHasUrl l.
Proof.
  revert kept. induction l as [|tag l IH]; intros kept H; [constructor|].
  cbn [filterTags] in H.
  destruct (isWriteRelayTag canParse tag) as [keep|] eqn:Et; [|discriminate].
  destruct (filterTags canParse l) as [kept'|] eqn:El; [|discriminate].
  constructor; [|exact (IH kept' eq_refl)].
  unfold isWriteRelayTag, rTagHasUrl in *. intros H0.
  apply tagIs_true in H0. rewrite H0 in Et.
  destruct (tag !! 1); [eauto | discriminate].
Qed.

Lemma extractWriteRelays_ok (canParse : jsstring -> bool) (ev : NostrEvent)
    (relays : list jsstring) :
  kind ev = 10002%Z ->
  extractWriteRelays canParse (Some ev) = Ok relays ->
  Forall rTagHasUrl (tags ev).
Proof.
  intros Hk. unfold extractWriteRelays. rewrite Hk. cbn [Z.eqb Pos.eqb negb].
  destruct (filterTags canParse (tags ev)) as [kept|] eqn:Ef; [|discriminate].
  intros _. exact (filterTags_ok _ _ _ Ef).
Qed.

Lemma extractWriteRelays_throws (canParse : jsstring -> bool)
    (event : option NostrEvent) (e : Exn) :
  extractWriteRelays canParse event = Throw e -> e = TypeError.
Proof.
  unfold extractWriteRelays. destruct event as [ev|]; [|discriminate].
  destruct (negb _); [discriminate|].
  destruct (filterTags canParse (tags ev)) as [kept|e'] eqn:Ef; [discriminate|].
  intros [= <-]. now apply filterTags_throws in Ef as [-> _].
Qed.

(** X8: when the relay list a fetch retains has a tag ["r"] without a
    second element and the discovery query completed, the fetch ends in
    its [catch] block with the [TypeError] of [extractWriteRelays]: the
    error box holds its message, the query for the posts is never opened
    and the feed stays empty. *)
Theorem fetch_malformed_relay_list
    (decode : jsstring -> option Decoded) (canParse : jsstring -> bool)
    (insert : list NostrEvent -> NostrEvent -> list NostrEvent)
    (env : Env) (st : State) (pk : jsstring) (r : NostrEvent) :
  truthy (trim (publicKey st)) = true ->
  normalizePubkey decode (publicKey st) = Ok pk ->
  ending (transport env metadataRelays [pk] [0; 10002]%Z) = None ->
  relayListEvent
    (finalState (fetchEvents decode canParse insert env st)) = Some r ->
  ~ Forall rTagHasUrl (tags r) ->
  let run := fetchEvents decode canParse insert env st in
  error (finalState run) = Some MsgTypeError
  /\ events (finalState run) = []
  /\ In (ConsoleError TypeError) (traceOf run)
  /\ (forall relays authors kinds sig,
        In (AllEventsIterator relays authors kinds sig) (traceOf run) ->
        kinds = [0; 10002]%Z).
Proof.
  intros H Hnorm Hend Hr Hbad. cbv zeta.
  rewrite fetchEvents_outcome in * by exact H.
  revert Hr. unfold fetchOutcome. rewrite Hnorm. cbv zeta. rewrite Hend.
  pose proof (proj1 (discovery_loop_snapshots
                       (arrivals (transport env metadataRelays [pk]
                                    [0; 10002]%Z))
                       (startFetch st) []
                       (fun e (H : In e []) => match H with end)
                       (fun a => ltac:(cbn [startFetch profileEvents];
                                       rewrite lookup_empty;
                                       intros e [])))) as Hsnap.
  destruct (extractWriteRelays canParse _) as [wr|e] eqn:Hx.
  - destruct (ending (transport env wr [pk] [1]%Z)) as [e|];
      match goal with
      | |- context [finishFetch env ?s ?t] =>
          destruct (finishFetch_state env s t) as (_ & _ & -> & _)
      end;
      cbn [caught set_error relayListEvent];
      rewrite (proj1 (runLoop_merge_snapshots insert _ _));
      intros Hr; rewrite Hr in Hx, Hsnap;
      destruct Hsnap as (i & _ & Hk & _);
      exfalso; apply Hbad; exact (extractWriteRelays_ok _ _ _ Hk Hx).
  - apply extractWriteRelays_throws in Hx as ->.
    match goal with
    | |- context [finishFetch env ?s ?t] =>
        destruct (finishFetch_state env s t) as (-> & _ & -> & -> & _);
        destruct (finishFetch_fields env s t) as (-> & _)
    end.
    cbn [caught set_error relayListEvent error events messageOf].
    intros _. rewrite runLoop_discovery_events.
    split; [reflexivity|]. split; [reflexivity|]. split.
    + cbn [In app]. auto.
    + intros relays authors kinds sig Hin. split_in Hin.
      now injection Hin as <- <- <- <-.
Qed.

Lemma fetch_malformed_relay_list_witness :
  error (finalState
           (fetchEvents noDecode (fun _ => true)
              insertEventIntoDescendingList_spec malformedEnv
              (set_publicKey lowerKey initialState)))
  = Some MsgTypeError.
Proof.
  refine (proj1 (fetch_malformed_relay_list noDecode (fun _ => true)
                   insertEventIntoDescendingList_spec malformedEnv
                   (set_publicKey lowerKey initialState) lowerKey
                   relayListMissingUrl eq_refl eq_refl eq_refl _ _)).
  - vm_compute. reflexivity.
  - intros Hall. inversion Hall as [|? ? Ht _]; subst.
    destruct (Ht eq_refl) as [? ?]. discriminate.
Defined.

(** ** The filtered view *)

Lemma filter_filter_and {A} (p q : A -> bool) (l : list A) :
  List.filter q (List.filter p l) = List.filter (fun x => p x && q x) l.
Proof.
  induction l as [|x l IH]; simpl; [reflexivity|].
  destruct (p x); simpl; [destruct (q x); now rewrite IH | exact IH].
Qed.

Lemma filter_idem {A} (p : A -> bool) (l : list A) :
  List.filter p (List.filter p l) = List.filter p l.
Proof.
  induction l as [|x l IH]; simpl; [reflexivity|].
  destruct (p x) eqn:E; simpl; [rewrite E; now rewrite IH | exact IH].
Qed.

Lemma filter_sublist {A} (p : A -> bool) (l : list A) :
  sublist (List.filter p l) l.
Proof.
  induction l as [|x l IH]; simpl; [constructor|].
  destruct (p x); now constructor.
Qed.

Lemma filter_StronglySorted {A} (R : A -> A -> Prop) (p : A -> bool)
    (l : list A) :
  StronglySorted R l -> StronglySorted R (List.filter p l).
Proof.
  induction 1 as [|x l Hs IH Hx]; simpl; [constructor|].
  destruct (p x); [|exact IH]. constructor; [exact IH|].
  apply List.Forall_forall. intros y Hy. apply filter_In in Hy as [Hy _].
  exact (proj1 (List.Forall_forall _ _) Hx y Hy).
Qed.

Lemma filter_NoDup_map {A B} (f : A -> B) (p : A -> bool) (l : list A) :
  List.NoDup (map f l) -> List.NoDup (map f (List.filter p l)).
Proof.
  induction l as [|x l IH]; simpl; [auto|].
  intros H. inversion H as [|? ? Hx Hl]; subst.
  destruct (p x); [|now apply IH]. simpl. constructor; [|now apply IH].
  intros Hin. apply Hx. apply in_map_iff in Hin as (y & Ey & Hy).
  apply filter_In in Hy as [Hy _]. rewrite <- Ey. now apply in_map.
Qed.

Lemma filteredEvents_visible (toLowerCase : jsstring -> jsstring)
    (feed : list NostrEvent) (searchQuery : jsstring) :
  filteredEvents toLowerCase feed searchQuery
  = List.filter (visible toLowerCase searchQuery) feed.
Proof.
  unfold filteredEvents, visible.
  destruct (truthy (trim searchQuery)); cbn [negb].
  - rewrite filter_filter_and. reflexivity.
  - induction feed as [|x l IH]; simpl; [reflexivity|].
    rewrite andb_true_r. destruct (kind x =? 1)%Z; now rewrite IH.
Qed.

(** X9: the filtered view is the feed with documents left out and the
    rest in the order of the feed.  It holds kind-1 documents only and
    never more documents than the feed; filtering the view again with the
    same query, or with the query trimmed, changes nothing; a feed that is
    in order and free of repeated identities gives a view that is. *)
Theorem filteredEvents_view (toLowerCase : jsstring -> jsstring)
    (feed : list NostrEvent) (searchQuery : jsstring) :
  let view := filteredEvents toLowerCase feed searchQuery in
  sublist view feed
  /\ Forall (fun e => kind e = 1%Z) view
  /\ length view <= length feed
  /\ filteredEvents toLowerCase view searchQuery = view
  /\ filteredEvents toLowerCase feed (trim searchQuery) = view
  /\ (forall R : NostrEvent -> NostrEvent -> Prop,
        StronglySorted R feed -> StronglySorted R view)
  /\ (List.NoDup (map id feed) -> List.NoDup (map id view)).
Proof.
  cbv zeta. rewrite !filteredEvents_visible.
  split; [apply filter_sublist|]. split.
  { apply List.Forall_forall. intros e He. apply filter_In in He as [_ He].
    unfold visible in He. apply andb_true_iff in He as [He _].
    now apply Z.eqb_eq. }
  split; [apply sublist_length, filter_sublist|].
  split; [apply filter_idem|]. split.
  { unfold visible. now rewrite trim_idem. }
  split; [intros R; apply filter_StronglySorted | apply filter_NoDup_map].
Qed.

(** ** normalizePubkey and whitespace *)

Lemma trimStart_app (a b : jsstring) :
  trimStart (a ++ b)
  = match trimStart a with
    | [] => trimStart b
    | _ => trimStart a ++ b
    end.
Proof.
  induction a as [|c a IH]; simpl; [reflexivity|].
  destruct (isWhiteSpace c); [exact IH | reflexivity].
Qed.

Lemma trimStart_spaces (ws : jsstring) :
  forallb isWhiteSpace ws = true -> trimStart ws = [].
Proof.
  induction ws as [|c ws IH]; simpl; [reflexivity|].
  intros H. apply andb_true_iff in H as [-> H]. now apply IH.
Qed.

Lemma trimEnd_spaces_r (s ws : jsstring) :
  forallb isWhiteSpace ws = true -> trimEnd (s ++ ws) = trimEnd s.
Proof.
  intros H. unfold trimEnd. rewrite rev_app_distr, trimStart_app.
  rewrite trimStart_spaces; [reflexivity|].
  rewrite forallb_forall in *. intros c Hc. apply H. now apply in_rev.
Qed.

Lemma trim_padding (ws1 s ws2 : jsstring) :
  forallb isWhiteSpace ws1 = true -> forallb isWhiteSpace ws2 = true ->
  trim (ws1 ++ s ++ ws2) = trim s.
Proof.
  intros H1 H2. unfold trim.
  rewrite trimStart_app, (trimStart_spaces ws1 H1), trimStart_app.
  destruct (trimStart s) as [|c r] eqn:Es.
  - rewrite (trimStart_spaces ws2 H2). reflexivity.
  - now apply trimEnd_spaces_r.
Qed.

(** X10: whitespace before and after the input plays no part in
    [normalizePubkey]: an input padded with white space or line
    terminators gives the result of the input without the padding. *)
Theorem normalizePubkey_padding (decode : jsstring -> option Decoded)
    (ws1 s ws2 : jsstring) :
  forallb isWhiteSpace ws1 = true -> forallb isWhiteSpace ws2 = true ->
  normalizePubkey decode (ws1 ++ s ++ ws2) = normalizePubkey decode s.
Proof.
  intros H1 H2. unfold normalizePubkey. now rewrite trim_padding.
Qed.

Lemma normalizePubkey_padding_witness :
  normalizePubkey noDecode ([9; 32; 12288]%N ++ lowerKey ++ [13; 10]%N)
  = normalizePubkey noDecode lowerKey.
Proof.
  exact (normalizePubkey_padding noDecode [9; 32; 12288]%N lowerKey
           [13; 10]%N eq_refl eq_refl).
Defined.

(** X11: an input that, trimmed, holds hexadecimal digits only but not
    exactly 64 of them is rejected with the format error, whatever the
    decoder does: a key that is too short is not padded and one that is
    too long is not cut. *)
Theorem normalizePubkey_hex_length (decode : jsstring -> option Decoded)
    (input : jsstring) :
  forallb isHexDigit (trim input) = true ->
  length (trim input) <> 64 ->
  normalizePubkey decode input = Throw InvalidFormat.
Proof.
  intros Hhex Hlen. unfold normalizePubkey.
  assert (H64 : isHex64 (trim input) = false).
  { unfold isHex64. apply andb_false_iff. left. now apply Nat.eqb_neq. }
  rewrite H64.
  destruct (startsWith (trim input) (js "npub")) eqn:Hp; [|reflexivity].
  exfalso. unfold startsWith in Hp. apply isPrefix_app in Hp as [r Hr].
  rewrite Hr in Hhex. discriminate.
Qed.

Lemma normalizePubkey_hex_length_witness :
  normalizePubkey noDecode (lowerKey ++ js "0") = Throw InvalidFormat
  /\ normalizePubkey noDecode (js "abcdef") = Throw InvalidFormat.
Proof.
  split.
  - apply (normalizePubkey_hex_length noDecode (lowerKey ++ js "0"));
      [reflexivity | vm_compute; discriminate].
  - apply (normalizePubkey_hex_length noDecode (js "abcdef"));
      [reflexivity | vm_compute; discriminate].
Defined.

(** ** The relays extractWriteRelays selects *)

Lemma writeRelayUrl_Some (canParse : jsstring -> bool) (tag : list jsstring)
    (u : jsstring) :
  writeRelayUrl canParse tag = Some u
  <-> tag !! 0 = Some (js "r") /\ tag !! 1 = Some u
      /\ startsWith u (js "wss://") = true /\ canParse u = true
      /\ tag !! 2 <> Some (js "read").
Proof.
  unfold writeRelayUrl.
  destruct (tag !! 0) as [name|] eqn:E0;
    [|split; [discriminate | intros (? & _); discriminate]].
  destruct (tag !! 1) as [url|] eqn:E1;
    [|split; [discriminate | intros (_ & ? & _); discriminate]].
  destruct (jsEqb name (js "r")) eqn:En;
    [apply jsEqb_true in En | apply jsEqb_false in En];
    destruct (startsWith url (js "wss://")) eqn:Es;
    destruct (canParse url) eqn:Ec;
    destruct (decide (tag !! 2 = Some (js "read"))) as [Hr|Hr];
    rewrite ?(bool_decide_eq_true_2 _ Hr), ?(bool_decide_eq_false_2 _ Hr);
    cbn [andb negb];
    (split;
     [intros H; try discriminate; injection H as <-; subst; auto
     |intros (H0 & H1 & H2 & H3 & H4);
      injection H0 as ->; injection H1 as <-;
      try contradiction; try congruence]).
Qed.

(** X12: on a relay list whose "r" tags all carry a value,
    [extractWriteRelays] returns, in the order of the tags and with
    repetitions kept, the second element of every tag that starts with
    "r", whose second element starts with "wss://" and can be parsed as a
    URL, and whose third element is not "read"; it returns the default
    relays when there is no such tag. *)
Theorem extractWriteRelays_selection (canParse : jsstring -> bool)
    (ev : NostrEvent) (relays : list jsstring) :
  kind ev = 10002%Z ->
  extractWriteRelays canParse (Some ev) = Ok relays ->
  let selected := omap (writeRelayUrl canParse) (tags ev) in
  relays = match selected with [] => defaultRelays | _ => selected end
  /\ (forall u, In u selected <->
        exists tag, In tag (tags ev)
          /\ tag !! 0 = Some (js "r") /\ tag !! 1 = Some u
          /\ startsWith u (js "wss://") = true /\ canParse u = true
          /\ tag !! 2 <> Some (js "read")).
Proof.
  intros Hk Hok. cbv zeta. split.
  - pose proof (extractWriteRelays_ok canParse ev relays Hk Hok) as Hall.
    rewrite (extractWriteRelays_refines canParse (Some ev) (fun _ => Hall)) in Hok.
    injection Hok as <-. unfold resolveContentRelays. rewrite Hk.
    cbn [Z.eqb Pos.eqb]. now destruct (omap _ _).
  - intros u. rewrite <- list_elem_of_In, list_elem_of_omap. split.
    + intros (tag & Ht & Hu). exists tag. split; [now apply list_elem_of_In|].
      now apply writeRelayUrl_Some.
    + intros (tag & Ht & Hu). exists tag. split; [now apply list_elem_of_In|].
      now apply writeRelayUrl_Some.
Qed.

Lemma extractWriteRelays_selection_witness :
  extractWriteRelays (fun _ => true) (Some relayListScenario)
  = Ok [js "wss://a.example"]
  /\ [js "wss://a.example"]
     = match omap (writeRelayUrl (fun _ => true)) (tags relayListScenario) with
       | [] => defaultRelays
       | selected => selected
       end.
Proof.
  split; [reflexivity|].
  exact (proj1 (extractWriteRelays_selection (fun _ => true) relayListScenario
                  [js "wss://a.example"] eq_refl eq_refl)).
Defined.

(** ** What the parts of a highlight hold *)

Lemma isPrefix_firstn (q s : jsstring) :
  isPrefix q s = true -> firstn (length q) s = q.
Proof.
  intros H. apply isPrefix_app in H as [r ->]. apply take_app_length.
Qed.

Lemma isPrefix_in_slice (q s : jsstring) (k n : nat) :
  isPrefix q (skipn k (firstn n s)) = true -> isPrefix q (skipn k s) = true.
Proof.
  intros H. apply isPrefix_app in H as [r Hr]. apply isPrefix_app.
  assert (Hs : skipn k s = skipn k (firstn n s ++ skipn n s))
    by now rewrite firstn_skipn.
  rewrite Hs, List.skipn_app, Hr, <- app_assoc. eauto.
Qed.

Lemma slice_length (s : jsstring) (a b : nat) :
  b <= length s -> length (slice s a b) = b - a.
Proof.
  intros H. unfold slice. rewrite length_firstn, length_skipn. lia.
Qed.

(** A slice in which no occurrence of [ql] starts does not include [ql]. *)
Lemma slice_no_occurrence (tl ql : jsstring) (a b : nat) :
  ql <> [] ->
  (forall j, a <= j < b -> isPrefix ql (skipn j tl) = false) ->
  includes (slice tl a b) ql = false.
Proof.
  intros Hq Hnone. unfold includes.
  destruct (indexOf (slice tl a b) ql 0) as [i|] eqn:Ei; [|reflexivity].
  exfalso. apply indexOf_Some in Ei as (_ & Hfit & _ & Hs); [|exact Hq].
  change (skipn 0 (slice tl a b)) with (slice tl a b) in Hs.
  rewrite Nat.sub_0_r in Hs. apply search_Some in Hs as [Hp _].
  unfold slice in Hp, Hfit. apply isPrefix_in_slice in Hp.
  rewrite skipn_skipn in Hp.
  rewrite length_firstn, length_skipn in Hfit.
  assert (1 <= length ql) by (destruct ql; [contradiction | simpl; lia]).
  rewrite Hnone in Hp by lia. discriminate.
Qed.

(** The loop returns what it was given or has pushed a slice. *)
Lemma highlightLoop_progress (fuel : nat) (tl ql : jsstring)
    (adv lastIndex : nat) (index : option nat) (parts : list Segment)
    (r : nat * list Segment) :
  highlightLoop fuel tl ql adv lastIndex index parts = Some r ->
  r = (lastIndex, parts) \/ snd r <> [].
Proof.
  revert lastIndex index parts.
  induction fuel as [|fuel IH]; intros lastIndex index parts;
    destruct index as [i|]; cbn [highlightLoop]; try discriminate;
    try (intros [= <-]; now left).
  intros H. right. destruct (IH _ _ _ H) as [->|Hne]; [|exact Hne].
  cbn [snd]. intros Hnil. apply app_eq_nil in Hnil as [_ Hnil]. discriminate.
Qed.

Section Sound.

Variables (tl ql : jsstring).
Hypothesis ql_nonempty : ql <> [].

Lemma highlightLoop_sound (fuel lastIndex : nat) (parts : list Segment)
    (last' : nat) (parts' : list Segment) :
  Forall (segmentSound tl ql) parts ->
  highlightLoop fuel tl ql (length ql) lastIndex (indexOf tl ql lastIndex) parts
  = Some (last', parts') ->
  Forall (segmentSound tl ql) parts'
  /\ search ql (skipn last' tl) = None.
Proof using ql_nonempty.
  revert lastIndex parts.
  induction fuel as [|fuel IH]; intros lastIndex parts Hparts;
    destruct (indexOf tl ql lastIndex) as [i|] eqn:Ei; cbn [highlightLoop];
    try discriminate;
    try (intros [= <- <-]; split;
         [exact Hparts | exact (indexOf_None _ _ _ ql_nonempty Ei)]).
  apply IH.
  apply indexOf_Some in Ei as (H1 & H2 & H3 & H4); [|exact ql_nonempty].
  apply search_Some in H4 as [Hocc Hfirst].
  rewrite skipn_skipn in Hocc.
  replace (i - lastIndex + lastIndex) with i in Hocc by lia.
  apply List.Forall_app. split.
  - destruct (Nat.ltb_spec lastIndex i) as [Hlt|Hge]; [|exact Hparts].
    apply List.Forall_app. split; [exact Hparts|].
    constructor; [|constructor].
    unfold segmentSound. cbn [matched start stop].
    split; [exact Hlt|]. split; [lia|]. intros j Hj.
    specialize (Hfirst (j - lastIndex)). rewrite skipn_skipn in Hfirst.
    replace (j - lastIndex + lastIndex) with j in Hfirst by lia.
    apply Hfirst. lia.
  - constructor; [|constructor].
    unfold segmentSound. cbn [matched start stop]. auto.
Qed.

End Sound.

Section Parts.

Variable toLowerCase : jsstring -> jsstring.
Variables (payload query : jsstring).

(** On this payload and this query lower-casing works unit by unit: it
    keeps their lengths, and the lower case of a slice of the payload is
    the slice of its lower case.  [String.prototype.toLowerCase] does so on
    text whose units each have a lower case of one unit that does not
    depend on the units around it (Basic Latin, for one); it does not on
    a payload that holds U+0130, which has a lower case of two units. *)
Hypothesis payload_length : length (toLowerCase payload) = length payload.
Hypothesis query_length : length (toLowerCase query) = length query.
Hypothesis payload_slice : forall a b,
  toLowerCase (slice payload a b) = slice (toLowerCase payload) a b.

Lemma highlightSegments_sound :
  query <> [] -> trim query = query ->
  exists segments,
    highlightSegments toLowerCase payload query = Some segments
    /\ Forall (segmentSound (toLowerCase payload) (toLowerCase query)) segments
    /\ (payload <> [] -> segments <> []).
Proof using payload_length query_length.
  clear payload_slice. intros Hq Htrim.
  assert (Hql : toLowerCase query <> []).
  { intros H. apply (f_equal (@length N)) in H.
    rewrite query_length in H. destruct query; [tauto | discriminate]. }
  assert (Hadv : 1 <= length query) by (destruct query; [tauto | simpl; lia]).
  unfold highlightSegments. rewrite Htrim.
  destruct (highlightLoop_terminates (toLowerCase payload)
              (toLowerCase query) (length query) Hql Hadv
              (S (length (toLowerCase payload))) 0 [])
    as [[lastIndex parts] Hrun]; [intros; lia|].
  rewrite Hrun. eexists. split; [reflexivity|].
  rewrite <- query_length in Hrun.
  destruct (highlightLoop_sound (toLowerCase payload) (toLowerCase query) Hql
              _ 0 [] _ _ (List.Forall_nil _) Hrun) as [Hsound Hnone].
  destruct (Nat.ltb_spec lastIndex (length payload)) as [Hlt|Hge].
  - split; [|intros _; now destruct parts].
    apply List.Forall_app. split; [exact Hsound|].
    constructor; [|constructor].
    unfold segmentSound. cbn [matched start stop].
    split; [exact Hlt|]. split; [rewrite payload_length; lia|].
    intros j Hj. pose proof (search_None _ _ Hnone (j - lastIndex)) as Hs.
    rewrite skipn_skipn in Hs.
    now replace (j - lastIndex + lastIndex) with j in Hs by lia.
  - split; [exact Hsound|]. intros Hp.
    destruct (highlightLoop_progress _ _ _ _ _ _ _ _ Hrun) as [[= -> ->]|Hne];
      [|exact Hne].
    destruct payload; [tauto | simpl in Hge; lia].
Qed.

Lemma segmentSound_part (s : Segment) :
  query <> [] ->
  segmentSound (toLowerCase payload) (toLowerCase query) s ->
  (if matched s
   then toLowerCase (text (partOf payload s)) = toLowerCase query
   else includes (toLowerCase (text (partOf payload s))) (toLowerCase query)
        = false)
  /\ text (partOf payload s) <> [].
Proof using payload_length query_length payload_slice.
  intros Hq. unfold segmentSound, partOf. cbn [text].
  assert (Hql : toLowerCase query <> []).
  { intros H. apply (f_equal (@length N)) in H.
    rewrite query_length in H. destruct query; [tauto | discriminate]. }
  assert (Hlen : 1 <= length (toLowerCase query))
    by (destruct (toLowerCase query); [tauto | simpl; lia]).
  assert (Hne : forall a b, a < b -> b <= length payload ->
                            slice payload a b <> []).
  { intros a b Hab Hb H. apply (f_equal (@length N)) in H.
    rewrite slice_length in H by exact Hb. simpl in H. lia. }
  rewrite payload_slice. rewrite payload_length.
  destruct (matched s).
  - intros (Hstop & Hfit & Hocc). split; [|apply Hne; lia].
    rewrite Hstop. unfold slice.
    replace (start s + length (toLowerCase query) - start s)
      with (length (toLowerCase query)) by lia.
    now apply isPrefix_firstn.
  - intros (Hlt & Hfit & Hnone). split; [|now apply Hne].
    now apply slice_no_occurrence.
Qed.

Lemma splitTextForHighlight_sound :
  query <> [] -> trim query = query ->
  exists parts,
    splitTextForHighlight toLowerCase payload query = Some parts
    /\ Forall (fun p =>
                 if isMatch p
                 then toLowerCase (text p) = toLowerCase query
                 else includes (toLowerCase (text p)) (toLowerCase query)
                      = false) parts
    /\ (payload <> [] -> Forall (fun p => text p <> []) parts).
Proof using payload_length query_length payload_slice.
  intros Hq Htrim.
  destruct (highlightSegments_sound Hq Htrim)
    as (segments & Hseg & Hsound & Hne).
  unfold splitTextForHighlight. rewrite Htrim, Hseg.
  assert (Ht : truthy query = true) by (now destruct query).
  rewrite Ht. cbn [negb]. eexists. split; [reflexivity|].
  destruct segments as [|s segments].
  - cbn [map length Nat.ltb Nat.leb]. split.
    + constructor; [|constructor]. cbn [isMatch text].
      destruct (decide (payload = [])) as [Hp|Hp];
        [|exfalso; now apply Hne].
      assert (Hl : toLowerCase payload = []).
      { pose proof payload_length as Hl. rewrite Hp in Hl at 2.
        now destruct (toLowerCase payload). }
      rewrite Hl. unfold includes, indexOf. cbn [length Nat.min skipn search].
      assert (Hql : toLowerCase query <> []).
      { intros H. apply (f_equal (@length N)) in H.
        rewrite query_length in H. destruct query; [tauto | discriminate]. }
      destruct (toLowerCase query); [tauto | reflexivity].
    + intros Hp. exfalso. now apply Hne.
  - cbn [length Nat.ltb Nat.leb].
    assert (Hall : forall seg, In seg (s :: segments) ->
              (if isMatch (partOf payload seg)
               then toLowerCase (text (partOf payload seg)) = toLowerCase query
               else includes (toLowerCase (text (partOf payload seg)))
                      (toLowerCase query) = false)
              /\ text (partOf payload seg) <> []).
    { intros seg Hin.
      exact (segmentSound_part seg Hq
               (proj1 (List.Forall_forall _ _) Hsound seg Hin)). }
    split; [|intros _]; apply List.Forall_forall; intros p Hp;
      apply in_map_iff in Hp as (seg & <- & Hin); now apply Hall.
Qed.

End Parts.

Lemma toLowerCaseLatin_length (s : jsstring) :
  length (toLowerCaseLatin s) = length s.
Proof. apply length_map. Qed.

Lemma toLowerCaseLatin_slice (s : jsstring) (a b : nat) :
  toLowerCaseLatin (slice s a b) = slice (toLowerCaseLatin s) a b.
Proof.
  unfold toLowerCaseLatin, slice. now rewrite skipn_map, firstn_map.
Qed.

(** Without U+0130 [toLowerCaseDotted] works unit by unit. *)
Lemma toLowerCaseDotted_latin (s : jsstring) :
  Forall (fun c => c <> 304%N) s -> toLowerCaseDotted s = toLowerCaseLatin s.
Proof.
  unfold toLowerCaseDotted, toLowerCaseLatin.
  induction 1 as [|c s Hc _ IH]; cbn [map concat]; [reflexivity|].
  rewrite IH. unfold lowerUnits.
  destruct (N.eqb_spec c 304) as [E|_]; [contradiction | reflexivity].
Qed.

Lemma toLowerCaseDotted_slice (s : jsstring) (a b : nat) :
  Forall (fun c => c <> 304%N) s ->
  toLowerCaseDotted (slice s a b) = slice (toLowerCaseDotted s) a b.
Proof.
  intros H. rewrite !toLowerCaseDotted_latin; [apply toLowerCaseLatin_slice | exact H|].
  unfold slice. now apply Forall_take, Forall_drop.
Qed.

(** X13: for a payload and a query on which lower-casing works unit by
    unit (it keeps the length of each, and the lower case of a slice of
    the payload is the slice of its lower case; so it is for text in Basic
    Latin, and not for a payload that holds U+0130), the query given
    trimmed, as the page gives it, the parts of [splitTextForHighlight]
    are right and complete: the text of a part marked as a match is the
    query up to case, the text of a part not marked does not include the
    query in any case, and no part of a text that is not empty is
    empty. *)
Theorem splitTextForHighlight_parts (toLowerCase : jsstring -> jsstring)
    (payload query : jsstring) :
  length (toLowerCase payload) = length payload ->
  length (toLowerCase query) = length query ->
  (forall a b, toLowerCase (slice payload a b) = slice (toLowerCase payload) a b) ->
  query <> [] -> trim query = query ->
  exists parts,
    splitTextForHighlight toLowerCase payload query = Some parts
    /\ Forall (fun p =>
                 if isMatch p
                 then toLowerCase (text p) = toLowerCase query
                 else includes (toLowerCase (text p)) (toLowerCase query)
                      = false) parts
    /\ (payload <> [] -> Forall (fun p => text p <> []) parts).
Proof.
  intros Hp Hq Hslice. now apply splitTextForHighlight_sound.
Qed.

(** With a lower-casing that has the two units for U+0130, on a payload
    that does not hold it. *)
Lemma splitTextForHighlight_parts_witness :
  exists parts,
    splitTextForHighlight toLowerCaseDotted (js "conCATcat!") (js "Cat")
    = Some parts
    /\ Forall (fun p =>
                 if isMatch p
                 then toLowerCaseDotted (text p) = toLowerCaseDotted (js "Cat")
                 else includes (toLowerCaseDotted (text p))
                        (toLowerCaseDotted (js "Cat")) = false) parts
    /\ (js "conCATcat!" <> [] -> Forall (fun p => text p <> []) parts).
Proof.
  refine (splitTextForHighlight_parts toLowerCaseDotted (js "conCATcat!")
            (js "Cat") eq_refl eq_refl _ _ eq_refl); [|discriminate].
  intros a b. apply toLowerCaseDotted_slice. repeat constructor; discriminate.
Defined.

(** X14: when the query is blank, or does not occur in the text in any
    case, [splitTextForHighlight] returns the text whole, as one part that
    is not marked. *)
Theorem splitTextForHighlight_no_match (toLowerCase : jsstring -> jsstring)
    (payload query : jsstring) :
  truthy (trim query) = false
  \/ includes (toLowerCase payload) (toLowerCase (trim query)) = false ->
  splitTextForHighlight toLowerCase payload query
  = Some [{| text := payload; isMatch := false |}].
Proof.
  unfold splitTextForHighlight.
  destruct (truthy (trim query)) eqn:Hq; cbn [negb]; [|reflexivity].
  intros [H|H]; [discriminate|].
  unfold highlightSegments, includes in *.
  destruct (indexOf (toLowerCase payload) (toLowerCase (trim query)) 0);
    [discriminate|].
  cbn [highlightLoop].
  destruct payload as [|c r]; [reflexivity|].
  cbn [length Nat.ltb Nat.leb app map]. f_equal. f_equal.
  unfold partOf. cbn [start stop matched]. f_equal.
  unfold slice. rewrite Nat.sub_0_r. exact (firstn_all (c :: r)).
Qed.

Lemma splitTextForHighlight_no_match_witness :
  splitTextForHighlight toLowerCaseLatin (js "hot dog") (js " cat ")
  = Some [{| text := js "hot dog"; isMatch := false |}].
Proof.
  apply (splitTextForHighlight_no_match toLowerCaseLatin (js "hot dog")
           (js " cat ")).
  right. reflexivity.
Defined.

(** ** The profile of an author *)

Lemma readProfile_cases (jsonParse : jsstring -> option Json)
    (content : jsstring) :
  readProfile jsonParse content
  = match jsonParse content with
    | None | Some JNull => None
    | Some (JObject fields) =>
        Some {| picture := ownProperty (js "picture") fields;
                name := ownProperty (js "name") fields |}
    | Some _ => Some {| picture := None; name := None |}
    end.
Proof.
  unfold readProfile. destruct (jsonParse content) as [[]|]; reflexivity.
Qed.

(** X15: after the discovery loop of a fetch, [getProfile] reads the
    profile of an author from a kind-0 document of that author, the first
    delivered of those with the latest [created_at].  It returns [null]
    when no such document was delivered, when the content of that document
    is not JSON and when it is the JSON [null]; a JSON object gives its
    [picture] and [name], and any other JSON value gives a profile without
    either. *)
Theorem getProfile_after_discovery (jsonParse : jsstring -> option Json)
    (arr : list Arrival) (ending : option Exn) (st : State)
    (author : jsstring) :
  let profiles :=
    profileEvents
      (finalState (forAwait arr ending
                     (fun event => modify (discoveryStep event))
                     (startFetch st))) in
  exists newest,
    NewestFirst (fun e => kind e = 0%Z /\ pubkey e = author)
      (deliveredDocs arr) newest
    /\ getProfile jsonParse profiles author
       = match newest with
         | None => None
         | Some p =>
             match jsonParse (content p) with
             | None | Some JNull => None
             | Some (JObject fields) =>
                 Some {| picture := ownProperty (js "picture") fields;
                         name := ownProperty (js "name") fields |}
             | Some _ => Some {| picture := None; name := None |}
             end
         end.
Proof.
  cbv zeta. rewrite forAwait_modify. unfold finalState. cbn [fst].
  pose proof (proj2 (discovery_loop_snapshots arr (startFetch st) []
                       (fun e (H : In e []) => match H with end)
                       (fun a => ltac:(cbn [startFetch profileEvents];
                                       rewrite lookup_empty;
                                       intros e []))) author) as Hsnap.
  cbn [app] in Hsnap.
  exists (profileEvents (runLoop discoveryStep arr (startFetch st)) !! author).
  split; [exact Hsnap|]. unfold getProfile.
  destruct (profileEvents (runLoop discoveryStep arr (startFetch st)) !! author)
    as [p|]; [|reflexivity].
  destruct Hsnap as (i & _ & [Hk _] & _). rewrite Hk. cbn [Z.eqb negb].
  apply readProfile_cases.
Qed.

(** X16: where [URL.canParse] answers whether [new URL] accepts a string,
    [isValidImageUrl] never throws, and it answers [true] exactly for a
    string that can be parsed as a URL whose protocol is "https:";
    [undefined] and a value that is not a string are answered [false]. *)
Theorem isValidImageUrl_https (canParse : jsstring -> bool)
    (urlProtocol : jsstring -> Result jsstring) (url : option Json) :
  (forall u, canParse u = true -> exists p, urlProtocol u = Ok p) ->
  exists b,
    isValidImageUrl canParse urlProtocol url = Ok b
    /\ (b = true <->
        exists u, url = Some (JString u) /\ canParse u = true
                  /\ urlProtocol u = Ok (js "https:")).
Proof.
  intros Hparse. unfold isValidImageUrl.
  destruct url as [[| | | u | |]|];
    try (exists false; split; [reflexivity|];
         split; [discriminate | intros (u' & ? & _); discriminate]).
  destruct (canParse u) eqn:Ec.
  - destruct (Hparse u Ec) as [p Hp]. rewrite Hp.
    exists (jsEqb p (js "https:")). split; [reflexivity|].
    rewrite jsEqb_true. split.
    + intros ->. exists u. auto.
    + intros (u' & [= <-] & _ & Hu). congruence.
  - exists false. split; [reflexivity|].
    split; [discriminate | intros (u' & [= <-] & ? & _); congruence].
Qed.

Lemma isValidImageUrl_https_witness :
  isValidImageUrl sampleCanParse sampleProtocol
    (Some (JString (js "https://example.com/a.png"))) = Ok true
  /\ isValidImageUrl sampleCanParse sampleProtocol
       (Some (JString (js "not a url"))) = Ok false
  /\ exists b,
      isValidImageUrl sampleCanParse sampleProtocol
        (Some (JString (js "http://example.com/a.png"))) = Ok b
      /\ (b = true <->
          exists u, Some (JString (js "http://example.com/a.png"))
                    = Some (JString u)
                    /\ sampleCanParse u = true
                    /\ sampleProtocol u = Ok (js "https:")).
Proof.
  split; [reflexivity|]. split; [reflexivity|].
  apply (isValidImageUrl_https sampleCanParse sampleProtocol).
  intros u. unfold sampleCanParse, sampleProtocol.
  destruct (startsWith u (js "https://")); [eauto|].
  destruct (startsWith u (js "http://")); [eauto | discriminate].
Defined.

(** ** The page after a fetch *)

Lemma runLoop_discovery_fields (arr : list Arrival) (st : State) :
  publicKey (runLoop discoveryStep arr st) = publicKey st
  /\ beforeLoad (runLoop discoveryStep arr st) = beforeLoad st
  /\ searchQuery (runLoop discoveryStep arr st) = searchQuery st.
Proof.
  revert st. induction arr as [|a arr IH]; intros st; cbn [runLoop];
    [repeat split|].
  destruct a as [event|].
  - destruct (IH (discoveryStep event st)) as (-> & -> & ->).
    unfold discoveryStep. destruct (kind event =? 0)%Z.
    + destruct (profileEvents st !! pubkey event) as [existing|];
        [destruct (created_at existing <? created_at event)%Z|];
        repeat split.
    + destruct (kind event =? 10002)%Z; [|repeat split].
      destruct (relayListEvent st) as [current|];
        [destruct (created_at current <? created_at event)%Z|];
        repeat split.
  - destruct (IH (abort st)) as (-> & -> & ->). repeat split.
Qed.

Lemma runLoop_merge_fields
    (insert : list NostrEvent -> NostrEvent -> list NostrEvent)
    (arr : list Arrival) (st : State) :
  publicKey (runLoop (mergeStep insert) arr st) = publicKey st
  /\ beforeLoad (runLoop (mergeStep insert) arr st) = beforeLoad st
  /\ searchQuery (runLoop (mergeStep insert) arr st) = searchQuery st.
Proof.
  revert st. induction arr as [|a arr IH]; intros st; cbn [runLoop];
    [repeat split|].
  destruct a as [event|].
  - destruct (IH (mergeStep insert event st)) as (-> & -> & ->). repeat split.
  - destruct (IH (abort st)) as (-> & -> & ->). repeat split.
Qed.

(** X17: when a fetch with a non-blank input has completed, the spinner
    and the abort button are gone, and the fetch button is disabled only
    if the input is blank at that moment.  The feed block is shown exactly
    when the feed is not empty; when it is empty and the input is not, the
    page shows the error box or the notice that no posts were found, one
    of them and never both.  The search query plays no part: the search
    box is on the page while the fetch runs. *)
Theorem page_after_fetch
    (decode : jsstring -> option Decoded) (canParse : jsstring -> bool)
    (insert : list NostrEvent -> NostrEvent -> list NostrEvent)
    (env : Env) (st : State) :
  truthy (trim (publicKey st)) = true ->
  shutdownOutcome env = None ->
  let final := finalState (fetchEvents decode canParse insert env st) in
  spinnerShown final = false
  /\ abortButtonShown final = false
  /\ fetchButtonDisabled final = negb (truthy (trim (publicKey final)))
  /\ feedShown final = (0 <? length (events final))
  /\ emptyNoticeShown final
     = negb (feedShown final) && negb (errorShown final)
       && truthy (publicKey final).
Proof.
  intros Hkey Hshut. cbv zeta. rewrite fetchEvents_outcome by exact Hkey.
  assert (Hfin : forall s t,
            loading (finalState (finishFetch env s t)) = false).
  { intros s t. unfold finishFetch. rewrite Hshut. reflexivity. }
  assert (Hgoal : forall s t,
            beforeLoad s = false ->
            let final := finalState (finishFetch env s t) in
            spinnerShown final = false
            /\ abortButtonShown final = false
            /\ fetchButtonDisabled final
               = negb (truthy (trim (publicKey final)))
            /\ feedShown final = (0 <? length (events final))
            /\ emptyNoticeShown final
               = negb (feedShown final) && negb (errorShown final)
                 && truthy (publicKey final)).
  { intros s t Hb. cbv zeta.
    destruct (finishFetch_state env s t)
      as (He & _ & _ & Herr & _ & _ & Hp' & Hs' & Hb').
    unfold spinnerShown, abortButtonShown, fetchButtonDisabled,
      emptyNoticeShown, errorShown, feedShown.
    rewrite (Hfin s t), Hb', Hb.
    cbn [negb andb orb]. rewrite ?orb_false_r, ?andb_false_r, ?andb_true_r.
    repeat split. }
  fetch_paths decode canParse env st; apply Hgoal;
    cbn [caught set_error beforeLoad];
    rewrite ?(proj1 (proj2 (runLoop_merge_fields insert _ _))),
      ?(proj1 (proj2 (runLoop_discovery_fields _ _)));
    reflexivity.
Qed.

Lemma page_after_fetch_witness :
  emptyNoticeShown
    (finalState (fetchEvents noDecode (fun _ => true)
                   insertEventIntoDescendingList_spec quietEnv
                   (set_publicKey lowerKey initialState))) = true
  /\ spinnerShown
       (finalState (fetchEvents noDecode (fun _ => true)
                      insertEventIntoDescendingList_spec quietEnv
                      (set_publicKey lowerKey initialState))) = false.
Proof.
  split; [reflexivity|].
  exact (proj1 (page_after_fetch noDecode (fun _ => true)
                  insertEventIntoDescendingList_spec quietEnv
                  (set_publicKey lowerKey initialState) eq_refl eq_refl)).
Defined.
